(** * restapir: the Transformation evaluator and the script engine

    A shallow embedding of [classes/transformation.js] (the declarative
    transformation evaluator) and, for the parts of the repository whose
    code is only known through its tests and its specification, of the
    script engine ([classes/script.js]).  The code around the evaluator
    that reads method names ([classes/query.js], the constructor of
    [engines/script.js]) and the references plugin
    ([plugins/references.js]) follow.

    JavaScript values are embedded as a tree type [jsval]; a function that
    can throw returns a [result]; third-party libraries (lodash, cheerio,
    crypto, ...) are the fields of a record [Externals] that every
    definition using them takes as an argument. *)

From Stdlib Require Import ZArith List String Ascii Bool Lia DecimalString.
From stdpp Require Import base option list strings gmap.

Local Open Scope string_scope.
Local Open Scope Z_scope.

(** ** JavaScript values *)

Module Js.

(** The values that flow through a transformation: what JSON or YAML can
    denote, plus [undefined].  Numbers are the integers.  An object is the
    list of its own enumerable properties in [Object.keys] order; a
    well-formed object has no key twice ([wf_value]). *)
#[warnings="-register-all"]
Inductive jsval : Type :=
| VUndefined
| VNull
| VBool (b : bool)
| VNum (n : Z)
| VStr (s : string)
| VArr (items : list jsval)
| VObj (props : list (string * jsval)).

(** What a JavaScript call produces: a value, or a thrown exception. *)
Inductive error : Type :=
| Error (message : string)
| TypeError (message : string).

Inductive result (A : Type) : Type :=
| Ok (a : A)
| Throw (e : error).
Arguments Ok {A} a.
Arguments Throw {A} e.

Definition bind {A B} (r : result A) (k : A -> result B) : result B :=
  match r with
  | Ok a => k a
  | Throw e => Throw e
  end.

Notation "x <- r ;; k" := (bind r (fun x => k))
  (at level 100, r at next level, right associativity, only parsing).

Definition is_Ok {A} (r : result A) : bool :=
  match r with Ok _ => true | Throw _ => false end.

(** [value === null || typeof value === 'undefined'] *)
Definition nullish (v : jsval) : bool :=
  match v with
  | VUndefined | VNull => true
  | _ => false
  end.

(** The [typeof] operator. *)
Definition typeof (v : jsval) : string :=
  match v with
  | VUndefined => "undefined"
  | VNull => "object"
  | VBool _ => "boolean"
  | VNum _ => "number"
  | VStr _ => "string"
  | VArr _ => "object"
  | VObj _ => "object"
  end.

Definition is_string (v : jsval) : bool :=
  match v with VStr _ => true | _ => false end.

(** [value instanceof Array] *)
Definition is_array (v : jsval) : bool :=
  match v with VArr _ => true | _ => false end.

(** Truthiness, as [if (x)], [x ? a : b] and [Array.prototype.filter] see it. *)
Definition truthy (v : jsval) : bool :=
  match v with
  | VUndefined | VNull => false
  | VBool b => b
  | VNum n => negb (n =? 0)
  | VStr s => negb (String.eqb s "")
  | VArr _ | VObj _ => true
  end.

(** Decimal spelling of a number, as [String(n)] gives it. *)
Definition string_of_Z (n : Z) : string :=
  NilZero.string_of_int (Z.to_int n).

(** The canonical numeric index a property key spells, if any. *)
Definition index_of_key (k : string) : option nat :=
  match NilZero.int_of_string k with
  | Some (Decimal.Pos d) =>
      let n := Nat.of_uint d in
      if String.eqb (string_of_Z (Z.of_nat n)) k then Some n else None
  | _ => None
  end.

Fixpoint assoc {A} (k : string) (props : list (string * A)) : option A :=
  match props with
  | [] => None
  | (k', v) :: rest => if String.eqb k k' then Some v else assoc k rest
  end.

Definition char_at (s : string) (i : nat) : jsval :=
  match String.get i s with
  | Some c => VStr (String c EmptyString)
  | None => VUndefined
  end.

(** Property access [o[k]] / [o.k] on own properties.  Reading a property
    of [null] or [undefined] throws a [TypeError]; a missing property reads
    as [undefined].  Properties inherited from the built-in prototypes other
    than [length] are not part of the embedding. *)
Definition get_prop (o : jsval) (k : string) : result jsval :=
  match o with
  | VUndefined => Throw (TypeError ("Cannot read property '" ++ k ++ "' of undefined"))
  | VNull => Throw (TypeError ("Cannot read property '" ++ k ++ "' of null"))
  | VBool _ | VNum _ => Ok VUndefined
  | VStr s =>
      if String.eqb k "length" then Ok (VNum (Z.of_nat (String.length s)))
      else match index_of_key k with
           | Some i => Ok (char_at s i)
           | None => Ok VUndefined
           end
  | VArr items =>
      if String.eqb k "length" then Ok (VNum (Z.of_nat (List.length items)))
      else match index_of_key k with
           | Some i => Ok (nth i items VUndefined)
           | None => Ok VUndefined
           end
  | VObj props =>
      match assoc k props with
      | Some v => Ok v
      | None => Ok VUndefined
      end
  end.

(** [Object.keys(o)]: throws on [null] and [undefined], is empty on the
    other primitives except strings, and lists the indices of a string or
    an array. *)
Definition index_keys (n : nat) : list string :=
  List.map (fun i => string_of_Z (Z.of_nat i)) (seq 0 n).

Definition object_keys (o : jsval) : result (list string) :=
  match o with
  | VUndefined | VNull =>
      Throw (TypeError "Cannot convert undefined or null to object")
  | VBool _ | VNum _ => Ok []
  | VStr s => Ok (index_keys (String.length s))
  | VArr items => Ok (index_keys (List.length items))
  | VObj props => Ok (List.map fst props)
  end.

(** The own enumerable entries [(k, o[k])] for [k] in [Object.keys(o)]. *)
Definition chars_of (s : string) : list jsval :=
  List.map (fun c => VStr (String c EmptyString)) (list_ascii_of_string s).

Definition indexed (items : list jsval) : list (string * jsval) :=
  combine (index_keys (List.length items)) items.

Definition object_entries (o : jsval) : result (list (string * jsval)) :=
  match o with
  | VUndefined | VNull =>
      Throw (TypeError "Cannot convert undefined or null to object")
  | VBool _ | VNum _ => Ok []
  | VStr s => Ok (indexed (chars_of s))
  | VArr items => Ok (indexed items)
  | VObj props => Ok props
  end.

(** [String(v)], the conversion [Array.prototype.join] and [_case] apply. *)
Fixpoint to_string (v : jsval) : string :=
  match v with
  | VUndefined => "undefined"
  | VNull => "null"
  | VBool true => "true"
  | VBool false => "false"
  | VNum n => string_of_Z n
  | VStr s => s
  | VArr items =>
      (fix joined (l : list jsval) : string :=
         match l with
         | [] => ""
         | [x] => if nullish x then "" else to_string x
         | x :: rest =>
             (if nullish x then "" else to_string x) ++ "," ++ joined rest
         end) items
  | VObj _ => "[object Object]"
  end.

(** [items.join(separator)] *)
Fixpoint array_join (sep : string) (items : list jsval) : string :=
  match items with
  | [] => ""
  | [x] => if nullish x then "" else to_string x
  | x :: rest => (if nullish x then "" else to_string x) ++ sep ++ array_join sep rest
  end.

(** [s.substring(a, b)]: both ends clamped to the string, swapped when out
    of order. *)
Definition clamp (len : nat) (i : Z) : nat :=
  if i <? 0 then 0%nat else Nat.min (Z.to_nat i) len.

Definition js_substring (s : string) (a : Z) (b : option Z) : string :=
  let len := String.length s in
  let a' := clamp len a in
  let b' := match b with Some b => clamp len b | None => len end in
  String.substring (Nat.min a' b') (Nat.max a' b' - Nat.min a' b') s.

(** [items.slice(from, to)]: a negative index counts from the end. *)
Definition rel_index (len : nat) (i : Z) : nat :=
  if i <? 0 then Z.to_nat (Z.max 0 (Z.of_nat len + i))
  else Nat.min (Z.to_nat i) len.

Definition js_slice {A} (items : list A) (from : Z) (to : option Z) : list A :=
  let len := List.length items in
  let a := rel_index len from in
  let b := match to with Some t => rel_index len t | None => len end in
  firstn (b - a) (skipn a items).

(** Well-formed values: no object lists a key twice. *)
Fixpoint wf_value (v : jsval) : Prop :=
  match v with
  | VArr items =>
      (fix all (l : list jsval) : Prop :=
         match l with [] => True | x :: r => wf_value x /\ all r end) items
  | VObj props =>
      NoDup (List.map fst props) /\
      (fix all (l : list (string * jsval)) : Prop :=
         match l with [] => True | (_, x) :: r => wf_value x /\ all r end) props
  | _ => True
  end.

(** The number of constructors of a value. *)
Fixpoint size (v : jsval) : nat :=
  match v with
  | VArr items =>
      S ((fix sum (l : list jsval) : nat :=
            match l with [] => 0 | x :: r => size x + sum r end) items)
  | VObj props =>
      S ((fix sum (l : list (string * jsval)) : nat :=
            match l with [] => 0 | (_, x) :: r => size x + sum r end) props)
  | _ => 1
  end%nat.

(** The depth of a value: how many arrays and objects are nested in it. *)
Fixpoint depth (v : jsval) : nat :=
  match v with
  | VArr items =>
      S ((fix deepest (l : list jsval) : nat :=
            match l with [] => 0 | x :: r => Nat.max (depth x) (deepest r) end)
           items)
  | VObj props =>
      S ((fix deepest (l : list (string * jsval)) : nat :=
            match l with
            | [] => 0
            | (_, x) :: r => Nat.max (depth x) (deepest r)
            end) props)
  | _ => 0
  end%nat.

Definition deepest_item (trees : list jsval) : nat :=
  (fix deepest (l : list jsval) : nat :=
     match l with [] => 0 | x :: r => Nat.max (depth x) (deepest r) end)%nat
    trees.

Definition deepest_prop (trees : list (string * jsval)) : nat :=
  (fix deepest (l : list (string * jsval)) : nat :=
     match l with [] => 0 | (_, x) :: r => Nat.max (depth x) (deepest r) end)%nat
    trees.

(** Equality of values is decidable; on values whose objects list their
    keys in one order it is deep equality. *)
Definition jsval_eq_dec : forall x y : jsval, {x = y} + {x <> y}.
Proof.
  fix IH 1. intros x y.
  decide equality.
  - apply bool_dec.
  - apply Z.eq_dec.
  - apply string_dec.
  - apply Stdlib.Lists.List.list_eq_dec, IH.
  - apply Stdlib.Lists.List.list_eq_dec. intros [k v] [k' v'].
    destruct (string_dec k k') as [->|Hk]; [|right; congruence].
    destruct (IH v v') as [->|Hv]; [left; reflexivity|right; congruence].
Defined.

#[export] Instance jsval_eq_decision : EqDecision jsval := jsval_eq_dec.

End Js.

(** ** The jsonpointer package

    [JsonPointer.get] of the jsonpointer package (version 4), which
    [_get] calls: the pointer is cut at every [/], must start with one (or
    be empty), and its tokens are followed from the root; a step into a
    value that is not an object ends the walk with [undefined], a step into
    [null] throws. *)

Module JsonPointer.
Import Js.

Fixpoint split_on (sep : ascii) (s : string) : list string :=
  match s with
  | EmptyString => [EmptyString]
  | String c rest =>
      match split_on sep rest with
      | token :: tokens =>
          if Ascii.eqb c sep then EmptyString :: token :: tokens
          else String c token :: tokens
      | [] => [String c EmptyString]
      end
  end.

Fixpoint untilde (s : string) : string :=
  match s with
  | String "~" (String "1" rest) => String "/" (untilde rest)
  | String "~" (String "0" rest) => String "~" (untilde rest)
  | String c rest => String c (untilde rest)
  | EmptyString => EmptyString
  end.

Definition compilePointer (pointer : string) : result (list string) :=
  match split_on "/" pointer with
  | EmptyString :: tokens => Ok tokens
  | _ => Throw (Error "Invalid JSON pointer.")
  end.

Section Package.
(** [obj[token]], the property read that the package does at every token.
    On an object or an array it finds the own property of that name; where
    there is none it looks along the prototype chain, where it finds what
    the built-in prototypes have under the name ([constructor],
    [toString], ...), which is no JSON value, or nothing.  The package is
    written here over any such read; what is assumed of a read is said
    where it is used ([reads_members]). *)
Context (read : jsval -> string -> result jsval).

Fixpoint walk_with (obj : jsval) (tokens : list string) : result jsval :=
  match tokens with
  | [] => Ok obj
  | token :: rest =>
      next <- read obj (untilde token) ;;
      match rest with
      | [] => Ok next
      | _ :: _ =>
          if String.eqb (typeof next) "object" then walk_with next rest
          else Ok VUndefined
      end
  end.

Definition get_with (obj : jsval) (pointer : string) : result jsval :=
  if negb (String.eqb (typeof obj) "object") then
    Throw (Error "Invalid input object.")
  else
    tokens <- compilePointer pointer ;;
    walk_with obj tokens.

End Package.

(** The package on paths that stay within the own properties of the
    document, where a property that is not there reads as [undefined]: the
    read of the examples. *)
Definition walk : jsval -> list string -> result jsval := walk_with get_prop.

Definition get : jsval -> string -> result jsval := get_with get_prop.

(** The member of a document under a token: the property of an object
    with that name, the item of an array at that index. *)
Definition member (doc : jsval) (token : string) : option jsval :=
  match doc with
  | VObj props => assoc token props
  | VArr items =>
      match index_of_key token with
      | Some i => nth_error items i
      | None => None
      end
  | _ => None
  end.

(** What holds of [obj[token]] in the language on the data of a document:
    a member is an own property and is what the read finds, and a read on
    [null] throws. *)
Definition reads_members (read : jsval -> string -> result jsval) : Prop :=
  (forall doc token found,
     member doc token = Some found -> read doc token = Ok found) /\
  (forall token, exists e, read VNull token = Throw e).

(** The value that a path addresses in a document, in the words of the
    specification: the structural lookup by the tokens of the path, member
    by member, from the whole document for the path without tokens. *)
Fixpoint addressed (doc : jsval) (tokens : list string) : option jsval :=
  match tokens with
  | [] => Some doc
  | token :: rest =>
      match member doc token with
      | Some next => addressed next rest
      | None => None
      end
  end.

(** The text of a pointer with the given tokens: each after a [/], with
    [~] written [~0] and [/] written [~1]. *)
Fixpoint escape (token : string) : string :=
  match token with
  | EmptyString => EmptyString
  | String c rest =>
      if Ascii.eqb c "~" then String "~" (String "0" (escape rest))
      else if Ascii.eqb c "/" then String "~" (String "1" (escape rest))
      else String c (escape rest)
  end.

Fixpoint pointer_of (tokens : list string) : string :=
  match tokens with
  | [] => EmptyString
  | token :: rest => String "/" (escape token ++ pointer_of rest)
  end.

(** A string without the character [sep]: a token in its escaped spelling
    holds no [/]. *)
Fixpoint without (sep : ascii) (s : string) : bool :=
  match s with
  | EmptyString => true
  | String c rest => negb (Ascii.eqb c sep) && without sep rest
  end.

End JsonPointer.

(** ** The Transformation evaluator ([classes/transformation.js]) *)

Module Transformation.
Import Js.

(** The third-party libraries and the built-ins with a large semantics of
    their own that the evaluator calls, each as the function of its
    arguments that the call computes. *)
Record Externals : Type := {
  (** [JsonPointer.get(value, pointer)] *)
  JsonPointer_get : jsval -> string -> result jsval;
  (** [Crypto.createHash(algorithm).update(data).digest(encoding)] *)
  Crypto_hash : jsval -> jsval -> string -> result jsval;
  JSON_stringify : jsval -> string;
  JSON_parse : jsval -> result jsval;
  (** [_.union.apply(_, arrays)] *)
  lodash_union : list jsval -> jsval;
  (** [value.split(separator)] *)
  String_split : string -> jsval -> list string;
  (** the integer a string converts to where a number is expected *)
  String_toInteger : string -> Z;
  (** [$(selector, html)]: the markup, and the text, of every match *)
  cheerio_html : string -> string -> result (list string);
  cheerio_text : string -> string -> result (list string);
  (** [$(html).attr(name)] *)
  cheerio_attr : string -> string -> result (option string);
  (** [$(selector, html)] over table rows: the markup of every row with the
      text of each of its [td] cells *)
  cheerio_rows : string -> string -> result (list (string * list string));
  (** [value.replace(search, replace)], [search] read as a [/body/flags]
      literal when it has that form *)
  String_replace : string -> string -> string -> result string;
  (** [JSON.parse(XmlConvJson.parseXML(value))] *)
  Xml_parse : string -> result jsval;
  (** [~~(new Date() / 1e3)] *)
  Date_now : Z;
  lodash_lowerCase : string -> string;
  lodash_upperCase : string -> string;
  lodash_camelCase : string -> string;
  lodash_kebabCase : string -> string;
  lodash_snakeCase : string -> string;
  lodash_capitalize : string -> string;
  lodash_deburr : string -> string;
  String_toLowerCase : string -> string;
  String_toUpperCase : string -> string;
  String_trim : string -> string;
  (** [value.split(/[\s]/)] *)
  String_split_whitespace : string -> list string;
  (** [isMyJsonValid(schema)(value)] *)
  isMyJsonValid : jsval -> jsval -> result bool;
}.

Definition quoted (s : string) : string :=
  String (ascii_of_nat 34) s ++ String (ascii_of_nat 34) "".

(** [_.cloneDeep(value)]: a tree is its own deep copy. *)
Definition cloneDeep (v : jsval) : jsval := v.

(** [items.map(f)] for an [f] that can throw: the first exception wins. *)
Definition mapM {A B} (f : A -> result B) : list A -> result (list B) :=
  fix go (l : list A) : result (list B) :=
    match l with
    | [] => Ok []
    | x :: rest => y <- f x ;; ys <- go rest ;; Ok (y :: ys)
    end.

(** [_.defaults(options, {key: fallback})] followed by [options.key]. *)
Definition defaults_prop (options : jsval) (k : string) (fallback : jsval) : jsval :=
  match options with
  | VUndefined | VNull => fallback
  | _ => match get_prop options k with
         | Ok VUndefined | Throw _ => fallback
         | Ok v => v
         end
  end.

Section Methods.
Context (E : Externals).

(** The integer an argument of [slice] converts to. *)
Definition to_integer (v : jsval) : Z :=
  match v with
  | VNum n => n
  | VNull => 0
  | VBool b => if b then 1 else 0
  | VUndefined => 0
  | VStr _ | VArr _ | VObj _ => E.(String_toInteger) (to_string v)
  end.

Definition _get (value options : jsval) : result jsval :=
  match options with
  | VStr pointer =>
      match E.(JsonPointer_get) value pointer with
      | Ok found => Ok found
      | Throw _ => Ok VNull
      end
  | _ => Throw (Error ("Value of " ++ quoted "get" ++ " function must be a string"))
  end.

Definition _static (value options : jsval) : result jsval := Ok options.

(** [new Transformation({get: pointer}).transform(value)], the shorthand
    that [_object], [_map] and [_array] expand a string template to. *)
Definition transform_shorthand (pointer : string) (value : jsval) : result jsval :=
  if nullish value then Ok VNull
  else match _get (cloneDeep value) (VStr pointer) with
       | Ok output => if nullish output then Ok VNull else Ok output
       | Throw e => Throw e
       end.

(** In the methods below [sub template value] stands for
    [new Transformation(template).transform(value)] on a template that is
    not a string. *)
Definition sub_transform (sub : jsval -> jsval -> result jsval)
    (template value : jsval) : result jsval :=
  match template with
  | VStr pointer => transform_shorthand pointer value
  | _ => sub template value
  end.

Definition _object (sub : jsval -> jsval -> result jsval)
    (value options : jsval) : result jsval :=
  match options with
  | VUndefined | VBool _ | VNum _ | VStr _ =>
      Throw (Error ("Value of " ++ quoted "object" ++ " functions must be an object"))
  | VNull => Throw (TypeError "Cannot convert undefined or null to object")
  | VArr items =>
      outs <- mapM (fun template => sub_transform sub template value) items ;;
      Ok (VObj (indexed outs))
  | VObj props =>
      outs <- mapM (fun '(key, template) =>
                      out <- sub_transform sub template value ;; Ok (key, out))
                   props ;;
      Ok (VObj outs)
  end.

Definition _map (sub : jsval -> jsval -> result jsval)
    (value options : jsval) : result jsval :=
  match value with
  | VArr items =>
      outs <- mapM (fun item => sub_transform sub options item) items ;;
      Ok (VArr outs)
  | _ => Ok VNull
  end.

(** [start] and [length] are whole numbers, as every number of the
    embedding is; the truncation that [substring] applies to a fraction
    has nothing to do here. *)
Definition _substring (value options : jsval) : result jsval :=
  match value with
  | VStr s =>
      start <- get_prop options "start" ;;
      length <- get_prop options "length" ;;
      let start := match start with VNum n => n | _ => 0 end in
      let stop := match length with VNum n => Some (start + n) | _ => None end in
      Ok (VStr (js_substring s start stop))
  | _ => Throw (Error ("Cannot execute substring on " ++ typeof value))
  end.

Definition _length (value : jsval) : result jsval :=
  match value with
  | VStr s => Ok (VNum (Z.of_nat (String.length s)))
  | VArr items => Ok (VNum (Z.of_nat (List.length items)))
  | _ => Throw (Error "Can only get length of arrays and strings")
  end.

Definition _hash (value options : jsval) : result jsval :=
  let data := match value with VStr s => s | _ => E.(JSON_stringify) value end in
  E.(Crypto_hash) (defaults_prop options "algorithm" (VStr "md5"))
                  (defaults_prop options "encoding" (VStr "hex")) data.

Definition array_items (sub : jsval -> jsval -> result jsval)
    (value : jsval) (items : list jsval) : result (list jsval) :=
  mapM (fun item => sub_transform sub item value) items.

Definition _array (sub : jsval -> jsval -> result jsval)
    (value options : jsval) : result jsval :=
  match options with
  | VArr items => outs <- array_items sub value items ;; Ok (VArr outs)
  | _ => Throw (Error "Options for array transformation must be an array")
  end.

Definition _union (sub : jsval -> jsval -> result jsval)
    (value options : jsval) : result jsval :=
  match options with
  | VArr items =>
      outs <- array_items sub value items ;; Ok (E.(lodash_union) outs)
  | _ => Throw (Error "Options for union transformation must be an array")
  end.

Definition _join (value options : jsval) : result jsval :=
  match value with
  | VArr items =>
      sep <- get_prop options "separator" ;;
      let separator := if truthy sep then to_string sep else "" in
      Ok (VStr (array_join separator items))
  | _ => Throw (Error "Value for join transformation must be an array")
  end.

Definition _split (value options : jsval) : result jsval :=
  sep <- get_prop options "separator" ;;
  if negb (truthy sep) then
    Throw (Error "Missing separator for split transformation")
  else match value with
       | VStr s => Ok (VArr (List.map VStr (E.(String_split) s sep)))
       | _ => Ok (VArr [])
       end.

Definition _filter (value : jsval) : result jsval :=
  match value with
  | VArr items => Ok (VArr (List.filter truthy items))
  | _ => Throw (Error "Value for filter transformation must be an array")
  end.

Definition _slice (value options : jsval) : result jsval :=
  match value with
  | VArr items =>
      let from := to_integer (defaults_prop options "from" (VNum 0)) in
      let to :=
        match defaults_prop options "to" VUndefined with
        | VUndefined => None
        | t => Some (to_integer t)
        end in
      Ok (VArr (js_slice items from to))
  | _ => Throw (Error "Value for slice transformation must be an array")
  end.

Definition _count (value : jsval) : result jsval :=
  match value with
  | VStr s => Ok (VNum (Z.of_nat (String.length s)))
  | VArr items => Ok (VNum (Z.of_nat (List.length items)))
  | _ => Ok (VNum 0)
  end.

Definition _case (value options : jsval) : result jsval :=
  match options with
  | VArr _ | VObj _ =>
      chosen <- get_prop options (to_string value) ;;
      if negb (String.eqb (typeof chosen) "undefined") then Ok chosen
      else
        fallback <- get_prop options "default" ;;
        if negb (String.eqb (typeof fallback) "undefined") then Ok fallback
        else Ok VNull
  | _ => Throw (Error ("Value of " ++ quoted "case" ++ " functions must be an object"))
  end.

Definition first_or_null (found : list string) : jsval :=
  match found with
  | x :: _ => VStr x
  | [] => VNull
  end.

Definition _htmlTag (value options : jsval) : result jsval :=
  match options with
  | VStr selector =>
      match value with
      | VStr html =>
          found <- E.(cheerio_html) selector html ;; Ok (first_or_null found)
      | _ => Ok VNull
      end
  | _ => Throw (Error ("Value of " ++ quoted "htmlTag" ++ " functions must be a string"))
  end.

Definition _htmlTags (value options : jsval) : result jsval :=
  match options with
  | VStr selector =>
      match value with
      | VStr html =>
          found <- E.(cheerio_html) selector html ;; Ok (VArr (List.map VStr found))
      | _ => Ok (VArr [])
      end
  | _ => Throw (Error ("Value of " ++ quoted "htmlTags" ++ " functions must be a string"))
  end.

Definition _htmlTagText (value options : jsval) : result jsval :=
  match options with
  | VStr selector =>
      match value with
      | VStr html =>
          found <- E.(cheerio_text) selector html ;; Ok (first_or_null found)
      | _ => Ok VNull
      end
  | _ => Throw (Error ("Value of " ++ quoted "htmlTagText" ++ " functions must be a string"))
  end.

Definition _htmlTagsText (value options : jsval) : result jsval :=
  match options with
  | VStr selector =>
      match value with
      | VStr html =>
          found <- E.(cheerio_text) selector html ;; Ok (VArr (List.map VStr found))
      | _ => Ok (VArr [])
      end
  | _ => Throw (Error ("Value of " ++ quoted "htmlTagsText" ++ " functions must be a string"))
  end.

Definition _htmlAttribute (value options : jsval) : result jsval :=
  match options with
  | VStr name =>
      match value with
      | VStr html =>
          found <- E.(cheerio_attr) html name ;;
          Ok (match found with Some attr => VStr attr | None => VNull end)
      | _ => Ok VNull
      end
  | _ => Throw (Error ("Value of " ++ quoted "htmlAttribute" ++ " functions must be a string"))
  end.

(** [$(cells[n]).text()]: empty when [cells[n]] is undefined. *)
Definition cell_text (cells : list string) (n : Z) : string :=
  if n <? 0 then "" else nth (Z.to_nat n) cells "".

Definition normalized (s : string) : string :=
  E.(String_toLowerCase) (E.(String_trim) s).

(** The loop over the rows of [_htmlTable]. *)
Fixpoint scan_rows (rows : list (string * list string)) (cell : Z) (text : string)
    (returnCell : jsval) : jsval :=
  match rows with
  | [] => VNull
  | (row, cells) :: rest =>
      if (cell <=? Z.of_nat (List.length cells))
         && String.eqb (normalized (cell_text cells cell)) (normalized text)
      then match returnCell with
           | VNum n =>
               if n <=? Z.of_nat (List.length cells)
               then VStr (cell_text cells n) else VNull
           | _ => VStr row
           end
      else scan_rows rest cell text returnCell
  end.

Definition htmlTable_error : error :=
  Error ("Value of " ++ quoted "htmlTable"
         ++ " functions must be an object with cell and text properties").

Definition _htmlTable (value options : jsval) : result jsval :=
  if negb (String.eqb (typeof options) "object") then Throw htmlTable_error
  else
    cell <- get_prop options "cell" ;;
    match cell with
    | VNum cell =>
        text <- get_prop options "text" ;;
        match text with
        | VStr text =>
            match value with
            | VStr html =>
                sel <- get_prop options "selector" ;;
                let selector :=
                  match sel with
                  | VStr s => s ++ ">tr " ++ s ++ ">tbody>tr"
                  | _ => "tr"
                  end in
                rows <- E.(cheerio_rows) selector html ;;
                returnCell <- get_prop options "returnCell" ;;
                Ok (scan_rows rows cell text returnCell)
            | _ => Ok VNull
            end
        | _ => Throw htmlTable_error
        end
    | _ => Throw htmlTable_error
    end.

Definition replace_error : error :=
  Error ("Value of " ++ quoted "replace"
         ++ " functions must be an object with search and replace properties").

Definition _replace (value options : jsval) : result jsval :=
  if negb (String.eqb (typeof options) "object") then Throw replace_error
  else
    search <- get_prop options "search" ;;
    match search with
    | VStr search =>
        replacement <- get_prop options "replace" ;;
        match replacement with
        | VStr replacement =>
            match value with
            | VStr s =>
                out <- E.(String_replace) search replacement s ;; Ok (VStr out)
            | _ => Ok VNull
            end
        | _ => Throw replace_error
        end
    | _ => Throw replace_error
    end.

Definition _fromJson (value : jsval) : result jsval := E.(JSON_parse) value.

Definition _toJson (value : jsval) : result jsval :=
  Ok (VStr (E.(JSON_stringify) value)).

Definition _fromXml (value : jsval) : result jsval :=
  match value with
  | VStr xml => E.(Xml_parse) xml
  | _ => Ok VNull
  end.

Definition _now : result jsval := Ok (VNum E.(Date_now)).

(** The shape shared by [_lowerCase], [_upperCase], [_camelCase],
    [_kebabCase], [_snakeCase], [_capitalize] and [_deburr]. *)
Definition on_string (f : string -> string) (value : jsval) : result jsval :=
  match value with
  | VStr s => Ok (VStr (f s))
  | _ => Ok VNull
  end.

Definition _lowerCase := on_string E.(lodash_lowerCase).
Definition _upperCase := on_string E.(lodash_upperCase).
Definition _camelCase := on_string E.(lodash_camelCase).
Definition _kebabCase := on_string E.(lodash_kebabCase).
Definition _snakeCase := on_string E.(lodash_snakeCase).
Definition _capitalize := on_string E.(lodash_capitalize).
Definition _deburr := on_string E.(lodash_deburr).

Definition _nameCase (value : jsval) : result jsval :=
  match value with
  | VStr s =>
      let words := E.(String_split_whitespace) (E.(String_toLowerCase) s) in
      let cased :=
        List.map (fun word =>
                    VStr (E.(String_toUpperCase) (js_substring word 0 (Some 1))
                          ++ js_substring word 1 None)) words in
      Ok (VStr (array_join " " cased))
  | _ => Ok VNull
  end.

Definition _assert (value options : jsval) : result jsval :=
  let schema := VObj [("type", VStr "object"); ("properties", options)] in
  valid <- E.(isMyJsonValid) schema value ;;
  if valid then Ok value
  else Throw (Error ("Assertion did not pass: " ++ E.(JSON_stringify) value)).

(** [this['_' + key](value, options)] when [typeof this['_' + key]] is
    ['function'], [None] otherwise.  The functions are the methods of the
    class and, through [Object.prototype], the four legacy accessors
    [__defineGetter__], [__defineSetter__] (which throw, the options never
    being a function) and [__lookupGetter__], [__lookupSetter__] (which find
    no accessor and return [undefined]; the one accessor in reach,
    [__proto__], is not part of the embedding). *)
Definition call_method (sub : jsval -> jsval -> result jsval) (key : string)
    (value options : jsval) : option (result jsval) :=
  if String.eqb key "get" then Some (_get value options)
  else if String.eqb key "static" then Some (_static value options)
  else if String.eqb key "object" then Some (_object sub value options)
  else if String.eqb key "map" then Some (_map sub value options)
  else if String.eqb key "substring" then Some (_substring value options)
  else if String.eqb key "length" then Some (_length value)
  else if String.eqb key "hash" then Some (_hash value options)
  else if String.eqb key "array" then Some (_array sub value options)
  else if String.eqb key "union" then Some (_union sub value options)
  else if String.eqb key "join" then Some (_join value options)
  else if String.eqb key "split" then Some (_split value options)
  else if String.eqb key "filter" then Some (_filter value)
  else if String.eqb key "slice" then Some (_slice value options)
  else if String.eqb key "count" then Some (_count value)
  else if String.eqb key "case" then Some (_case value options)
  else if String.eqb key "htmlTag" then Some (_htmlTag value options)
  else if String.eqb key "htmlTags" then Some (_htmlTags value options)
  else if String.eqb key "htmlTagText" then Some (_htmlTagText value options)
  else if String.eqb key "htmlTagsText" then Some (_htmlTagsText value options)
  else if String.eqb key "htmlAttribute" then Some (_htmlAttribute value options)
  else if String.eqb key "htmlTable" then Some (_htmlTable value options)
  else if String.eqb key "replace" then Some (_replace value options)
  else if String.eqb key "fromJson" then Some (_fromJson value)
  else if String.eqb key "toJson" then Some (_toJson value)
  else if String.eqb key "fromXml" then Some (_fromXml value)
  else if String.eqb key "now" then Some _now
  else if String.eqb key "lowerCase" then Some (_lowerCase value)
  else if String.eqb key "upperCase" then Some (_upperCase value)
  else if String.eqb key "camelCase" then Some (_camelCase value)
  else if String.eqb key "kebabCase" then Some (_kebabCase value)
  else if String.eqb key "snakeCase" then Some (_snakeCase value)
  else if String.eqb key "nameCase" then Some (_nameCase value)
  else if String.eqb key "capitalize" then Some (_capitalize value)
  else if String.eqb key "deburr" then Some (_deburr value)
  else if String.eqb key "assert" then Some (_assert value options)
  else if String.eqb key "_defineGetter__" || String.eqb key "_defineSetter__"
  then Some (Throw (TypeError "Expecting function"))
  else if String.eqb key "_lookupGetter__" || String.eqb key "_lookupSetter__"
  then Some (Ok VUndefined)
  else None.

(** One turn of the loop of [transform]: the call of the method a key
    names, or the exception for a key that names none. *)
Definition apply_key (sub : jsval -> jsval -> result jsval) (key : string)
    (output options : jsval) : result jsval :=
  match call_method sub key output options with
  | Some called => called
  | None => Throw (Error ("Unknown function " ++ key))
  end.

(** [new Transformation(template).transform(value)].  The loop runs over
    the template's own keys; an array or a string as the template has the
    keys ["0"], ["1"], ..., none of which names a method. *)
Fixpoint transform (template value : jsval) {struct template} : result jsval :=
  if nullish value then Ok VNull
  else
    let output := cloneDeep value in
    match template with
    | VUndefined | VNull =>
        Throw (TypeError "Cannot convert undefined or null to object")
    | VBool _ | VNum _ => Ok output
    | VStr s =>
        if String.eqb s "" then Ok output
        else Throw (Error ("Unknown function " ++ "0"))
    | VArr [] => Ok output
    | VArr (_ :: _) => Throw (Error ("Unknown function " ++ "0"))
    | VObj props =>
        (fix loop (props : list (string * jsval)) (output : jsval)
           {struct props} : result jsval :=
           match props with
           | [] => Ok output
           | (key, options) :: rest =>
               match apply_key transform key output options with
               | Ok output =>
                   if nullish output then Ok VNull else loop rest output
               | Throw e => Throw e
               end
           end) props output
    end.

(** The loop of [transform] over the keys that are left, as a function of
    its own. *)
Fixpoint chain (props : list (string * jsval)) (output : jsval) : result jsval :=
  match props with
  | [] => Ok output
  | (key, options) :: rest =>
      match apply_key transform key output options with
      | Ok output => if nullish output then Ok VNull else chain rest output
      | Throw e => Throw e
      end
  end.

(** The names [key] for which [this['_' + key]] is a function. *)
Definition method_names : list string :=
  [ "get"; "static"; "object"; "map"; "substring"; "length"; "hash"; "array";
    "union"; "join"; "split"; "filter"; "slice"; "count"; "case"; "htmlTag";
    "htmlTags"; "htmlTagText"; "htmlTagsText"; "htmlAttribute"; "htmlTable";
    "replace"; "fromJson"; "toJson"; "fromXml"; "now"; "lowerCase";
    "upperCase"; "camelCase"; "kebabCase"; "snakeCase"; "nameCase";
    "capitalize"; "deburr"; "assert"; "_defineGetter__"; "_defineSetter__";
    "_lookupGetter__"; "_lookupSetter__" ].

Definition is_method (key : string) : bool :=
  existsb (String.eqb key) method_names.

(** The loop of [transform value] comes past the keys [before] with the
    value [v] in hand: the input and every result so far were there. *)
Definition reaches (before : list (string * jsval)) (value v : jsval) : Prop :=
  nullish value = false /\
  chain before (cloneDeep value) = Ok v /\
  nullish v = false.

(** Absence during [transform value]: the input is [null] or [undefined],
    or the method of some key of the template returns [null] or
    [undefined]. *)
Inductive absent : jsval -> jsval -> Prop :=
| absent_input template value :
    nullish value = true ->
    absent template value
| absent_output before key options after value v r :
    reaches before value v ->
    apply_key transform key v options = Ok r ->
    nullish r = true ->
    absent (VObj (before ++ (key, options) :: after)) value.

(** [typeof template === 'string' ? {get: template} : template], the
    template that [_object], [_map] and [_array] hand to
    [new Transformation]. *)
Definition expand (template : jsval) : jsval :=
  match template with
  | VStr pointer => VObj [("get", VStr pointer)]
  | _ => template
  end.

End Methods.

(** An instance of the libraries for the examples: the jsonpointer package
    as modelled above and the conversions on ASCII letters.  The other
    fields stand in for libraries that no example calls: those that can
    fail return an error that makes a call visible, the others a value of
    the right type.  The theorems are stated for every [Externals]; the
    instance serves the closed examples only. *)
Definition ascii_lower (c : ascii) : ascii :=
  let n := nat_of_ascii c in
  if ((65 <=? n) && (n <=? 90))%nat then ascii_of_nat (n + 32) else c.

Definition ascii_upper (c : ascii) : ascii :=
  let n := nat_of_ascii c in
  if ((97 <=? n) && (n <=? 122))%nat then ascii_of_nat (n - 32) else c.

Fixpoint map_string (f : ascii -> ascii) (s : string) : string :=
  match s with
  | EmptyString => EmptyString
  | String c rest => String (f c) (map_string f rest)
  end.

Definition not_called {A} : result A := Throw (Error "library not available").

Definition example_externals : Externals := {|
  JsonPointer_get := JsonPointer.get;
  Crypto_hash := fun _ _ _ => not_called;
  JSON_stringify := to_string;
  JSON_parse := fun _ => not_called;
  lodash_union := fun arrays => VArr (List.concat (List.map (fun a => match a with VArr l => l | _ => [] end) arrays));
  String_split := fun s _ => [s];
  String_toInteger := fun _ => 0;
  cheerio_html := fun _ _ => not_called;
  cheerio_text := fun _ _ => not_called;
  cheerio_attr := fun _ _ => not_called;
  cheerio_rows := fun _ _ => not_called;
  String_replace := fun _ _ _ => not_called;
  Xml_parse := fun _ => not_called;
  Date_now := 0;
  lodash_lowerCase := map_string ascii_lower;
  lodash_upperCase := map_string ascii_upper;
  lodash_camelCase := fun s => s;
  lodash_kebabCase := fun s => s;
  lodash_snakeCase := fun s => s;
  lodash_capitalize := fun s => s;
  lodash_deburr := fun s => s;
  String_toLowerCase := map_string ascii_lower;
  String_toUpperCase := map_string ascii_upper;
  String_trim := fun s => s;
  String_split_whitespace := JsonPointer.split_on " ";
  isMyJsonValid := fun _ _ => not_called;
|}.

End Transformation.

(** ** The evaluator on object references

    The same code, [classes/transformation.js], embedded at the level of
    object references, for what it does to objects the caller holds.  A
    store maps locations to arrays and objects; a value is a primitive or a
    reference into the store; a method is a function of the store that
    returns the store it leaves.  The template is program text and is held
    outside the store (the defaults that [_hash] and [_slice] write into
    their options with [_.defaults] are read with a fallback instead), so a
    template whose options object is itself reachable from the input is
    outside this embedding. *)

Module Store.
Import Js.

Definition loc := nat.

Inductive hval : Type :=
| HUndefined
| HNull
| HBool (b : bool)
| HNum (n : Z)
| HStr (s : string)
| HRef (l : loc).

Inductive cell : Type :=
| CArr (items : list hval)
| CObj (props : list (string * hval)).

Abbreviation store := (list cell).

(** A reference outside the store reads as an object without properties;
    a well-formed store has no such reference. *)
Definition cell_at (h : store) (l : loc) : cell :=
  default (CObj []) (h !! l).

(** A method: given the store, a value or an exception, and the store it
    leaves. *)
Definition M (A : Type) : Type := store -> result A * store.

Definition ret {A} (a : A) : M A := fun h => (Ok a, h).
Definition throw {A} (e : error) : M A := fun h => (Throw e, h).
Definition bindM {A B} (m : M A) (k : A -> M B) : M B :=
  fun h =>
    match m h with
    | (Ok a, h') => k a h'
    | (Throw e, h') => (Throw e, h')
    end.

Notation "x <~ m ;; k" := (bindM m (fun x => k))
  (at level 100, m at next level, right associativity, only parsing).

Definition of_result {A} (r : result A) : M A := fun h => (r, h).

(** The three things a method does to the store: allocate an object, read
    one, and overwrite one. *)
Definition alloc (c : cell) : M loc := fun h => (Ok (length h), (h ++ [c])%list).
Definition read_cell (l : loc) : M cell := fun h => (Ok (cell_at h l), h).
Definition write_cell (l : loc) (c : cell) : M unit :=
  fun h => (Ok tt, <[l := c]> h).

Fixpoint assoc_set (key : string) (x : hval) (props : list (string * hval))
  : list (string * hval) :=
  match props with
  | [] => [(key, x)]
  | (k, y) :: rest =>
      if String.eqb key k then (k, x) :: rest
      else (k, y) :: assoc_set key x rest
  end.

(** [o[key] = x] on an object, and [a.push(x)] on an array. *)
Definition set_property (l : loc) (key : string) (x : hval) : M unit :=
  c <~ read_cell l ;;
  match c with
  | CObj props => write_cell l (CObj (assoc_set key x props))
  | CArr _ => ret tt
  end.

Definition push (l : loc) (x : hval) : M unit :=
  c <~ read_cell l ;;
  match c with
  | CArr items => write_cell l (CArr (items ++ [x])%list)
  | CObj _ => ret tt
  end.

Definition nullish (v : hval) : bool :=
  match v with
  | HUndefined | HNull => true
  | _ => false
  end.

Definition truthy (v : hval) : bool :=
  match v with
  | HUndefined | HNull => false
  | HBool b => b
  | HNum n => negb (n =? 0)
  | HStr s => negb (String.eqb s "")
  | HRef _ => true
  end.

Definition typeof (v : hval) : string :=
  match v with
  | HUndefined => "undefined"
  | HNull => "object"
  | HBool _ => "boolean"
  | HNum _ => "number"
  | HStr _ => "string"
  | HRef _ => "object"
  end.

Definition hval_eqb (a b : hval) : bool :=
  match a, b with
  | HUndefined, HUndefined | HNull, HNull => true
  | HBool x, HBool y => Bool.eqb x y
  | HNum x, HNum y => x =? y
  | HStr x, HStr y => String.eqb x y
  | HRef x, HRef y => Nat.eqb x y
  | _, _ => false
  end.

(** The tree a value denotes in a store: its primitives, with every
    reference followed.  [fuel] bounds the depth. *)
Fixpoint reify (fuel : nat) (h : store) (v : hval) : jsval :=
  match v with
  | HUndefined => VUndefined
  | HNull => VNull
  | HBool b => VBool b
  | HNum n => VNum n
  | HStr s => VStr s
  | HRef l =>
      match fuel with
      | O => VUndefined
      | S fuel =>
          match cell_at h l with
          | CArr items => VArr (List.map (reify fuel h) items)
          | CObj props =>
              VObj (List.map (fun '(k, x) => (k, reify fuel h x)) props)
          end
      end
  end.

(** A function that changes the store, run over a list from left to
    right. *)
Definition thread {A B} (f : A -> store -> B * store)
  : list A -> store -> list B * store :=
  fix go (l : list A) (h : store) : list B * store :=
    match l with
    | [] => ([], h)
    | x :: rest =>
        let '(y, h1) := f x h in
        let '(ys, h2) := go rest h1 in
        (y :: ys, h2)
    end.

(** A tree laid out in fresh objects of the store. *)
Fixpoint inject (t : jsval) (h : store) : hval * store :=
  match t with
  | VUndefined => (HUndefined, h)
  | VNull => (HNull, h)
  | VBool b => (HBool b, h)
  | VNum n => (HNum n, h)
  | VStr s => (HStr s, h)
  | VArr items =>
      let '(xs, h1) := thread inject items h in
      (HRef (length h1), (h1 ++ [CArr xs])%list)
  | VObj props =>
      let '(xs, h1) :=
        thread (fun '(k, t) h => let '(x, h1) := inject t h in ((k, x), h1))
               props h in
      (HRef (length h1), (h1 ++ [CObj xs])%list)
  end.

Definition fresh (t : jsval) : M hval :=
  fun h => let '(x, h') := inject t h in (Ok x, h').

(** [_.cloneDeep(value)] on a value laid out as a tree: every object in
    reach is copied into a new one.  (lodash also carries sharing and
    cycles of the original over to the copy; a document read from JSON or
    YAML has neither.) *)
Fixpoint clone (fuel : nat) (v : hval) (h : store) : hval * store :=
  match v with
  | HRef l =>
      match fuel with
      | O => (HUndefined, h)
      | S fuel =>
          match cell_at h l with
          | CArr items =>
              let '(copies, h1) := thread (clone fuel) items h in
              (HRef (length h1), (h1 ++ [CArr copies])%list)
          | CObj props =>
              let '(copies, h1) :=
                thread (fun '(k, x) h =>
                          let '(y, h1) := clone fuel x h in ((k, y), h1))
                       props h in
              (HRef (length h1), (h1 ++ [CObj copies])%list)
          end
      end
  | _ => (v, h)
  end.

(** A tree laid out in a store of [length h] objects is no deeper than
    that, so this bound on the depth is never reached on one. *)
Definition cloneDeep (value : hval) : M hval :=
  fun h => let '(copy, h') := clone (S (length h)) value h in (Ok copy, h').

(** Property access on a value of the store, as [Js.get_prop]. *)
Definition get_prop (h : store) (o : hval) (k : string) : result hval :=
  match o with
  | HUndefined =>
      Throw (TypeError ("Cannot read property '" ++ k ++ "' of undefined"))
  | HNull => Throw (TypeError ("Cannot read property '" ++ k ++ "' of null"))
  | HBool _ | HNum _ => Ok HUndefined
  | HStr s =>
      if String.eqb k "length" then Ok (HNum (Z.of_nat (String.length s)))
      else match index_of_key k with
           | Some i => Ok (match String.get i s with
                           | Some c => HStr (String c EmptyString)
                           | None => HUndefined
                           end)
           | None => Ok HUndefined
           end
  | HRef l =>
      match cell_at h l with
      | CArr items =>
          if String.eqb k "length" then Ok (HNum (Z.of_nat (List.length items)))
          else match index_of_key k with
               | Some i => Ok (nth i items HUndefined)
               | None => Ok HUndefined
               end
      | CObj props =>
          Ok (default HUndefined (assoc k props))
      end
  end.

(** [JsonPointer.get] on a value of the store, as [JsonPointer.get]. *)
Fixpoint walk (h : store) (obj : hval) (tokens : list string) : result hval :=
  match tokens with
  | [] => Ok obj
  | token :: rest =>
      next <- get_prop h obj (JsonPointer.untilde token) ;;
      match rest with
      | [] => Ok next
      | _ :: _ =>
          if String.eqb (typeof next) "object" then walk h next rest
          else Ok HUndefined
      end
  end.

Definition JsonPointer_get (h : store) (obj : hval) (pointer : string)
  : result hval :=
  if negb (String.eqb (typeof obj) "object") then
    Throw (Error "Invalid input object.")
  else
    tokens <- JsonPointer.compilePointer pointer ;;
    walk h obj tokens.

Section Methods.
Context (E : Transformation.Externals).

Definition reify_now (v : hval) : M jsval :=
  fun h => (Ok (reify (S (length h)) h v), h).

(** A method that reads its input and returns data of its own: the source
    method on the tree the input denotes, its result laid out afresh. *)
Definition reading (method : jsval -> result jsval) (value : hval) : M hval :=
  tree <~ reify_now value ;;
  out <~ of_result (method tree) ;;
  fresh out.

Definition _get (value : hval) (options : jsval) : M hval :=
  match options with
  | VStr pointer =>
      fun h =>
        match JsonPointer_get h value pointer with
        | Ok found => (Ok found, h)
        | Throw _ => (Ok HNull, h)
        end
  | _ => throw (Error ("Value of " ++ Transformation.quoted "get"
                       ++ " function must be a string"))
  end.

(** [_static] returns [options], an object of the template and none of the
    input; the template being outside the store, it is laid out afresh.
    The same holds for the branch that [_case] returns. *)
Definition _static (value : hval) (options : jsval) : M hval := fresh options.

Definition transform_shorthand (pointer : string) (value : hval) : M hval :=
  if nullish value then ret HNull
  else
    output <~ cloneDeep value ;;
    output <~ _get output (VStr pointer) ;;
    if nullish output then ret HNull else ret output.

Definition sub_transform (sub : jsval -> hval -> M hval)
    (template : jsval) (value : hval) : M hval :=
  match template with
  | VStr pointer => transform_shorthand pointer value
  | _ => sub template value
  end.

(** [list.forEach(f)] for an [f] that changes the store. *)
Definition forEach {A} (f : A -> M unit) : list A -> M unit :=
  fix go (l : list A) : M unit :=
    match l with
    | [] => ret tt
    | x :: rest => _ <~ f x ;; go rest
    end.

Definition forEach_indexed {A} (f : nat -> A -> M unit)
  : nat -> list A -> M unit :=
  fix go (i : nat) (l : list A) : M unit :=
    match l with
    | [] => ret tt
    | x :: rest => _ <~ f i x ;; go (S i) rest
    end.

Definition mapM {A B} (f : A -> M B) : list A -> M (list B) :=
  fix go (l : list A) : M (list B) :=
    match l with
    | [] => ret []
    | x :: rest => y <~ f x ;; ys <~ go rest ;; ret (y :: ys)
    end.

(** [const output = {}], then [output[key] = ...] for every key. *)
Definition _object (sub : jsval -> hval -> M hval)
    (value : hval) (options : jsval) : M hval :=
  match options with
  | VUndefined | VBool _ | VNum _ | VStr _ =>
      throw (Error ("Value of " ++ Transformation.quoted "object"
                    ++ " functions must be an object"))
  | VNull => throw (TypeError "Cannot convert undefined or null to object")
  | VArr items =>
      output <~ alloc (CObj []) ;;
      _ <~ forEach_indexed
             (fun i template =>
                out <~ sub_transform sub template value ;;
                set_property output (string_of_Z (Z.of_nat i)) out) 0 items ;;
      ret (HRef output)
  | VObj props =>
      output <~ alloc (CObj []) ;;
      _ <~ forEach (fun '(key, template) =>
                      out <~ sub_transform sub template value ;;
                      set_property output key out) props ;;
      ret (HRef output)
  end.

(** [const output = []], then [output.push(...)] for every item. *)
Definition _map (sub : jsval -> hval -> M hval)
    (value : hval) (options : jsval) : M hval :=
  match value with
  | HRef l =>
      c <~ read_cell l ;;
      match c with
      | CArr items =>
          output <~ alloc (CArr []) ;;
          _ <~ forEach (fun item =>
                          out <~ sub_transform sub options item ;;
                          push output out) items ;;
          ret (HRef output)
      | CObj _ => ret HNull
      end
  | _ => ret HNull
  end.

Definition array_items (sub : jsval -> hval -> M hval)
    (value : hval) (items : list jsval) : M (list hval) :=
  mapM (fun item => sub_transform sub item value) items.

Definition _array (sub : jsval -> hval -> M hval)
    (value : hval) (options : jsval) : M hval :=
  match options with
  | VArr items =>
      outs <~ array_items sub value items ;;
      output <~ alloc (CArr outs) ;;
      ret (HRef output)
  | _ => throw (Error "Options for array transformation must be an array")
  end.

(** [_.union] of arrays: their items in order of first occurrence, objects
    told apart by reference; an argument that is not an array gives no
    item. *)
Fixpoint uniq (seen items : list hval) : list hval :=
  match items with
  | [] => []
  | x :: rest =>
      if existsb (hval_eqb x) seen then uniq seen rest
      else x :: uniq (x :: seen) rest
  end.

Definition items_of (h : store) (v : hval) : list hval :=
  match v with
  | HRef l => match cell_at h l with CArr items => items | CObj _ => [] end
  | _ => []
  end.

Definition _union (sub : jsval -> hval -> M hval)
    (value : hval) (options : jsval) : M hval :=
  match options with
  | VArr items =>
      outs <~ array_items sub value items ;;
      _ <~ alloc (CArr outs) ;;
      united <~ (fun h => (Ok (uniq [] (List.concat (List.map (items_of h) outs))), h)) ;;
      output <~ alloc (CArr united) ;;
      ret (HRef output)
  | _ => throw (Error "Options for union transformation must be an array")
  end.

Definition _filter (value : hval) : M hval :=
  match value with
  | HRef l =>
      c <~ read_cell l ;;
      match c with
      | CArr items =>
          output <~ alloc (CArr (List.filter truthy items)) ;;
          ret (HRef output)
      | CObj _ =>
          throw (Error "Value for filter transformation must be an array")
      end
  | _ => throw (Error "Value for filter transformation must be an array")
  end.

Definition _slice (value : hval) (options : jsval) : M hval :=
  match value with
  | HRef l =>
      c <~ read_cell l ;;
      match c with
      | CArr items =>
          let from :=
            Transformation.to_integer E
              (Transformation.defaults_prop options "from" (VNum 0)) in
          let to :=
            match Transformation.defaults_prop options "to" VUndefined with
            | VUndefined => None
            | t => Some (Transformation.to_integer E t)
            end in
          output <~ alloc (CArr (js_slice items from to)) ;;
          ret (HRef output)
      | CObj _ =>
          throw (Error "Value for slice transformation must be an array")
      end
  | _ => throw (Error "Value for slice transformation must be an array")
  end.

(** [_assert] returns the very value it was given. *)
Definition _assert (value : hval) (options : jsval) : M hval :=
  tree <~ reify_now value ;;
  _ <~ of_result (Transformation._assert E tree options) ;;
  ret value.

(** The methods that read the input and return data of their own, looked
    up in the method table of the source. *)
Definition no_sub (template value : jsval) : result jsval :=
  Throw (Error "not a template method").

Definition reading_method (key : string) (options : jsval) (tree : jsval)
  : result jsval :=
  match Transformation.call_method E no_sub key tree options with
  | Some called => called
  | None => Throw (Error ("Unknown function " ++ key))
  end.

Definition call_method (sub : jsval -> hval -> M hval) (key : string)
    (value : hval) (options : jsval) : option (M hval) :=
  if String.eqb key "get" then Some (_get value options)
  else if String.eqb key "static" then Some (_static value options)
  else if String.eqb key "object" then Some (_object sub value options)
  else if String.eqb key "map" then Some (_map sub value options)
  else if String.eqb key "array" then Some (_array sub value options)
  else if String.eqb key "union" then Some (_union sub value options)
  else if String.eqb key "filter" then Some (_filter value)
  else if String.eqb key "slice" then Some (_slice value options)
  else if String.eqb key "assert" then Some (_assert value options)
  else if Transformation.is_method key
  then Some (reading (reading_method key options) value)
  else None.

Definition apply_key (sub : jsval -> hval -> M hval) (key : string)
    (output : hval) (options : jsval) : M hval :=
  match call_method sub key output options with
  | Some called => called
  | None => throw (Error ("Unknown function " ++ key))
  end.

(** [new Transformation(template).transform(value)] *)
Fixpoint transform (template : jsval) (value : hval) {struct template}
  : M hval :=
  if nullish value then ret HNull
  else
    output <~ cloneDeep value ;;
    match template with
    | VUndefined | VNull =>
        throw (TypeError "Cannot convert undefined or null to object")
    | VBool _ | VNum _ => ret output
    | VStr s =>
        if String.eqb s "" then ret output
        else throw (Error ("Unknown function " ++ "0"))
    | VArr [] => ret output
    | VArr (_ :: _) => throw (Error ("Unknown function " ++ "0"))
    | VObj props =>
        (fix loop (props : list (string * jsval)) (output : hval)
           {struct props} : M hval :=
           match props with
           | [] => ret output
           | (key, options) :: rest =>
               output <~ apply_key transform key output options ;;
               if nullish output then ret HNull else loop rest output
           end) props output
    end.

Fixpoint chain (props : list (string * jsval)) (output : hval) : M hval :=
  match props with
  | [] => ret output
  | (key, options) :: rest =>
      output <~ apply_key transform key output options ;;
      if nullish output then ret HNull else chain rest output
  end.

End Methods.

(** The tree [t] is laid out in the store [h] at the value [v]. *)
Inductive denotes (h : store) : hval -> jsval -> Prop :=
| denotes_undefined : denotes h HUndefined VUndefined
| denotes_null : denotes h HNull VNull
| denotes_bool b : denotes h (HBool b) (VBool b)
| denotes_num n : denotes h (HNum n) (VNum n)
| denotes_str s : denotes h (HStr s) (VStr s)
| denotes_arr l items trees :
    h !! l = Some (CArr items) ->
    denotes_all h items trees ->
    denotes h (HRef l) (VArr trees)
| denotes_obj l props trees :
    h !! l = Some (CObj props) ->
    denotes_props h props trees ->
    denotes h (HRef l) (VObj trees)
with denotes_all (h : store) : list hval -> list jsval -> Prop :=
| denotes_nil : denotes_all h [] []
| denotes_cons x t xs ts :
    denotes h x t -> denotes_all h xs ts -> denotes_all h (x :: xs) (t :: ts)
with denotes_props (h : store)
  : list (string * hval) -> list (string * jsval) -> Prop :=
| denotes_props_nil : denotes_props h [] []
| denotes_props_cons k x t xs ts :
    denotes h x t -> denotes_props h xs ts ->
    denotes_props h ((k, x) :: xs) ((k, t) :: ts).

(** The objects a cell refers to, and the objects within reach of a
    value. *)
Definition children (c : cell) : list hval :=
  match c with
  | CArr items => items
  | CObj props => List.map snd props
  end.

Inductive reachable (h : store) : hval -> loc -> Prop :=
| reachable_here l : reachable h (HRef l) l
| reachable_child l c x l' :
    h !! l = Some c -> In x (children c) -> reachable h x l' ->
    reachable h (HRef l) l'.

(** A value that is not one of the first [n] objects, and a store whose
    objects beyond the first [n] refer to no object among them. *)
Definition beyond (n : nat) (v : hval) : Prop :=
  match v with
  | HRef l => (n <= l)%nat
  | _ => True
  end.

Definition cell_beyond (n : nat) (c : cell) : Prop :=
  Forall (beyond n) (children c).

Definition closed (n : nat) (h : store) : Prop :=
  forall l c, (n <= l)%nat -> h !! l = Some c -> cell_beyond n c.

(** A method keeps the first [n] objects of the store: run in a store that
    has them, it leaves them unchanged, and the objects beyond them still
    refer to none of them; [post] holds of the value it returns. *)
Definition keeps (n : nat) {A} (m : M A) (post : A -> Prop) : Prop :=
  forall h : store,
    (n <= length h)%nat -> closed n h ->
    (n <= length (m h).2)%nat /\
    take n (m h).2 = take n h /\
    closed n (m h).2 /\
    forall a, (m h).1 = Ok a -> post a.

(** A function of the store that only appends objects that refer to
    objects beyond the first [n], and returns a value beyond them. *)
Definition appends (n : nat) {A} (post : A -> Prop) (f : store -> A * store) : Prop :=
  forall h, (n <= length h)%nat ->
    post (f h).1 /\
    exists more, (f h).2 = (h ++ more)%list /\ Forall (cell_beyond n) more.

(** A chain of [d] different objects of the store, each denoting a tree of
    depth at most [d]. *)
Definition chain_of (h : store) (d : nat) : Prop :=
  exists ls : list loc,
    NoDup ls /\ length ls = d /\
    forall l, l ∈ ls ->
      (l < length h)%nat /\
      exists t, denotes h (HRef l) t /\ (depth t <= d)%nat.

(** What a store has after objects were appended to a store that holds
    [h]. *)
Definition holds (h h' : store) : Prop :=
  forall (l : loc) c, h !! l = Some c -> h' !! l = Some c.

Scheme denotes_min := Minimality for denotes Sort Prop
  with denotes_all_min := Minimality for denotes_all Sort Prop
  with denotes_props_min := Minimality for denotes_props Sort Prop.

(** A document in the store, for the examples: [{title: 'Foo', tags: ['a',
    null, 'b']}], the array at location 0 and the object at location 1. *)
Definition example_store : store :=
  [ CArr [HStr "a"; HNull; HStr "b"];
    CObj [("title", HStr "Foo"); ("tags", HRef 0%nat)] ].

Definition example_template : jsval :=
  VObj [("object",
         VObj [("name", VStr "/title");
               ("tags", VObj [("get", VStr "/tags"); ("filter", VObj [])])])].

End Store.

(** ** The script engine

    The interpreter that runs a script ([classes/script.js]) is known here
    through its tests and its specification only.  This module models it
    from the specification; it runs the Transformation evaluator above on
    the document, and takes the query and HTTP capabilities of the host as
    parameters. *)

Module Script.
Import Js.

(** *** Paths into the document *)

(** Modelled from the spec: the document is addressed by JSON-Pointer-style
    paths.  [get_path] reads the value at a path given by its keys; what is
    not there reads as [undefined]. *)
Fixpoint get_path (doc : jsval) (keys : list string) : jsval :=
  match keys with
  | [] => doc
  | key :: rest =>
      match doc with
      | VObj props => get_path (default VUndefined (assoc key props)) rest
      | VArr items =>
          match index_of_key key with
          | Some i => get_path (nth i items VUndefined) rest
          | None => VUndefined
          end
      | _ => VUndefined
      end
  end.

Fixpoint assoc_set (key : string) (x : jsval) (props : list (string * jsval))
  : list (string * jsval) :=
  match props with
  | [] => [(key, x)]
  | (k, y) :: rest =>
      if String.eqb key k then (k, x) :: rest
      else (k, y) :: assoc_set key x rest
  end.

(** [items[i] = x]; the indices before [i] that the array does not have
    read as [undefined]. *)
Fixpoint set_nth (i : nat) (x : jsval) (items : list jsval) : list jsval :=
  match i, items with
  | O, [] => [x]
  | O, _ :: rest => x :: rest
  | S i, [] => VUndefined :: set_nth i x []
  | S i, y :: rest => y :: set_nth i x rest
  end.

(** Modelled from the spec: the write of a value at a path of the document
    (the result of a query at [resultProperty], the counter of
    [increment]); the empty path replaces the whole document, an object on
    the way that is not there is created, and everything else is left as it
    is. *)
Fixpoint set_path (doc : jsval) (keys : list string) (x : jsval) : jsval :=
  match keys with
  | [] => x
  | key :: rest =>
      match doc with
      | VObj props =>
          VObj (assoc_set key
                  (set_path (default VUndefined (assoc key props)) rest x) props)
      | VArr items =>
          match index_of_key key with
          | Some i =>
              VArr (set_nth i (set_path (nth i items VUndefined) rest x) items)
          | None => doc
          end
      | _ => VObj [(key, set_path VUndefined rest x)]
      end
  end.



(** The keys a pointer names: the pointer cut at every [/], its escapes
    undone. *)
Definition keys_of_pointer (pointer : string) : result (list string) :=
  tokens <- JsonPointer.compilePointer pointer ;;
  Ok (List.map JsonPointer.untilde tokens).

(** *** Scripts *)

(** Modelled from the spec: an operand of a jump or an argument of a query
    is a literal, a path into the document, or a nested transformation. *)
Inductive operand : Type :=
| Literal (v : jsval)
| Path (pointer : string)
| Nested (template : jsval).

(** Modelled from the spec: the payload of [jump]; [left] and [right]
    default to [true], [operator] to [===]. *)
Record jump_step : Type := {
  to : string;
  left : operand;
  right : operand;
  operator : string;
}.

(** The shorthand [jump: "label"]. *)
Definition jump_to (label : string) : jump_step :=
  {| to := label; left := Literal (VBool true); right := Literal (VBool true);
     operator := "===" |}.

(** Modelled from the spec: the payload of [query]. *)
Record query_step : Type := {
  query : jsval;
  arguments : list (string * operand);
  resultProperty : option string;
  runInContext : bool;
}.

(** Modelled from the spec: the payload of [request]. *)
Record request_step : Type := {
  method : string;
  url : operand;
  headers : jsval;
  body : jsval;
  cookies : option string;
}.

(** Modelled from the spec: an operation step holds, each optional, a
    query, a request, a transformation (under [object] or [transform], or
    the Transformation operations written as keys of the step), an
    increment and a jump. *)
Record operation : Type := {
  op_query : option query_step;
  op_request : option request_step;
  op_transform : option jsval;
  op_increment : option string;
  op_jump : option jump_step;
}.

Definition no_operation : operation :=
  {| op_query := None; op_request := None; op_transform := None;
     op_increment := None; op_jump := None |}.

(** Modelled from the spec: a step is a label or an operation. *)
Inductive step : Type :=
| Label (name : string)
| Operation (op : operation).

(** Modelled from the spec: the script definition.  [schedule], [delay]
    and [runOnStartup] are about time and are not modelled. *)
Record definition : Type := {
  def_name : option string;
  def_steps : option (list step);
  def_maxSteps : option nat;
}.

(** Modelled from the spec: a compiled program, its steps with the table
    from label to step index and the step budget. *)
Record program : Type := {
  steps : list step;
  labels : gmap string nat;
  maxSteps : nat;
}.

(** The label table; [None] when a label is used twice. *)
Fixpoint collect_labels (steps : list step) (index : nat)
    (table : gmap string nat) : option (gmap string nat) :=
  match steps with
  | [] => Some table
  | Label name :: rest =>
      match table !! name with
      | Some _ => None
      | None => collect_labels rest (S index) (<[name := index]> table)
      end
  | Operation _ :: rest => collect_labels rest (S index) table
  end.

(** Modelled from the spec: [create(definition)] fails when [name] or
    [steps] is missing or a label is used twice; [maxSteps] defaults to
    1000. *)
Definition create (def : definition) : result program :=
  match def_name def, def_steps def with
  | Some _, Some steps =>
      match collect_labels steps 0 ∅ with
      | Some table =>
          Ok {| steps := steps; labels := table;
                maxSteps := default 1000%nat (def_maxSteps def) |}
      | None => Throw (Error "Duplicate label")
      end
  | None, _ => Throw (Error "Missing name")
  | _, None => Throw (Error "Missing steps")
  end.

(** *** Comparison *)

(** The number a value converts to, if any; a string converts when it
    spells a decimal integer. *)
Definition to_number (v : jsval) : option Z :=
  match v with
  | VNum n => Some n
  | VBool b => Some (if b then 1 else 0)
  | VNull => Some 0
  | VStr s => Z.of_int <$> NilZero.int_of_string s
  | VUndefined | VArr _ | VObj _ => None
  end.

(** [a === b] on primitives; an array or an object is equal to itself
    only, which two operands are not taken to denote. *)
Definition strict_equal (a b : jsval) : bool :=
  match a, b with
  | VUndefined, VUndefined | VNull, VNull => true
  | VBool x, VBool y => Bool.eqb x y
  | VNum x, VNum y => x =? y
  | VStr x, VStr y => String.eqb x y
  | _, _ => false
  end.

(** [a == b] on primitives. *)
Definition loose_equal (a b : jsval) : bool :=
  match a, b with
  | (VUndefined | VNull), (VUndefined | VNull) => true
  | (VUndefined | VNull), _ | _, (VUndefined | VNull) => false
  | (VArr _ | VObj _), _ | _, (VArr _ | VObj _) => false
  | VStr x, VStr y => String.eqb x y
  | _, _ =>
      match to_number a, to_number b with
      | Some x, Some y => x =? y
      | _, _ => false
      end
  end.

Definition less_than (or_equal : bool) (a b : jsval) : bool :=
  match a, b with
  | VStr x, VStr y => if or_equal then String.leb x y else String.ltb x y
  | _, _ =>
      match to_number a, to_number b with
      | Some x, Some y => if or_equal then x <=? y else x <? y
      | _, _ => false
      end
  end.

(** Modelled from the spec: the comparison of a jump, by the operator's
    name; [in] holds when the right operand is an array with the left one
    among its items; an operator that is not recognized compares false. *)
Definition compare (operator : string) (left right : jsval) : bool :=
  if String.eqb operator "===" then strict_equal left right
  else if String.eqb operator "==" then loose_equal left right
  else if String.eqb operator "!==" then negb (strict_equal left right)
  else if String.eqb operator "!=" then negb (loose_equal left right)
  else if String.eqb operator "<" then less_than false left right
  else if String.eqb operator ">" then less_than false right left
  else if String.eqb operator "<=" then less_than true left right
  else if String.eqb operator ">=" then less_than true right left
  else if String.eqb operator "in" then
    match right with
    | VArr items => existsb (strict_equal left) items
    | _ => false
    end
  else false.

(** The operators that hold of 1 and 2. *)
Definition hold_of_1_and_2 : list string := ["!="; "!=="; "<"; "<="].

Definition holds_of_1_and_2 (operator : string) : bool :=
  existsb (String.eqb operator) hold_of_1_and_2.

(** *** Execution *)

(** Modelled from the spec: the execution state of a run. *)
Record state : Type := {
  document : jsval;
  pc : nat;
  stepsExecuted : nat;
}.

(** Modelled from the spec: the errors a run ends with, beside those that
    a step throws. *)
Inductive failure : Type :=
| StepBudget
| Reentrancy
| Raised (e : error).

(** How a run settles: resolved with the final state, whose document is
    the output, or rejected. *)
Inductive outcome : Type :=
| Resolved (final : state)
| Rejected (why : failure).

Section Engine.
(** The libraries of the evaluator, and the two capabilities of the host:
    [query(descriptor, context, args)] and [request(...)], each with the
    result its promise settles with. *)
Context (E : Transformation.Externals).
Context {context : Type}.
Context (query_capability : jsval -> option context -> jsval -> result jsval).
Context (request_capability : jsval -> result jsval).

(** Modelled from the spec: the value of an operand on the document; a
    path reads as the [get] shorthand of the evaluator does. *)
Definition eval_operand (doc : jsval) (o : operand) : result jsval :=
  match o with
  | Literal v => Ok v
  | Path pointer => Transformation.transform_shorthand E pointer doc
  | Nested template => Transformation.transform E template doc
  end.

(** Modelled from the spec: where the result of a query goes: to
    [document.result] by default, to the path [resultProperty] otherwise,
    the empty path standing for the whole document. *)
Definition placement (resultProperty : option string) : result (list string) :=
  match resultProperty with
  | None => Ok ["result"]
  | Some pointer => keys_of_pointer pointer
  end.

Definition write_result (doc : jsval) (resultProperty : option string)
    (found : jsval) : result jsval :=
  keys <- placement resultProperty ;;
  Ok (set_path doc keys found).

(** Modelled from the spec: the [query] of a step. *)
Definition run_query (ctx : option context) (q : query_step) (doc : jsval)
  : result jsval :=
  args <- Transformation.mapM
            (fun '(name, o) => v <- eval_operand doc o ;; Ok (name, v))
            (arguments q) ;;
  found <- query_capability (query q)
             (if runInContext q then ctx else None) (VObj args) ;;
  write_result doc (resultProperty q) found.

(** Modelled from the spec: the [request] of a step; the response goes to
    [document.result]. *)
Definition run_request (r : request_step) (doc : jsval) : result jsval :=
  address <- eval_operand doc (url r) ;;
  jar <- match cookies r with
         | Some pointer => Transformation.transform_shorthand E pointer doc
         | None => Ok VUndefined
         end ;;
  response <- request_capability
                (VObj [("method", VStr (method r)); ("url", address);
                       ("headers", headers r); ("body", body r);
                       ("cookies", jar)]) ;;
  Ok (set_path doc ["result"] response).

(** Modelled from the spec: [increment] adds one to the number at the
    path, and writes 0 where there is none. *)
Definition run_increment (pointer : string) (doc : jsval) : result jsval :=
  keys <- keys_of_pointer pointer ;;
  let next :=
    match get_path doc keys with
    | VNum n => n + 1
    | _ => 0
    end in
  Ok (set_path doc keys (VNum next)).

(** Modelled from the spec: the index a label resolves to; [end] without a
    label of that name is the address after the last step. *)
Definition resolve (p : program) (label : string) : result nat :=
  match labels p !! label with
  | Some index => Ok index
  | None =>
      if String.eqb label "end" then Ok (length (steps p))
      else Throw (Error ("Unknown label " ++ label))
  end.

(** Modelled from the spec: the program counter after the [jump] of a step
    at [pc]. *)
Definition run_jump (p : program) (j : jump_step) (doc : jsval) (pc : nat)
  : result nat :=
  l <- eval_operand doc (left j) ;;
  r <- eval_operand doc (right j) ;;
  if compare (operator j) l r then resolve p (to j) else Ok (S pc).

Definition optionally {A} (o : option A) (f : A -> jsval -> result jsval)
    (doc : jsval) : result jsval :=
  match o with
  | Some a => f a doc
  | None => Ok doc
  end.

(** Modelled from the spec: one step.  A label moves on; an operation
    applies its query, request, transformation, increment and jump, in
    that order, each when present. *)
Definition exec_step (p : program) (ctx : option context) (st : step)
    (doc : jsval) (pc : nat) : result (jsval * nat) :=
  match st with
  | Label _ => Ok (doc, S pc)
  | Operation op =>
      doc <- optionally (op_query op) (run_query ctx) doc ;;
      doc <- optionally (op_request op) run_request doc ;;
      doc <- optionally (op_transform op) (Transformation.transform E) doc ;;
      doc <- optionally (op_increment op) run_increment doc ;;
      pc <- match op_jump op with
            | Some j => run_jump p j doc pc
            | None => Ok (S pc)
            end ;;
      Ok (doc, pc)
  end.

(** Modelled from the spec: the loop of the engine.  It fetches the step
    at the program counter, runs it, counts it, and fails when the count
    exceeds [maxSteps]; it ends when the program counter is past the last
    step.  [fuel] bounds the number of turns; [None] is a loop cut short
    by it. *)
Fixpoint loop (p : program) (ctx : option context) (fuel : nat) (s : state)
  : option outcome :=
  match fuel with
  | O => None
  | S fuel =>
      match steps p !! pc s with
      | None => Some (Resolved s)
      | Some st =>
          match exec_step p ctx st (document s) (pc s) with
          | Throw e => Some (Rejected (Raised e))
          | Ok (doc, next) =>
              let executed := S (stepsExecuted s) in
              if (maxSteps p <? executed)%nat then Some (Rejected StepBudget)
              else loop p ctx fuel
                     {| document := doc; pc := next;
                        stepsExecuted := executed |}
          end
      end
  end.

(** The loop of the engine without its step budget, for [turns] turns;
    [None] means that the program is still running after them, with
    [turns] steps more processed. *)
Fixpoint unbounded (p : program) (ctx : option context) (turns : nat)
    (s : state) : option outcome :=
  match turns with
  | O => None
  | S turns =>
      match steps p !! pc s with
      | None => Some (Resolved s)
      | Some st =>
          match exec_step p ctx st (document s) (pc s) with
          | Throw e => Some (Rejected (Raised e))
          | Ok (doc, next) =>
              unbounded p ctx turns
                {| document := doc; pc := next;
                   stepsExecuted := S (stepsExecuted s) |}
          end
      end
  end.

Definition initial (input : option jsval) : state :=
  {| document := default (VObj []) input; pc := 0; stepsExecuted := 0 |}.

(** The run of a program on an input, with turns to spare for the step
    budget. *)
Definition execute (p : program) (ctx : option context)
    (input : option jsval) : option outcome :=
  loop p ctx (S (maxSteps p)) (initial input).

(** Modelled from the spec: a Program instance, the compiled program with
    the context it was created with and its [busy] flag. *)
Record instance : Type := {
  compiled : program;
  ctx_of : option context;
  busy : bool;
}.

Definition clone (i : instance) : instance :=
  {| compiled := compiled i; ctx_of := ctx_of i; busy := false |}.

Definition set_busy (b : bool) (i : instance) : instance :=
  {| compiled := compiled i; ctx_of := ctx_of i; busy := b |}.

(** Modelled from the spec: the entry of [run()]: it throws at once on an
    instance that is busy, and sets the flag otherwise. *)
Definition start (i : instance) : result instance :=
  if busy i then Throw (Error "Script is already running")
  else Ok (set_busy true i).

(** Modelled from the spec: the exit of [run()]: however the execution
    ends, the flag is cleared before the call settles. *)
Definition settle (i : instance) (input : option jsval)
  : instance * option outcome :=
  (set_busy false i, execute (compiled i) (ctx_of i) input).

(** [run()] from its entry to its settling. *)
Definition run (i : instance) (input : option jsval)
  : instance * option outcome :=
  match start i with
  | Ok entered => settle entered input
  | Throw _ => (i, Some (Rejected Reentrancy))
  end.

(** *** A run in flight

    Modelled from the spec: a run is suspended between its steps (at the
    delay, and at the query and the request of a step), and there the host
    can call [run()] on the same Program again.  A Program with a run in
    flight is the instance with the state of that run; it reacts to two
    events: a call of [run()], and the run in flight going on by one
    step. *)

(** Modelled from the spec: one turn of the loop of the engine, as [loop]
    has it: the state that the run goes on with, or the outcome that it
    settles with. *)
Definition turn (p : program) (ctx : option context) (s : state)
  : state + outcome :=
  match steps p !! pc s with
  | None => inr (Resolved s)
  | Some st =>
      match exec_step p ctx st (document s) (pc s) with
      | Throw e => inr (Rejected (Raised e))
      | Ok (doc, next) =>
          let executed := S (stepsExecuted s) in
          if (maxSteps p <? executed)%nat then inr (Rejected StepBudget)
          else inl {| document := doc; pc := next;
                      stepsExecuted := executed |}
      end
  end.

(** Modelled from the spec: the Program instance, which owns the [busy]
    flag, with the state of the run in flight, if there is one. *)
Record machine : Type := {
  inst : instance;
  in_flight : option state;
}.

Definition idle (i : instance) : machine :=
  {| inst := i; in_flight := None |}.

Inductive event : Type :=
| Call (input : option jsval)
| Turn.

(** What the host sees of an event: the call was taken or threw at once;
    the run went on, or settled with an outcome; or there was no run to
    go on. *)
Inductive answer : Type :=
| Started
| Refused
| Went
| Settled (o : outcome)
| Nothing.

(** Modelled from the spec: a call goes through the entry of [run()]: it
    throws at once on a busy instance and leaves everything as it is, and
    otherwise sets the flag and starts a run on the input.  A turn of the
    run in flight either goes on or settles, and settling clears the
    flag. *)
Definition react (m : machine) (e : event) : machine * answer :=
  match e with
  | Call input =>
      match start (inst m) with
      | Ok entered =>
          ({| inst := entered; in_flight := Some (initial input) |}, Started)
      | Throw _ => (m, Refused)
      end
  | Turn =>
      match in_flight m with
      | None => (m, Nothing)
      | Some s =>
          match turn (compiled (inst m)) (ctx_of (inst m)) s with
          | inl next => ({| inst := inst m; in_flight := Some next |}, Went)
          | inr o =>
              ({| inst := set_busy false (inst m); in_flight := None |},
               Settled o)
          end
      end
  end.

(** The events up to the one at which the run in flight settles: the
    outcome, if it comes to that, the answers to the calls made on the
    way, and the machine that is left. *)
Fixpoint until_settled (m : machine) (events : list event)
  : option outcome * list answer * machine :=
  match events with
  | [] => (None, [], m)
  | e :: rest =>
      match react m e with
      | (m', Settled o) => (Some o, [], m')
      | (m', a) =>
          let '(o, answers, final) := until_settled m' rest in
          (o, match e with Call _ => a :: answers | Turn => answers end, final)
      end
  end.

Definition turns (events : list event) : nat :=
  List.length (List.filter (fun e => match e with Turn => true | Call _ => false end)
                 events).

End Engine.

(** *** The scripts of the tests *)

Definition transform_step (template : jsval) : step :=
  Operation {| op_query := None; op_request := None;
               op_transform := Some template;
               op_increment := None; op_jump := None |}.

Definition jump_step_of (j : jump_step) : step :=
  Operation {| op_query := None; op_request := None; op_transform := None;
               op_increment := None; op_jump := Some j |}.

Definition increment_step (pointer : string) : step :=
  Operation {| op_query := None; op_request := None; op_transform := None;
               op_increment := Some pointer; op_jump := None |}.

Definition query_step_of (q : query_step) : step :=
  Operation {| op_query := Some q; op_request := None; op_transform := None;
               op_increment := None; op_jump := None |}.

Definition script (steps : list step) (budget : option nat) : definition :=
  {| def_name := Some "Testscript"; def_steps := Some steps;
     def_maxSteps := budget |}.

(** The script of the test of the conditional jump, for an operator. *)
Definition conditional_jump (operator : string) : list step :=
  [ jump_step_of {| to := "last"; left := Literal (VNum 1);
                    right := Literal (VNum 2); operator := operator |};
    transform_step (VObj [("object", VObj [("foo", VObj [("static", VStr "bar")])])]);
    Label "last";
    transform_step
      (VObj [("object", VObj [("foo", VStr "/foo");
                              ("bar", VObj [("static", VStr "baz")])])]) ].

(** The scripts of the tests of the step budget: the endless loop, and the
    counting loop. *)
Definition endless_loop : list step :=
  [ Label "start"; jump_step_of (jump_to "start") ].

Definition counting_loop : list step :=
  [ Label "start";
    increment_step "/i";
    jump_step_of {| to := "end"; left := Nested (VObj [("get", VStr "/i")]);
                    right := Nested (VObj [("get", VStr "/n")]);
                    operator := ">=" |};
    jump_step_of (jump_to "start");
    Label "end" ].

(** Capabilities for the examples: no context, a query that answers with
    the three items of the tests, no HTTP. *)
Definition example_query (descriptor : jsval) (ctx : option unit)
    (args : jsval) : result jsval :=
  Ok (VObj [("listItem", VArr [VObj [("id", VNum 1)]; VObj [("id", VNum 2)];
                               VObj [("id", VNum 3)]])]).

Definition example_request (request : jsval) : result jsval :=
  Throw (Error "no network").

Definition example_execute (p : program) (input : option jsval)
  : option outcome :=
  execute Transformation.example_externals example_query example_request
    p None input.

(** A script of the tests, created and run on an input. *)
Definition example_run (steps : list step) (budget : option nat)
    (input : option jsval) : option outcome :=
  match create (script steps budget) with
  | Ok p => example_execute p input
  | Throw e => Some (Rejected (Raised e))
  end.

Definition counting_program (budget : nat) : program :=
  {| steps := counting_loop;
     labels := default ∅ (collect_labels counting_loop 0 ∅);
     maxSteps := budget |}.

Definition counted : state :=
  {| document := VObj [("n", VNum 500); ("i", VNum 500)];
     pc := 5; stepsExecuted := 2004 |}.

Definition example_instance (steps : list step) : instance :=
  {| compiled := {| steps := steps;
                    labels := default ∅ (collect_labels steps 0 ∅);
                    maxSteps := 1000 |};
     ctx_of := @None unit; busy := false |}.




Definition output_of (o : option outcome) : option jsval :=
  match o with
  | Some (Resolved final) => Some (document final)
  | _ => None
  end.

End Script.

(** ** The difference of two objects

    The operations [changed] and [change] are named by the specification
    and run by the tests, and their code is not in
    [classes/transformation.js].  This module models them from the
    specification and the two tests.  An object is a finite map from keys
    to values; the values are of any type whose equality is the deep
    equality of the specification, with a value [null]. *)

Module Diff.

Section Diff.
Context {V : Type} `{EqDecision V} (null : V).

(** A key that an object does not have reads as [null]. *)
Definition at_key (o : gmap string V) (key : string) : V :=
  default null (o !! key).

(** Modelled from the spec: [changed({left, right})], the shallow
    difference: the keys whose values in [left] and [right] are not deeply
    equal, each with its value in [right]; a key that [right] no longer
    has is reported with [null]; a key whose value is the same is left
    out.  (In the test a key that holds [null] on one side and is missing
    on the other is left out: missing reads as [null].) *)
Definition changed_at (l r : option V) : option V :=
  if decide (default null l = default null r) then None
  else Some (default null r).

Definition changed (left right : gmap string V) : gmap string V :=
  merge changed_at left right.

(** Modelled from the spec: [change({target, changes})] puts the value of
    every key of [changes] under that key of [target], whole; a key
    reported with [null] is removed, as the test has it. *)
Definition change_at (t c : option V) : option V :=
  match c with
  | Some v => if decide (v = null) then None else Some v
  | None => t
  end.

Definition change (target changes : gmap string V) : gmap string V :=
  merge change_at target changes.

(** No key of the object holds [null]. *)
Definition no_null (o : gmap string V) : Prop :=
  forall key, o !! key <> Some null.

End Diff.

(** The objects of the two tests. *)
Import Js.

Definition obj (props : list (string * jsval)) : gmap string jsval :=
  list_to_map props.

Definition foo (s : string) : jsval := VObj [("foo", VStr s)].

Definition test_left : gmap string jsval :=
  obj [("a", VNum 1); ("b", VStr "test"); ("c", foo "bar"); ("d", foo "bar")].

Definition test_right : gmap string jsval :=
  obj [("a", VNum 1); ("e", VStr "test"); ("c", foo "baz"); ("d", foo "bar")].

Definition test_changes : gmap string jsval :=
  obj [("b", VNull); ("c", foo "baz"); ("e", VStr "test")].

End Diff.

(** ** The method names of a query ([classes/query.js])

    A query addresses a model by a method name such as [listUser] or
    [deleteQueueItem]: an operation in lower case, which can be left out,
    followed by the name of the model.  The parts of [Query] that read such
    a name are embedded here, with the naming of the scripts of
    [engines/script.js] and the model table of [classes/models.js] that
    they meet. *)

Module Query.
Import Js.

Definition is_lower (c : ascii) : bool :=
  let n := nat_of_ascii c in ((97 <=? n) && (n <=? 122))%nat.

Definition is_upper (c : ascii) : bool :=
  let n := nat_of_ascii c in ((65 <=? n) && (n <=? 90))%nat.

Definition is_digit (c : ascii) : bool :=
  let n := nat_of_ascii c in ((48 <=? n) && (n <=? 57))%nat.

(** The class [\w]: a letter, a digit or the underscore. *)
Definition is_word (c : ascii) : bool :=
  is_lower c || is_upper c || is_digit c || (nat_of_ascii c =? 95)%nat.

Fixpoint all_chars (p : ascii -> bool) (s : string) : bool :=
  match s with
  | EmptyString => true
  | String c rest => p c && all_chars p rest
  end.

(** The longest prefix of characters of a class, and what follows it. *)
Fixpoint span (p : ascii -> bool) (s : string) : string * string :=
  match s with
  | EmptyString => (EmptyString, EmptyString)
  | String c rest =>
      if p c then let '(taken, others) := span p rest in (String c taken, others)
      else (EmptyString, s)
  end.

(** [name.match(pattern)] with the pattern of [getOperation], [getModel],
    [callMethod] and [executeMethod]: anchored at both ends, an optional
    group [[a-z]+] and a group of one [[A-Z]] followed by [[\w]*].  The
    result holds the two groups of the match, the first one empty where it
    takes no part, or is [None] for [null].  The first group is greedy and
    what follows it has to be a capital, so the match takes the lower-case
    letters that the name starts with, all of them. *)
Definition match_name (name : string) : option (string * string) :=
  let '(operation, model) := span is_lower name in
  match model with
  | String c rest =>
      if is_upper c && all_chars is_word rest then Some (operation, model)
      else None
  | EmptyString => None
  end.

(** What the pattern asks of a name, read as a description: the name is
    [operation ++ model] with [operation] in lower case and [model] a
    capital followed by word characters. *)
Definition splits (name operation model : string) : Prop :=
  name = operation ++ model /\
  all_chars is_lower operation = true /\
  exists c rest,
    model = String c rest /\ is_upper c = true /\
    all_chars is_word rest = true.

(** [parts[1] ? parts[1] : 'read'] *)
Definition or_read (operation : string) : string :=
  if String.eqb operation "" then "read" else operation.

Definition getOperation (name : string) : string :=
  match match_name name with
  | None => "read"
  | Some (operation, _) =>
      let operation := or_read operation in
      if String.eqb operation "delete" then "remove" else operation
  end.

(** The operation that [executeMethod] hands to [checkFieldPermissions]:
    [undefined], here [None], for a name that does not match. *)
Definition field_operation (name : string) : option string :=
  match match_name name with
  | Some (operation, _) => Some (or_read operation)
  | None => None
  end.

(** [Models.get(name)] on the table of the model instances, for the names
    that [getModel] asks for: they start with a capital, which the name of
    no inherited property does. *)
Definition Models_get {A} (instances : list (string * A)) (name : string)
  : result A :=
  match assoc name instances with
  | Some instance => Ok instance
  | None => Throw (Error ("Model " ++ Transformation.quoted name
                          ++ " does not exists"))
  end.

Definition getModel {A} (instances : list (string * A)) (name : string)
  : result A :=
  match match_name name with
  | Some (_, model) => Models_get instances model
  | None => Throw (Error ("Model " ++ Transformation.quoted name
                          ++ " does not exists"))
  end.

(** The scripts of a model ([ScriptEngine], the constructor): one for each
    operation that the schema of the model gives an array of steps for,
    named after the operation and the model. *)
Definition operations : list string :=
  ["list"; "create"; "read"; "update"; "remove"; "count"].

Definition operationName (operation : string) : string :=
  if String.eqb operation "remove" then "delete" else operation.

Definition script_name (operation : string) (modelName : jsval) : string :=
  operationName operation ++ to_string modelName.

Fixpoint scripts_for (modelName jsonSchema : jsval) (names : list string)
  : result (list (string * jsval)) :=
  match names with
  | [] => Ok []
  | operation :: rest =>
      steps <- get_prop jsonSchema operation ;;
      scripts <- scripts_for modelName jsonSchema rest ;;
      if is_array steps
      then Ok ((operation,
                VObj [("name", VStr (script_name operation modelName));
                      ("steps", steps)]) :: scripts)
      else Ok scripts
  end.

Definition script_definitions (modelName jsonSchema : jsval)
  : result (list (string * jsval)) :=
  scripts_for modelName jsonSchema operations.

(** *** The check of the fields ([checkFieldPermissions])

    [context.access(models, model, operation, {id}, field)] is the check
    of the host; with all but the field fixed by the call it is a function
    of the field name that resolves to a truthy or falsy value, or
    rejects. *)
Definition access_check : Type := string -> result bool.

(** How the check settles: the promise resolves, or rejects with
    [HttpError(403, 'Permission denied', {errors})], or rejects with what
    the check of the host rejects with. *)
Inductive verdict : Type :=
| Passed
| Denied (errors : list string)
| Rejected (e : error).

(** The reducer of [checkFieldPermissions] over the names that
    [Bluebird.reduce] calls it on, with the accumulator [access] and the
    list [errors] that it pushes to. *)
Fixpoint reduce_fields (access_of : access_check) (fields : list string)
    (access : jsval) (errors : list string) : result (jsval * list string) :=
  match fields with
  | [] => Ok (access, errors)
  | field :: rest =>
      fieldAccess <- access_of field ;;
      reduce_fields access_of rest
        (if fieldAccess then access else VBool false)
        (if fieldAccess then errors
         else (errors ++ [("Permission denied on field " ++ field)%string])%list)
  end.

(** [checkFieldPermissions(model, id, fieldNames, operation)].
    [Bluebird.reduce] is called without an initial value: as with
    [Array.prototype.reduce] the first item is the accumulator that the
    reducer starts with, on the second item, and on no items the result is
    [undefined]. *)
Definition checkFieldPermissions (context : option access_check)
    (fieldNames : list string) : verdict :=
  match context with
  | None => Passed
  | Some access_of =>
      let reduced :=
        match fieldNames with
        | [] => Ok (VUndefined, [])
        | first :: rest => reduce_fields access_of rest (VStr first) []
        end in
      match reduced with
      | Ok (access, errors) => if truthy access then Passed else Denied errors
      | Throw e => Rejected e
      end
  end.

End Query.

(** ** The fields of the references plugin ([plugins/references.js])

    A property of a model that [references] another model and names a
    [reverse] field gives that other model a field: the list of the
    objects that refer to it.  [getFields] collects these fields from the
    schemas of the models, and [getValue] turns a request for one into a
    [list] query. *)

Module References.
Import Js.

(** What [getFields] stores in [this.fieldData] under the name of a field:
    [{model, field}]. *)
Record field_data : Type := {
  model : string;
  field : string;
}.

(** [object[key] = value] on a table of own properties. *)
Fixpoint assign {A} (key : string) (value : A) (table : list (string * A))
  : list (string * A) :=
  match table with
  | [] => [(key, value)]
  | (k, v) :: rest =>
      if String.eqb key k then (k, value) :: rest
      else (k, v) :: assign key value rest
  end.

(** The state that [getFields] builds: the array [fields] and the table
    [this.fieldData]. *)
Definition collected : Type := list string * list (string * field_data).

(** The body of the inner loop, for the property [property] of the model
    [modelName] with the schema [schema]. *)
Definition collect_property (modelName property : string) (schema : jsval)
    (state : collected) : result collected :=
  reverse <- get_prop schema "reverse" ;;
  match reverse with
  | VStr reverse =>
      references <- get_prop schema "references" ;;
      match references with
      | VStr references =>
          let name := references ++ "." ++ reverse in
          Ok ((state.1 ++ [name])%list,
              assign name {| model := modelName; field := property |} state.2)
      | _ => Ok state
      end
  | _ => Ok state
  end.

Fixpoint collect_properties (modelName : string)
    (properties : list (string * jsval)) (state : collected) : result collected :=
  match properties with
  | [] => Ok state
  | (property, schema) :: rest =>
      state <- collect_property modelName property schema state ;;
      collect_properties modelName rest state
  end.

(** The body of the outer loop, for the model [modelName]. *)
Definition collect_model (modelName : string) (modelData : jsval)
    (state : collected) : result collected :=
  jsonSchema <- get_prop modelData "jsonSchema" ;;
  properties <- get_prop jsonSchema "properties" ;;
  entries <- object_entries properties ;;
  collect_properties modelName entries state.

Fixpoint collect_models (models : list (string * jsval)) (state : collected)
  : result collected :=
  match models with
  | [] => Ok state
  | (modelName, modelData) :: rest =>
      state <- collect_model modelName modelData state ;;
      collect_models rest state
  end.

Definition getFields (models : jsval) : result collected :=
  entries <- object_entries models ;;
  collect_models entries ([], []).

(** A property schema that gives a field the name [name]: it has the
    strings [references] and [reverse]. *)
Definition qualifies (schema : jsval) (name : string) : Prop :=
  exists references reverse,
    get_prop schema "references" = Ok (VStr references) /\
    get_prop schema "reverse" = Ok (VStr reverse) /\
    name = references ++ "." ++ reverse.

(** The property [data.(field)] of the model [data.(model)], one of the
    models [entries], gives a field the name [name]. *)
Definition gives_among (entries : list (string * jsval)) (data : field_data)
    (name : string) : Prop :=
  exists modelData jsonSchema properties schemas schema,
    In (data.(model), modelData) entries /\
    get_prop modelData "jsonSchema" = Ok jsonSchema /\
    get_prop jsonSchema "properties" = Ok properties /\
    object_entries properties = Ok schemas /\
    In (data.(field), schema) schemas /\
    qualifies schema name.

Definition gives (models : jsval) (data : field_data) (name : string) : Prop :=
  exists entries,
    object_entries models = Ok entries /\ gives_among entries data name.

(** The table has data for the names of the array, and for no other; the
    data under a name satisfy [P]. *)
Definition agree (P : field_data -> string -> Prop) (state : collected) : Prop :=
  (forall name, In name state.1 <-> exists data, assoc name state.2 = Some data) /\
  (forall name data, assoc name state.2 = Some data -> P data name).

End References.

(** ** Properties of the values *)

Module JsProps.
Import Js.

(** Induction over a value and, in an array or an object, over each of its
    components. *)
Lemma jsval_induction (P : jsval -> Prop) :
  P VUndefined -> P VNull -> (forall b, P (VBool b)) -> (forall n, P (VNum n)) ->
  (forall s, P (VStr s)) ->
  (forall items, Forall P items -> P (VArr items)) ->
  (forall props, Forall (fun p => P p.2) props -> P (VObj props)) ->
  forall v, P v.
Proof.
  intros Hundef Hnull Hbool Hnum Hstr Harr Hobj.
  fix IH 1. intros [| |b|n|s|items|props].
  - exact Hundef.
  - exact Hnull.
  - apply Hbool.
  - apply Hnum.
  - apply Hstr.
  - apply Harr. revert items. fix IHitems 1. intros [|x rest].
    + constructor.
    + constructor; [apply IH|apply IHitems].
  - apply Hobj. revert props. fix IHprops 1. intros [|[k x] rest].
    + constructor.
    + constructor; [apply IH|apply IHprops].
Qed.

Lemma size_item (x : jsval) (items : list jsval) :
  In x items -> (size x < size (VArr items))%nat.
Proof.
  cbn [size]. induction items as [|y rest IH]; intros Hin; [destruct Hin|].
  destruct Hin as [->|Hin]; [lia|]. specialize (IH Hin). lia.
Qed.

Lemma size_prop (k : string) (x : jsval) (props : list (string * jsval)) :
  In (k, x) props -> (size x < size (VObj props))%nat.
Proof.
  cbn [size]. induction props as [|[k' y] rest IH]; intros Hin; [destruct Hin|].
  destruct Hin as [Heq|Hin]; [inversion Heq; subst; lia|].
  specialize (IH Hin). lia.
Qed.

(** In a well-formed object a property is read by its key, wherever it is
    in the list. *)
Lemma assoc_wf (k : string) (x : jsval) (props : list (string * jsval)) :
  wf_value (VObj props) -> In (k, x) props -> assoc k props = Some x.
Proof.
  cbn [wf_value]. intros [Hkeys _].
  induction props as [|[k' y] rest IH]; intros Hin; [destruct Hin|].
  cbn [List.map fst] in Hkeys. apply NoDup_cons in Hkeys as [Hfirst Hrest].
  cbn [assoc]. destruct Hin as [Heq|Hin].
  - inversion Heq; subst. now rewrite String.eqb_refl.
  - destruct (String.eqb_spec k k') as [->|_]; [|now apply IH].
    exfalso. apply Hfirst, list_elem_of_In.
    change k' with (fst (k', x)). now apply in_map.
Qed.

End JsProps.

(** ** Properties of the pointers *)

Module PointerProps.
Import Js JsonPointer.

Lemma split_on_cons (sep : ascii) (s : string) :
  exists token tokens, split_on sep s = token :: tokens.
Proof.
  induction s as [|c s (token & tokens & IH)]; cbn [split_on].
  - now exists "", [].
  - rewrite IH. destruct (Ascii.eqb c sep); eauto.
Qed.

Lemma escape_without_slash (token : string) : without "/" (escape token) = true.
Proof.
  induction token as [|c token IH]; [reflexivity|]. cbn [escape].
  destruct (Ascii.eqb_spec c "~") as [->|_]; [exact IH|].
  destruct (Ascii.eqb_spec c "/") as [->|Hc]; [exact IH|].
  cbn [without]. rewrite IH.
  destruct (Ascii.eqb_spec c "/"); [contradiction|reflexivity].
Qed.

Lemma split_on_prefix (sep : ascii) (prefix s : string) :
  without sep prefix = true ->
  split_on sep (prefix ++ s) =
  match split_on sep s with
  | token :: tokens => (prefix ++ token)%string :: tokens
  | [] => [prefix]
  end.
Proof.
  intros Hprefix. induction prefix as [|c prefix IH].
  - change ("" ++ s)%string with s.
    destruct (split_on_cons sep s) as (token & tokens & ->). reflexivity.
  - cbn [without] in Hprefix. apply andb_prop in Hprefix as [Hc Hprefix].
    change (String c prefix ++ s)%string with (String c (prefix ++ s)).
    cbn [split_on]. rewrite (IH Hprefix).
    destruct (split_on_cons sep s) as (token & tokens & ->).
    destruct (Ascii.eqb c sep); [discriminate|reflexivity].
Qed.

Lemma append_empty (s : string) : (s ++ "")%string = s.
Proof.
  induction s as [|c s IH]; [reflexivity|].
  change (String c s ++ "")%string with (String c (s ++ "")). now rewrite IH.
Qed.

(** The package cuts the text of a pointer into the escaped tokens. *)
Lemma compilePointer_pointer_of (tokens : list string) :
  compilePointer (pointer_of tokens) = Ok (List.map escape tokens).
Proof.
  assert (Hsplit : split_on "/" (pointer_of tokens)
                   = "" :: List.map escape tokens).
  { induction tokens as [|token tokens IH]; [reflexivity|].
    cbn [pointer_of split_on List.map].
    rewrite (split_on_prefix "/" (escape token) (pointer_of tokens)
               (escape_without_slash token)), IH.
    now rewrite append_empty. }
  unfold compilePointer. now rewrite Hsplit.
Qed.

Lemma untilde_other (c : ascii) (s : string) :
  c <> "~"%char -> untilde (String c s) = String c (untilde s).
Proof.
  intros Hc.
  destruct c as [[|] [|] [|] [|] [|] [|] [|] [|]];
    try reflexivity; now destruct Hc.
Qed.

(** The package reads back the token that was escaped. *)
Lemma untilde_escape (token : string) : untilde (escape token) = token.
Proof.
  induction token as [|c token IH]; [reflexivity|]. cbn [escape].
  destruct (Ascii.eqb_spec c "~") as [->|Htilde].
  - cbn [untilde]. now rewrite IH.
  - destruct (Ascii.eqb_spec c "/") as [->|Hslash].
    + cbn [untilde]. now rewrite IH.
    + rewrite (untilde_other c _ Htilde). now rewrite IH.
Qed.

Lemma member_typeof (doc : jsval) (token : string) (found : jsval) :
  member doc token = Some found -> typeof doc = "object".
Proof. destruct doc; cbn [member]; try discriminate; reflexivity. Qed.

Section Package.
Context (read : jsval -> string -> result jsval).
Hypothesis Hread : reads_members read.

(** Along a path that addresses a value the package finds it. *)
Lemma walk_addressed (doc found : jsval) (tokens : list string) :
  addressed doc tokens = Some found ->
  walk_with read doc (List.map escape tokens) = Ok found.
Proof.
  revert doc. induction tokens as [|token rest IH]; intros doc; cbn [addressed].
  - now intros [= <-].
  - destruct (member doc token) as [next|] eqn:Hmember; [|discriminate].
    intros Hrest. cbn [List.map walk_with]. rewrite untilde_escape.
    rewrite (proj1 Hread _ _ _ Hmember). cbn [bind].
    destruct rest as [|token' rest]; [cbn in *; congruence|].
    cbn [List.map].
    assert (Htype : typeof next = "object").
    { cbn [addressed] in Hrest.
      destruct (member next token') eqn:Hnext; [|discriminate].
      now apply member_typeof in Hnext. }
    rewrite Htype, String.eqb_refl.
    now apply IH.
Qed.

(** Along a path that comes to [null] with a token still to read the
    package throws. *)
Lemma walk_into_null (doc : jsval) (before : list string) (token : string)
    (rest : list string) :
  addressed doc before = Some VNull ->
  exists e,
    walk_with read doc (List.map escape (before ++ token :: rest)) = Throw e.
Proof.
  revert doc. induction before as [|first before IH]; intros doc;
    cbn [addressed].
  - intros [= ->]. cbn [app List.map walk_with]. rewrite untilde_escape.
    destruct (proj2 Hread token) as [e He]. exists e. now rewrite He.
  - destruct (member doc first) as [next|] eqn:Hmember; [|discriminate].
    intros Hrest. cbn [app List.map walk_with]. rewrite untilde_escape.
    rewrite (proj1 Hread _ _ _ Hmember). cbn [bind].
    destruct (IH next Hrest) as [e He].
    assert (Htype : typeof next = "object").
    { destruct before as [|second before]; cbn [addressed] in Hrest.
      - now injection Hrest as ->.
      - destruct (member next second) eqn:Hnext; [|discriminate].
        now apply member_typeof in Hnext. }
    rewrite Htype, String.eqb_refl.
    destruct (List.map escape (before ++ token :: rest)) as [|x xs] eqn:Hmap.
    + destruct before; discriminate Hmap.
    + exists e. exact He.
Qed.

End Package.

(** The read of the examples is a read of the members. *)
Lemma get_prop_reads_members : reads_members get_prop.
Proof.
  split.
  - intros doc token found. destruct doc; cbn [member get_prop];
      try discriminate.
    + destruct (index_of_key token) as [i|] eqn:Hindex; [|discriminate].
      intros Hitem.
      destruct (String.eqb_spec token "length") as [->|_];
        [discriminate Hindex|].
      now rewrite (nth_error_nth _ _ VUndefined Hitem).
    + now intros ->.
  - intros token. eexists. reflexivity.
Qed.

End PointerProps.

(** ** Properties of the Transformation evaluator *)

Module TransformationProps.
Import Js Transformation.

Section Loop.
Context (E : Externals).

Lemma transform_object (props : list (string * jsval)) (value : jsval) :
  transform E (VObj props) value =
  if nullish value then Ok VNull else chain E props (cloneDeep value).
Proof.
  cbn [transform]. destruct (nullish value); [reflexivity|].
  generalize (cloneDeep value) as output.
  induction props as [|[key options] rest IH]; intros output; cbn [chain].
  - reflexivity.
  - destruct (apply_key E (transform E) key output options) as [out|e];
      [|reflexivity].
    destruct (nullish out); [reflexivity|apply IH].
Qed.

(** The loop over [before ++ after] is the loop over [before] followed,
    when a value is left, by the loop over [after]. *)
Lemma chain_app (before after : list (string * jsval)) (output : jsval) :
  nullish output = false ->
  chain E (before ++ after) output =
  match chain E before output with
  | Ok v => if nullish v then Ok VNull else chain E after v
  | Throw e => Throw e
  end.
Proof.
  revert output.
  induction before as [|[key options] rest IH]; intros output Hout; cbn.
  - now rewrite Hout.
  - destruct (apply_key E (transform E) key output options) as [out|e];
      [|reflexivity].
    destruct (nullish out) eqn:Hnull; [reflexivity|].
    now apply IH.
Qed.

Lemma chain_reaches (before after : list (string * jsval)) (value v : jsval) :
  reaches E before value v ->
  transform E (VObj (before ++ after)) value = chain E after v.
Proof.
  intros (Hvalue & Hchain & Hv).
  rewrite transform_object, Hvalue.
  rewrite chain_app by exact Hvalue.
  now rewrite Hchain, Hv.
Qed.

Lemma call_method_None (sub : jsval -> jsval -> result jsval) (key : string)
    (value options : jsval) :
  call_method E sub key value options = None <-> is_method key = false.
Proof.
  unfold call_method, is_method, method_names. cbn [existsb].
  repeat match goal with
         | |- context [String.eqb key ?name] =>
             destruct (String.eqb key name);
             [cbn; split; intro; discriminate|]
         end.
  cbn. split; reflexivity.
Qed.

Lemma apply_key_unknown (key : string) (value options : jsval) :
  is_method key = false ->
  apply_key E (transform E) key value options =
  Throw (Error ("Unknown function " ++ key)).
Proof.
  intros Hkey. unfold apply_key.
  now rewrite (proj2 (call_method_None (transform E) key value options) Hkey).
Qed.

End Loop.

(** C4.  Absence propagates: when the input is [null] or [undefined], or
    the method of some key returns [null] or [undefined], [transform]
    returns [null] at once, whatever the keys that follow are (they are not
    run, nor even looked up). *)
Theorem transform_absent_is_null (E : Externals) (template value : jsval) :
  absent E template value ->
  transform E template value = Ok VNull.
Proof.
  intros [t x Hnull | before key options after x v r Hreach Hcall Hr].
  - destruct t; cbn [transform]; now rewrite Hnull.
  - rewrite (chain_reaches E before ((key, options) :: after) x v Hreach).
    cbn [chain]. now rewrite Hcall, Hr.
Qed.

(** The example of the comment in [transform]: [get: '/unknown'] followed
    by [substring]. *)
Lemma transform_absent_is_null_witness :
  transform example_externals
    (VObj [("get", VStr "/unknown"); ("substring", VObj [])]) (VObj [])
  = Ok VNull.
Proof.
  apply (transform_absent_is_null example_externals).
  apply (absent_output example_externals []
           "get" (VStr "/unknown") [("substring", VObj [])] (VObj []) (VObj [])
           VUndefined).
  - repeat split; reflexivity.
  - reflexivity.
  - reflexivity.
Defined.

(** C9, as the code has it.  A key that names no method makes [transform]
    throw the [Unknown function] error when the loop comes to it: the input
    and every result before it are there.  Nothing catches the error: no
    value is produced, a template that embeds this one as a property of
    [object] throws it too, and the step of a script that holds the
    template (the step as the specification has it) fails with it when
    its query and its request, if it has any, leave the input as the
    document, which rejects the run. *)
Theorem transform_unknown_function (E : Externals)
    (before after : list (string * jsval)) (key : string)
    (options value v : jsval) :
  reaches E before value v ->
  is_method key = false ->
  let template := VObj (before ++ (key, options) :: after) in
  let unknown := Error ("Unknown function " ++ key) in
  transform E template value = Throw unknown /\
  (forall property : string,
     transform E (VObj [("object", VObj [(property, template)])]) value
     = Throw unknown) /\
  forall (context : Type)
         (query_capability : jsval -> option context -> jsval -> result jsval)
         (request_capability : jsval -> result jsval)
         (p : Script.program) (ctx : option context) (op : Script.operation),
    Script.op_transform op = Some template ->
    forall document queried : jsval,
      Script.optionally (Script.op_query op)
        (Script.run_query E query_capability ctx) document = Ok queried ->
      Script.optionally (Script.op_request op)
        (Script.run_request E request_capability) queried = Ok value ->
      (forall pc,
         Script.exec_step E query_capability request_capability p ctx
           (Script.Operation op) document pc = Throw unknown) /\
      (forall fuel s,
         Script.steps p !! Script.pc s = Some (Script.Operation op) ->
         Script.document s = document ->
         Script.loop E query_capability request_capability p ctx (S fuel) s
         = Some (Script.Rejected (Script.Raised unknown))).
Proof.
  intros Hreach Hkey template unknown.
  assert (Hthrow : transform E template value = Throw unknown).
  { unfold template. rewrite (chain_reaches E _ _ _ _ Hreach).
    cbn [chain]. now rewrite apply_key_unknown. }
  split; [exact Hthrow|]. split.
  - intros property. destruct Hreach as (Hvalue & _ & _).
    rewrite transform_object, Hvalue. cbn [chain]. unfold cloneDeep.
    assert (Hobject : apply_key E (transform E) "object" value
                        (VObj [(property, template)])
                      = Throw unknown).
    { unfold apply_key.
      change (call_method E (transform E) "object" value
                (VObj [(property, template)]))
        with (Some (_object E (transform E) value
                      (VObj [(property, template)]))).
      unfold _object, mapM, bind.
      change (sub_transform E (transform E) template value)
        with (transform E template value).
      now rewrite Hthrow. }
    now rewrite Hobject.
  - intros context query_capability request_capability p ctx op
      Htransform document queried Hquery Hrequest.
    assert (Hstep : forall pc,
               Script.exec_step E query_capability request_capability p ctx
                 (Script.Operation op) document pc = Throw unknown).
    { intros pc. unfold Script.exec_step.
      rewrite Hquery. cbn [bind]. rewrite Hrequest. cbn [bind].
      rewrite Htransform. cbn [Script.optionally].
      now rewrite Hthrow. }
    split; [exact Hstep|].
    intros fuel s Hat Hdoc. cbn [Script.loop]. rewrite Hat, Hdoc.
    now rewrite Hstep.
Qed.

Lemma transform_unknown_function_witness :
  transform example_externals
    (VObj [("get", VStr "/title"); ("shout", VObj [])])
    (VObj [("title", VStr "Foo")])
  = Throw (Error "Unknown function shout") /\
  Script.example_run
    [Script.transform_step (VObj [("get", VStr "/title"); ("shout", VObj [])])]
    None (Some (VObj [("title", VStr "Foo")]))
  = Some (Script.Rejected (Script.Raised (Error "Unknown function shout"))).
Proof.
  destruct (transform_unknown_function example_externals
              [("get", VStr "/title")] [] "shout" (VObj [])
              (VObj [("title", VStr "Foo")]) (VStr "Foo"))
    as (Hthrow & _ & Hstep).
  - repeat split; reflexivity.
  - reflexivity.
  - split; [exact Hthrow|].
    destruct (Hstep unit Script.example_query Script.example_request
                {| Script.steps :=
                     [Script.transform_step
                        (VObj [("get", VStr "/title"); ("shout", VObj [])])];
                   Script.labels := ∅; Script.maxSteps := 1000 |}
                None
                {| Script.op_query := None; Script.op_request := None;
                   Script.op_transform :=
                     Some (VObj [("get", VStr "/title"); ("shout", VObj [])]);
                   Script.op_increment := None; Script.op_jump := None |}
                eq_refl (VObj [("title", VStr "Foo")])
                (VObj [("title", VStr "Foo")]) eq_refl eq_refl) as [_ Hrun].
    exact (Hrun 1000%nat (Script.initial (Some (VObj [("title", VStr "Foo")])))
             eq_refl eq_refl).
Defined.

(** C9, as the claim words it, fails: a template with a key that names no
    method yields [null], and no error, when the input is [null] or when an
    earlier key of the chain finds nothing. *)
Lemma unknown_key_not_reached :
  is_method "shout" = false /\
  transform example_externals (VObj [("shout", VObj [])]) VNull = Ok VNull /\
  transform example_externals
    (VObj [("get", VStr "/unknown"); ("shout", VObj [])]) (VObj [])
  = Ok VNull.
Proof. repeat split; reflexivity. Qed.

(** C6, as the code has it.  With the jsonpointer package for the library,
    over a property read that finds the members of a document: on an input
    that is an object or an array, and a pointer whose path addresses a
    value, [_get] returns that value; where the path comes to [null] with
    a token still to read, the package throws and [_get] returns [null];
    on an input that is not an object or an array the package throws at
    once, so that [_get] returns [null] whatever the pointer; and for
    every text of a pointer [_get] returns what the package returns, and
    [null] where the package throws: it never throws itself. *)
Theorem get_returns_addressed_or_null (E : Externals)
    (read : jsval -> string -> result jsval) (value : jsval)
    (tokens : list string) :
  JsonPointer.reads_members read ->
  (forall doc pointer,
     E.(JsonPointer_get) doc pointer = JsonPointer.get_with read doc pointer) ->
  let pointer := JsonPointer.pointer_of tokens in
  (typeof value = "object" ->
   forall found,
     JsonPointer.addressed value tokens = Some found ->
     _get E value (VStr pointer) = Ok found) /\
  (forall before token rest,
     tokens = (before ++ token :: rest)%list ->
     JsonPointer.addressed value before = Some VNull ->
     _get E value (VStr pointer) = Ok VNull) /\
  (typeof value <> "object" -> _get E value (VStr pointer) = Ok VNull) /\
  (forall text : string,
     _get E value (VStr text)
     = Ok (match JsonPointer.get_with read value text with
           | Ok found => found
           | Throw _ => VNull
           end)).
Proof.
  intros Hread Hlib pointer.
  assert (Hobject : typeof value = "object" ->
                    _get E value (VStr pointer)
                    = match JsonPointer.walk_with read value
                              (List.map JsonPointer.escape tokens) with
                      | Ok found => Ok found
                      | Throw _ => Ok VNull
                      end).
  { intros Htype. cbn [_get]. rewrite Hlib. unfold JsonPointer.get_with.
    rewrite Htype, String.eqb_refl. cbn [negb]. unfold pointer.
    rewrite PointerProps.compilePointer_pointer_of. reflexivity. }
  split; [|split; [|split]].
  - intros Htype found Hfound. rewrite (Hobject Htype).
    now rewrite (PointerProps.walk_addressed read Hread _ _ _ Hfound).
  - intros before token rest -> Hnull.
    assert (Htype : typeof value = "object").
    { destruct before as [|first before]; cbn [JsonPointer.addressed] in Hnull.
      - now injection Hnull as ->.
      - destruct (JsonPointer.member value first) eqn:Hmember; [|discriminate].
        now apply PointerProps.member_typeof in Hmember. }
    rewrite (Hobject Htype).
    destruct (PointerProps.walk_into_null read Hread value before token rest
                Hnull) as [e ->].
    reflexivity.
  - intros Htype. cbn [_get]. rewrite Hlib. unfold JsonPointer.get_with.
    destruct (String.eqb_spec (typeof value) "object"); [contradiction|].
    reflexivity.
  - intros text. cbn [_get]. rewrite Hlib.
    now destruct (JsonPointer.get_with read value text).
Qed.

Lemma get_returns_addressed_or_null_witness :
  _get example_externals (VObj [("a", VObj [("b", VNum 7)])]) (VStr "/a/b")
  = Ok (VNum 7) /\
  _get example_externals (VObj [("a", VNull)]) (VStr "/a/b") = Ok VNull.
Proof.
  split.
  - apply (get_returns_addressed_or_null example_externals get_prop
             (VObj [("a", VObj [("b", VNum 7)])]) ["a"; "b"]
             PointerProps.get_prop_reads_members (fun _ _ => eq_refl));
      reflexivity.
  - apply (proj1 (proj2 (get_returns_addressed_or_null example_externals
                           get_prop (VObj [("a", VNull)]) ["a"; "b"]
                           PointerProps.get_prop_reads_members
                           (fun _ _ => eq_refl)))
             ["a"] "b" []); reflexivity.
Defined.

(** C6, as the claim words it, fails on an input that is not an object or
    an array: the pointer without tokens addresses the input itself, and
    the package rejects the input, so that [_get] returns [null]. *)
Lemma get_on_a_string_is_null :
  JsonPointer.pointer_of [] = "" /\
  JsonPointer.addressed (VStr "abc") [] = Some (VStr "abc") /\
  _get example_externals (VStr "abc") (VStr "") = Ok VNull /\
  transform example_externals
    (VObj [("static", VStr "abc"); ("get", VStr "")]) (VObj [])
  = Ok VNull.
Proof. repeat split; reflexivity. Qed.

(** The case of the comment in [_get]: ["/a/b"] on [{a: null}] makes the
    jsonpointer package throw, and on [{a: {}}] it finds nothing. *)
Example get_through_null :
  JsonPointer.get (VObj [("a", VNull)]) "/a/b"
  = Throw (TypeError "Cannot read property 'b' of null") /\
  _get example_externals (VObj [("a", VNull)]) (VStr "/a/b") = Ok VNull /\
  _get example_externals (VObj [("a", VObj [])]) (VStr "/a/b") = Ok VUndefined /\
  _get example_externals (VObj [("a", VObj [("b", VNum 7)])]) (VStr "/a/b")
  = Ok (VNum 7).
Proof. repeat split; reflexivity. Qed.

(** C5, as the code has it.  On an input that is not a string the lodash
    case methods, [nameCase] and [replace] return [null]; [count] returns
    [0] on an input that is neither a string nor an array; [join] and
    [slice] throw on an input that is not an array, as [substring] and
    [length] do on an input of the wrong type. *)
Theorem string_family_on_wrong_type (E : Externals) (value options : jsval) :
  (is_string value = false ->
     _lowerCase E value = Ok VNull /\ _upperCase E value = Ok VNull /\
     _camelCase E value = Ok VNull /\ _kebabCase E value = Ok VNull /\
     _snakeCase E value = Ok VNull /\ _capitalize E value = Ok VNull /\
     _nameCase E value = Ok VNull /\ _deburr E value = Ok VNull /\
     (forall search replacement : string,
        typeof options = "object" ->
        get_prop options "search" = Ok (VStr search) ->
        get_prop options "replace" = Ok (VStr replacement) ->
        _replace E value options = Ok VNull) /\
     _substring value options
     = Throw (Error ("Cannot execute substring on " ++ typeof value))) /\
  (is_array value = false ->
     _join value options
     = Throw (Error "Value for join transformation must be an array") /\
     _slice E value options
     = Throw (Error "Value for slice transformation must be an array")) /\
  (is_string value = false -> is_array value = false ->
     _count value = Ok (VNum 0) /\
     _length value = Throw (Error "Can only get length of arrays and strings")).
Proof.
  split; [|split].
  - intros Hstr.
    assert (Hon : forall f, on_string f value = Ok VNull)
      by (intros f; destruct value; try discriminate; reflexivity).
    repeat (split; [first [apply Hon
                          | destruct value; try discriminate; reflexivity]|]).
    split.
    + intros search replacement Htype Hsearch Hreplace.
      unfold _replace. rewrite Htype, Hsearch, Hreplace. cbn.
      destruct value; try discriminate; reflexivity.
    + destruct value; try discriminate; reflexivity.
  - intros Harr. destruct value; try discriminate; split; reflexivity.
  - intros Hstr Harr. destruct value; try discriminate; split; reflexivity.
Qed.

Lemma string_family_on_wrong_type_witness :
  _lowerCase example_externals (VNum 5) = Ok VNull /\
  _replace example_externals (VNum 5)
    (VObj [("search", VStr "a"); ("replace", VStr "b")]) = Ok VNull /\
  _join (VNum 5) (VObj []) =
    Throw (Error "Value for join transformation must be an array") /\
  _count (VNum 5) = Ok (VNum 0).
Proof.
  pose proof (string_family_on_wrong_type example_externals (VNum 5)
                (VObj [("search", VStr "a"); ("replace", VStr "b")]))
    as (Hstr & Harr & Hboth).
  destruct (Hstr eq_refl) as (Hlower & _ & _ & _ & _ & _ & _ & _ & Hrep & _).
  destruct (Harr eq_refl) as (_ & _).
  destruct (Hboth eq_refl eq_refl) as (Hcount & _).
  refine (conj Hlower (conj (Hrep "a" "b" eq_refl eq_refl eq_refl)
            (conj _ Hcount))).
  exact (proj1 (proj1 (proj2 (string_family_on_wrong_type example_externals
                                (VNum 5) (VObj []))) eq_refl)).
Defined.

(** C5, as the claim words it, fails: on a number [count] returns [0], not
    [null], and [join] and [slice] throw. *)
Lemma count_join_slice_on_number :
  _count (VNum 5) = Ok (VNum 0) /\
  _join (VNum 5) (VObj [])
  = Throw (Error "Value for join transformation must be an array") /\
  _slice example_externals (VNum 5) (VObj [])
  = Throw (Error "Value for slice transformation must be an array") /\
  transform example_externals (VObj [("count", VObj [])]) (VNum 5)
  = Ok (VNum 0) /\
  transform example_externals (VObj [("join", VObj [])]) (VNum 5)
  = Throw (Error "Value for join transformation must be an array").
Proof. repeat split; reflexivity. Qed.

End TransformationProps.

(** ** What the evaluator does to the store *)

Module StoreProps.
Import Js Store.

Lemma closed_app (n : nat) (h more : store) :
  closed n h -> Forall (cell_beyond n) more -> closed n (h ++ more).
Proof.
  intros Hclosed Hmore l c Hl Hlookup.
  apply lookup_app_Some in Hlookup as [Hold|[_ Hnew]].
  - now apply (Hclosed l).
  - rewrite Forall_forall in Hmore. apply Hmore.
    eapply list_elem_of_lookup_2; eauto.
Qed.

Lemma closed_insert (n : nat) (h : store) (l : loc) (c : cell) :
  closed n h -> cell_beyond n c -> closed n (<[l := c]> h).
Proof.
  intros Hclosed Hc l' c' Hl' Hlookup.
  apply list_lookup_insert_Some in Hlookup as [(-> & -> & _)|[_ Hold]].
  - exact Hc.
  - now apply (Hclosed l').
Qed.

Lemma cell_at_beyond (n : nat) (h : store) (l : loc) :
  closed n h -> (n <= l)%nat -> cell_beyond n (cell_at h l).
Proof.
  intros Hclosed Hl. unfold cell_at.
  destruct (h !! l) as [c|] eqn:Hc; cbn.
  - now apply (Hclosed l).
  - constructor.
Qed.

Section Keeps.
Context (n : nat).

Lemma keeps_weaken {A} (m : M A) (post post' : A -> Prop) :
  keeps n m post -> (forall a, post a -> post' a) -> keeps n m post'.
Proof.
  intros Hm Himp h Hn Hclosed.
  destruct (Hm h Hn Hclosed) as (Hlen & Htake & Hcl & Hpost).
  repeat split; auto.
Qed.

(** A method that only reads the store. *)
Lemma keeps_reader {A} (f : store -> result A) (post : A -> Prop) :
  (forall h a, (n <= length h)%nat -> closed n h -> f h = Ok a -> post a) ->
  keeps n (fun h => (f h, h)) post.
Proof.
  intros Hf h Hn Hclosed. cbn. repeat split; auto. intros a. now apply Hf.
Qed.

Lemma keeps_ret {A} (a : A) (post : A -> Prop) :
  post a -> keeps n (ret a) post.
Proof.
  intros Ha. apply (keeps_reader (fun _ => Ok a)). now intros h b _ _ [= <-].
Qed.

Lemma keeps_throw {A} (e : error) (post : A -> Prop) : keeps n (throw e) post.
Proof. apply (keeps_reader (fun _ => Throw e)). discriminate. Qed.

Lemma keeps_of_result {A} (r : result A) : keeps n (of_result r) (fun _ => True).
Proof. now apply (keeps_reader (fun _ => r)). Qed.

Lemma keeps_bind {A B} (m : M A) (k : A -> M B)
    (mid : A -> Prop) (post : B -> Prop) :
  keeps n m mid ->
  (forall a, mid a -> keeps n (k a) post) ->
  keeps n (bindM m k) post.
Proof.
  intros Hm Hk h Hn Hclosed. unfold bindM.
  destruct (Hm h Hn Hclosed) as (Hlen & Htake & Hcl & Hmid).
  destruct (m h) as [[a|e] h'] eqn:Hrun; cbn in *.
  - destruct (Hk a (Hmid a eq_refl) h' Hlen Hcl) as (Hlen' & Htake' & Hcl' & Hpost).
    repeat split; auto. now rewrite Htake'.
  - repeat split; auto. discriminate.
Qed.

(** A new object lies beyond the first [n]. *)
Lemma keeps_alloc (c : cell) :
  cell_beyond n c -> keeps n (alloc c) (fun l => (n <= l)%nat).
Proof.
  intros Hc h Hn Hclosed. cbn. rewrite length_app. split; [lia|].
  split; [now apply take_app_le|]. split.
  - apply closed_app; [exact Hclosed|]. now constructor.
  - now intros l [= <-].
Qed.

Lemma keeps_read_cell (l : loc) :
  (n <= l)%nat -> keeps n (read_cell l) (cell_beyond n).
Proof.
  intros Hl. apply (keeps_reader (fun h => Ok (cell_at h l))).
  intros h c _ Hclosed [= <-]. now apply cell_at_beyond.
Qed.

Lemma keeps_read_any (l : loc) : keeps n (read_cell l) (fun _ => True).
Proof. now apply (keeps_reader (fun h => Ok (cell_at h l))). Qed.

(** Writing to an object beyond the first [n] keeps them. *)
Lemma keeps_write_cell (l : loc) (c : cell) :
  (n <= l)%nat -> cell_beyond n c ->
  keeps n (write_cell l c) (fun _ => True).
Proof.
  intros Hl Hc h Hn Hclosed. cbn. rewrite length_insert.
  split; [exact Hn|]. split; [now apply take_insert_ge|].
  split; [now apply closed_insert|auto].
Qed.

Lemma assoc_set_beyond (key : string) (x : hval) (props : list (string * hval)) :
  beyond n x -> Forall (beyond n) (List.map snd props) ->
  Forall (beyond n) (List.map snd (assoc_set key x props)).
Proof.
  intros Hx. induction props as [|[k y] rest IH]; cbn; intros Hprops.
  - now constructor.
  - inversion Hprops as [|? ? Hy Hrest]; subst.
    destruct (String.eqb key k); cbn; constructor; auto.
Qed.

Lemma keeps_set_property (l : loc) (key : string) (x : hval) :
  (n <= l)%nat -> beyond n x ->
  keeps n (set_property l key x) (fun _ => True).
Proof.
  intros Hl Hx. unfold set_property.
  eapply keeps_bind; [now apply keeps_read_cell|].
  intros [items|props] Hc; [now apply keeps_ret|].
  apply keeps_write_cell; [exact Hl|]. now apply assoc_set_beyond.
Qed.

Lemma keeps_push (l : loc) (x : hval) :
  (n <= l)%nat -> beyond n x -> keeps n (push l x) (fun _ => True).
Proof.
  intros Hl Hx. unfold push.
  eapply keeps_bind; [now apply keeps_read_cell|].
  intros [items|props] Hc; [|now apply keeps_ret].
  apply keeps_write_cell; [exact Hl|].
  unfold cell_beyond in *. cbn in *. apply Forall_app. split; [exact Hc|].
  now constructor.
Qed.

Lemma keeps_forEach {A} (f : A -> M unit) (l : list A) :
  (forall x, In x l -> keeps n (f x) (fun _ => True)) ->
  keeps n (forEach f l) (fun _ => True).
Proof.
  induction l as [|x rest IH]; intros Hf; cbn.
  - now apply keeps_ret.
  - eapply keeps_bind; [apply Hf; now left|].
    intros _ _. apply IH. intros y Hy. apply Hf. now right.
Qed.

Lemma keeps_forEach_indexed {A} (f : nat -> A -> M unit) (l : list A) (i : nat) :
  (forall j x, In x l -> keeps n (f j x) (fun _ => True)) ->
  keeps n (forEach_indexed f i l) (fun _ => True).
Proof.
  revert i. induction l as [|x rest IH]; intros i Hf; cbn.
  - now apply keeps_ret.
  - eapply keeps_bind; [apply Hf; now left|].
    intros _ _. apply IH. intros j y Hy. apply Hf. now right.
Qed.

Lemma keeps_mapM {A B} (f : A -> M B) (l : list A) (post : B -> Prop) :
  (forall x, In x l -> keeps n (f x) post) ->
  keeps n (mapM f l) (Forall post).
Proof.
  induction l as [|x rest IH]; intros Hf; cbn.
  - now apply keeps_ret.
  - eapply keeps_bind; [apply Hf; now left|]. intros y Hy.
    eapply keeps_bind; [apply IH; intros z Hz; apply Hf; now right|].
    intros ys Hys. apply keeps_ret. now constructor.
Qed.

Lemma keeps_appending {A} (post : A -> Prop) (f : store -> A * store) :
  appends n post f ->
  keeps n (fun h => let '(a, h') := f h in (Ok a, h')) post.
Proof.
  intros Hf h Hn Hclosed. destruct (Hf h Hn) as (Hpost & more & Hmore & Hcells).
  destruct (f h) as [a h']; cbn in *. subst h'.
  rewrite length_app. split; [lia|]. split; [now apply take_app_le|].
  split; [now apply closed_app|]. now intros b [= <-].
Qed.

Lemma appends_id {A} (post : A -> Prop) (a : A) :
  post a -> appends n post (fun h => (a, h)).
Proof.
  intros Ha h _. split; [exact Ha|]. exists []. cbn.
  now rewrite app_nil_r.
Qed.

Lemma appends_thread {A B} (post : B -> Prop)
    (f : A -> store -> B * store) (l : list A) :
  Forall (fun x => appends n post (f x)) l ->
  appends n (Forall post) (thread f l).
Proof.
  induction 1 as [|x rest Hx _ IH]; intros h Hn; cbn.
  - split; [constructor|]. exists []. now rewrite app_nil_r.
  - destruct (Hx h Hn) as (Hy & m1 & H1 & Hc1). destruct (f x h) as [y h1].
    cbn in *. subst h1.
    destruct (IH (h ++ m1)%list) as (Hys & m2 & H2 & Hc2);
      [rewrite length_app; lia|].
    destruct (thread f rest (h ++ m1)%list) as [ys h2]. cbn in *. subst h2.
    split; [now constructor|].
    exists (m1 ++ m2)%list. split; [now rewrite app_assoc|].
    apply Forall_app. now split.
Qed.

Lemma appends_then_alloc {A} (post : A -> Prop) (f : store -> A * store)
    (c : A -> cell) :
  appends n post f ->
  (forall a, post a -> cell_beyond n (c a)) ->
  appends n (beyond n)
    (fun h => let '(a, h1) := f h in
              (HRef (length h1), (h1 ++ [c a])%list)).
Proof.
  intros Hf Hc h Hn. destruct (Hf h Hn) as (Ha & more & Hmore & Hcells).
  destruct (f h) as [a h1]. cbn in *. subst h1. split.
  - rewrite length_app. lia.
  - exists (more ++ [c a])%list. split; [now rewrite <- app_assoc|].
    apply Forall_app. split; [exact Hcells|]. constructor; auto.
Qed.

End Keeps.

Lemma Forall_snd_beyond {K} (n : nat) (props : list (K * hval)) :
  Forall (fun p => beyond n p.2) props ->
  Forall (beyond n) (List.map snd props).
Proof. induction 1; cbn; constructor; auto. Qed.

(** Laying out a tree, and copying one, append objects that refer to new
    objects only. *)
Lemma inject_appends (n : nat) (t : jsval) : appends n (beyond n) (inject t).
Proof.
  induction t as [| | | | |items IH|props IH]
    using JsProps.jsval_induction; try (apply appends_id; exact I).
  - apply (appends_then_alloc n (Forall (beyond n)) (thread inject items) CArr).
    + now apply appends_thread.
    + auto.
  - apply (appends_then_alloc n (Forall (fun p => beyond n p.2))
             (thread (fun '(k, t) h =>
                        let '(x, h1) := inject t h in ((k, x), h1)) props)
             CObj).
    + apply appends_thread.
      eapply Forall_impl; [exact IH|]. intros [k t] Ht h Hn. cbn in Ht.
      destruct (Ht h Hn) as (Hx & more & Hmore & Hcells).
      destruct (inject t h) as [x h1]. cbn in *. split; [exact Hx|].
      now exists more.
    + intros xs Hxs. now apply Forall_snd_beyond.
Qed.

Lemma clone_appends (n fuel : nat) (v : hval) :
  appends n (beyond n) (clone fuel v).
Proof.
  revert v. induction fuel as [|fuel IH]; intros v.
  - destruct v; apply appends_id; exact I.
  - destruct v as [| | | | |l]; try (apply appends_id; exact I).
    intros h Hn. cbn [clone]. destruct (cell_at h l) as [items|props].
    + apply (appends_then_alloc n (Forall (beyond n))
               (thread (clone fuel) items) CArr); [|auto|exact Hn].
      apply appends_thread. apply Forall_forall. intros x _. apply IH.
    + apply (appends_then_alloc n (Forall (fun p => beyond n p.2))
               (thread (fun '(k, x) h =>
                          let '(y, h1) := clone fuel x h in ((k, y), h1)) props)
               CObj); [| |exact Hn].
      * apply appends_thread. apply Forall_forall. intros [k x] _ h' Hn'.
        destruct (IH x h' Hn') as (Hy & more & Hmore & Hcells).
        destruct (clone fuel x h') as [y h1]. cbn in *. split; [exact Hy|].
        now exists more.
      * intros ys Hys. now apply Forall_snd_beyond.
Qed.

Section Methods.
Context (E : Transformation.Externals) (n : nat).

Lemma keeps_fresh (t : jsval) : keeps n (fresh t) (beyond n).
Proof. apply (keeps_appending n (beyond n) (inject t)), inject_appends. Qed.

Lemma keeps_cloneDeep (value : hval) : keeps n (cloneDeep value) (beyond n).
Proof.
  intros h Hn Hclosed. unfold cloneDeep.
  destruct (clone_appends n (S (length h)) value h Hn)
    as (Hcopy & more & Hmore & Hcells).
  destruct (clone (S (length h)) value h) as [copy h']. cbn in *. subst h'.
  rewrite length_app. split; [lia|]. split; [now apply take_app_le|].
  split; [now apply closed_app|]. now intros a [= <-].
Qed.

Lemma keeps_reading (method : jsval -> result jsval) (value : hval) :
  keeps n (reading method value) (beyond n).
Proof.
  unfold reading, reify_now.
  eapply keeps_bind;
    [apply (keeps_reader n (fun h => Ok _) (fun _ => True)); auto|].
  intros tree _.
  eapply keeps_bind; [apply keeps_of_result|]. intros out _.
  apply keeps_fresh.
Qed.

(** What is read from a value beyond the first [n] objects lies beyond
    them. *)
Lemma get_prop_beyond (h : store) (o : hval) (k : string) (found : hval) :
  closed n h -> beyond n o -> get_prop h o k = Ok found -> beyond n found.
Proof.
  intros Hclosed Ho. destruct o as [| | | |s|l]; cbn; try discriminate;
    try (intros [= <-]; exact I).
  - destruct (String.eqb k "length"); [intros [= <-]; exact I|].
    destruct (index_of_key k) as [i|]; [|intros [= <-]; exact I].
    destruct (String.get i s); intros [= <-]; exact I.
  - pose proof (cell_at_beyond n h l Hclosed Ho) as Hcell.
    destruct (cell_at h l) as [items|props]; unfold cell_beyond in Hcell;
      cbn in Hcell.
    + destruct (String.eqb k "length"); [intros [= <-]; exact I|].
      destruct (index_of_key k) as [i|]; [|intros [= <-]; exact I].
      intros [= <-]. destruct (nth_in_or_default i items HUndefined) as [Hin| ->];
        [|exact I].
      rewrite Forall_forall in Hcell. apply Hcell. now apply list_elem_of_In.
    + intros [= <-]. clear Hclosed.
      induction props as [|[k' y] rest IH]; cbn in *; [exact I|].
      inversion Hcell; subst. destruct (String.eqb k k'); cbn; auto.
Qed.

Lemma walk_beyond (h : store) (tokens : list string) (obj found : hval) :
  closed n h -> beyond n obj -> walk h obj tokens = Ok found -> beyond n found.
Proof.
  intros Hclosed. revert obj.
  induction tokens as [|token rest IH]; intros obj Hobj; cbn.
  - now intros [= <-].
  - destruct (get_prop h obj (JsonPointer.untilde token)) as [next|e] eqn:Hnext;
      cbn; [|discriminate].
    apply (get_prop_beyond h obj _ next Hclosed Hobj) in Hnext.
    destruct rest as [|token' rest]; [now intros [= <-]|].
    destruct (String.eqb (typeof next) "object"); [now apply IH|].
    now intros [= <-].
Qed.

Lemma keeps_get (value : hval) (options : jsval) :
  beyond n value -> keeps n (_get value options) (beyond n).
Proof.
  intros Hvalue. destruct options; try apply keeps_throw.
  intros h Hn Hclosed. cbn.
  destruct (JsonPointer_get h value s) as [found|e] eqn:Hget; cbn;
    repeat split; auto; intros a [= <-]; [|exact I].
  unfold JsonPointer_get in Hget.
  destruct (negb (String.eqb (typeof value) "object")); [discriminate|].
  destruct (JsonPointer.compilePointer s) as [tokens|e]; [|discriminate].
  cbn in Hget. now apply (walk_beyond h tokens value).
Qed.

Lemma keeps_transform_shorthand (pointer : string) (value : hval) :
  keeps n (transform_shorthand pointer value) (beyond n).
Proof.
  unfold transform_shorthand.
  destruct (nullish value); [now apply keeps_ret|].
  eapply keeps_bind; [apply keeps_cloneDeep|]. intros output Houtput.
  eapply keeps_bind; [now apply keeps_get|]. intros found Hfound.
  destruct (nullish found); now apply keeps_ret.
Qed.

(** The methods that run templates of their own keep the first [n]
    objects when the run of each such template does. *)
Section Sub.
Context (sub : jsval -> hval -> M hval) (bound : nat).
Hypothesis keeps_sub :
  forall template value,
    (size template < bound)%nat -> keeps n (sub template value) (beyond n).

Lemma keeps_sub_transform (template : jsval) (value : hval) :
  (size template < bound)%nat ->
  keeps n (sub_transform sub template value) (beyond n).
Proof.
  intros Hsize. destruct template; cbn [sub_transform];
    first [apply keeps_transform_shorthand | now apply keeps_sub].
Qed.

Lemma keeps_object (value : hval) (options : jsval) :
  (size options <= bound)%nat ->
  keeps n (_object sub value options) (beyond n).
Proof.
  intros Hsize. destruct options as [| | | | |items|props]; cbn [_object];
    try apply keeps_throw.
  - eapply keeps_bind; [apply keeps_alloc; constructor|]. intros output Houtput.
    eapply keeps_bind; [|intros; now apply keeps_ret].
    apply keeps_forEach_indexed. intros i template Hin.
    eapply keeps_bind.
    + apply keeps_sub_transform.
      pose proof (JsProps.size_item template items Hin). lia.
    + intros out Hout. now apply keeps_set_property.
  - eapply keeps_bind; [apply keeps_alloc; constructor|]. intros output Houtput.
    eapply keeps_bind; [|intros; now apply keeps_ret].
    apply keeps_forEach. intros [key template] Hin.
    eapply keeps_bind.
    + apply keeps_sub_transform.
      pose proof (JsProps.size_prop key template props Hin). lia.
    + intros out Hout. now apply keeps_set_property.
Qed.

Lemma keeps_map (value : hval) (options : jsval) :
  (size options < bound)%nat ->
  keeps n (_map sub value options) (beyond n).
Proof.
  intros Hsize. destruct value; cbn [_map]; try now apply keeps_ret.
  eapply keeps_bind; [apply keeps_read_any|].
  intros [items|props] _; [|now apply keeps_ret].
  eapply keeps_bind; [apply keeps_alloc; constructor|]. intros output Houtput.
  eapply keeps_bind; [|intros; now apply keeps_ret].
  apply keeps_forEach. intros item _.
  eapply keeps_bind; [now apply keeps_sub_transform|].
  intros out Hout. now apply keeps_push.
Qed.

Lemma keeps_array_items (value : hval) (items : list jsval) :
  (size (VArr items) <= bound)%nat ->
  keeps n (array_items sub value items) (Forall (beyond n)).
Proof.
  intros Hsize. apply keeps_mapM. intros item Hin.
  apply keeps_sub_transform.
  pose proof (JsProps.size_item item items Hin). lia.
Qed.

Lemma keeps_array (value : hval) (options : jsval) :
  (size options <= bound)%nat ->
  keeps n (_array sub value options) (beyond n).
Proof.
  intros Hsize. destruct options; cbn [_array]; try apply keeps_throw.
  eapply keeps_bind; [now apply keeps_array_items|]. intros outs Houts.
  eapply keeps_bind; [now apply keeps_alloc|]. intros; now apply keeps_ret.
Qed.

Lemma uniq_beyond (seen items : list hval) :
  Forall (beyond n) items -> Forall (beyond n) (uniq seen items).
Proof.
  intros Hitems. revert seen.
  induction Hitems as [|x rest Hx _ IH]; intros seen; cbn; [constructor|].
  destruct (existsb (hval_eqb x) seen); [apply IH|constructor; auto].
Qed.

Lemma items_of_beyond (h : store) (v : hval) :
  closed n h -> beyond n v -> Forall (beyond n) (items_of h v).
Proof.
  intros Hclosed Hv. destruct v; cbn; try constructor.
  pose proof (cell_at_beyond n h l Hclosed Hv) as Hcell.
  destruct (cell_at h l); [exact Hcell|constructor].
Qed.

Lemma keeps_union (value : hval) (options : jsval) :
  (size options <= bound)%nat ->
  keeps n (_union sub value options) (beyond n).
Proof.
  intros Hsize. destruct options; cbn [_union]; try apply keeps_throw.
  eapply keeps_bind; [now apply keeps_array_items|]. intros outs Houts.
  eapply keeps_bind; [now apply keeps_alloc|]. intros _ _.
  eapply keeps_bind.
  - apply (keeps_reader n (fun h => Ok _) (Forall (beyond n))).
    intros h united _ Hclosed [= <-]. apply uniq_beyond.
    apply Forall_concat. apply Forall_map.
    eapply Forall_impl; [exact Houts|]. intros v Hv.
    now apply items_of_beyond.
  - intros united Hunited.
    eapply keeps_bind; [now apply keeps_alloc|]. intros; now apply keeps_ret.
Qed.

End Sub.

Lemma keeps_filter (value : hval) :
  beyond n value -> keeps n (_filter value) (beyond n).
Proof.
  intros Hvalue. destruct value; cbn [_filter]; try apply keeps_throw.
  eapply keeps_bind; [now apply keeps_read_cell|].
  intros [items|props] Hcell; [|apply keeps_throw].
  eapply keeps_bind.
  - apply keeps_alloc. unfold cell_beyond in *. cbn in *.
    rewrite Forall_forall in *. intros x Hx. apply Hcell.
    apply list_elem_of_In. apply list_elem_of_In in Hx.
    apply filter_In in Hx. tauto.
  - intros output Houtput. now apply keeps_ret.
Qed.

Lemma js_slice_beyond (items : list hval) (from : Z) (to : option Z) :
  Forall (beyond n) items -> Forall (beyond n) (js_slice items from to).
Proof.
  intros Hitems. unfold js_slice.
  apply Forall_take, Forall_drop, Hitems.
Qed.

Lemma keeps_slice (value : hval) (options : jsval) :
  beyond n value -> keeps n (_slice E value options) (beyond n).
Proof.
  intros Hvalue. destruct value; cbn [_slice]; try apply keeps_throw.
  eapply keeps_bind; [now apply keeps_read_cell|].
  intros [items|props] Hcell; [|apply keeps_throw].
  eapply keeps_bind.
  - apply keeps_alloc. now apply js_slice_beyond.
  - intros output Houtput. now apply keeps_ret.
Qed.

Lemma keeps_assert (value : hval) (options : jsval) :
  beyond n value -> keeps n (_assert E value options) (beyond n).
Proof.
  intros Hvalue. unfold _assert, reify_now.
  eapply keeps_bind;
    [apply (keeps_reader n (fun h => Ok _) (fun _ => True)); auto|].
  intros tree _.
  eapply keeps_bind; [apply keeps_of_result|]. intros; now apply keeps_ret.
Qed.

Lemma keeps_apply_key (sub : jsval -> hval -> M hval) (bound : nat)
    (key : string) (output : hval) (options : jsval) :
  (forall template value,
     (size template < bound)%nat -> keeps n (sub template value) (beyond n)) ->
  (size options < bound)%nat ->
  beyond n output ->
  keeps n (apply_key E sub key output options) (beyond n).
Proof.
  intros Hsub Hsize Houtput. unfold apply_key, call_method.
  repeat match goal with
         | |- context [if ?test then _ else _] => destruct test
         end;
    first [ now apply keeps_get | apply keeps_fresh | now apply keeps_filter
          | now apply keeps_slice | now apply keeps_assert
          | apply keeps_reading | apply keeps_throw
          | eapply keeps_object; [exact Hsub|lia]
          | eapply keeps_map; [exact Hsub|lia]
          | eapply keeps_array; [exact Hsub|lia]
          | eapply keeps_union; [exact Hsub|lia] ].
Qed.

Lemma keeps_transform_bounded (bound : nat) :
  forall (template : jsval) (value : hval),
    (size template < bound)%nat ->
    keeps n (transform E template value) (beyond n).
Proof.
  induction bound as [|bound IH]; intros template value Hsize; [lia|].
  destruct template as [| | | | |items|props]; cbn [transform];
    (destruct (nullish value); [now apply keeps_ret|]);
    (eapply keeps_bind; [apply keeps_cloneDeep|]); intros output Houtput;
    try apply keeps_throw; try now apply keeps_ret.
  - destruct (String.eqb s ""); [now apply keeps_ret|apply keeps_throw].
  - destruct items; [now apply keeps_ret|apply keeps_throw].
  - assert (Hprops : forall key options,
               In (key, options) props -> (size options < bound)%nat).
    { intros key options Hin.
      pose proof (JsProps.size_prop key options props Hin). lia. }
    clear Hsize. revert output Houtput.
    induction props as [|[key options] rest IHrest]; intros output Houtput.
    + now apply keeps_ret.
    + eapply keeps_bind.
      * apply (keeps_apply_key (transform E) bound); [exact IH| |exact Houtput].
        apply (Hprops key). now left.
      * intros out Hout. destruct (nullish out); [now apply keeps_ret|].
        apply IHrest; [|exact Hout].
        intros k o Hin. apply (Hprops k). now right.
Qed.

End Methods.

Lemma denotes_mono (h h' : store) :
  (forall l c, h !! l = Some c -> h' !! l = Some c) ->
  forall v t, denotes h v t -> denotes h' v t.
Proof.
  intros Hsub.
  apply (denotes_min h
           (fun v t => denotes h' v t)
           (fun xs ts => denotes_all h' xs ts)
           (fun xs ts => denotes_props h' xs ts)); try (intros; constructor; auto).
  - intros l items trees Hl _ Hall. econstructor; eauto.
  - intros l props trees Hl _ Hall. eapply denotes_obj; eauto.
Qed.

Lemma reachable_beyond (n : nat) (h : store) (v : hval) (l : loc) :
  closed n h -> beyond n v -> reachable h v l -> (n <= l)%nat.
Proof.
  intros Hclosed Hv Hreach.
  induction Hreach as [l|l c x l' Hl Hx _ IH]; [exact Hv|].
  apply IH. pose proof (Hclosed l c Hv Hl) as Hcell.
  unfold cell_beyond in Hcell. rewrite Forall_forall in Hcell.
  apply Hcell. now apply list_elem_of_In.
Qed.

(** *** The deep copy of a tree

    On a store in which the input denotes a tree the bound on the depth of
    [reify] and [clone] is never reached: the tree is read whole, and the
    copy denotes it. *)

Lemma denotes_functional (h : store) (v : hval) (t : jsval) :
  denotes h v t -> forall t', denotes h v t' -> t = t'.
Proof.
  revert v t.
  apply (denotes_min h
           (fun v t => forall t', denotes h v t' -> t = t')
           (fun xs ts => forall ts', denotes_all h xs ts' -> ts = ts')
           (fun xs ts => forall ts', denotes_props h xs ts' -> ts = ts'));
    try (intros; match goal with H : denotes _ _ _ |- _ => now inversion H end).
  - intros l items trees Hl _ IH t' Ht'. inversion Ht' as [| | | | |? ? ? Hl' Hall|]; subst.
    + rewrite Hl in Hl'. injection Hl' as <-. f_equal. now apply IH.
    + congruence.
  - intros l props trees Hl _ IH t' Ht'. inversion Ht' as [| | | | | |? ? ? Hl' Hall]; subst.
    + congruence.
    + rewrite Hl in Hl'. injection Hl' as <-. f_equal. now apply IH.
  - intros ts' Hts'. now inversion Hts'.
  - intros x t xs ts _ IHx _ IHxs ts' Hts'.
    inversion Hts' as [|? t1 ? ts1 Hx Hxs]; subst.
    f_equal; auto.
  - intros ts' Hts'. now inversion Hts'.
  - intros k x t xs ts _ IHx _ IHxs ts' Hts'.
    inversion Hts' as [|? ? t1 ? ts1 Hx Hxs]; subst.
    f_equal; [f_equal|]; auto.
Qed.

Lemma chain_of_max (h : store) (a b : nat) :
  chain_of h a -> chain_of h b -> chain_of h (Nat.max a b).
Proof.
  intros Ha Hb. destruct (Nat.max_spec a b) as [[Hlt ->]|[Hle ->]]; assumption.
Qed.

Lemma chain_of_root (h : store) (l : loc) (t : jsval) (d : nat) :
  denotes h (HRef l) t -> depth t = S d -> chain_of h d -> chain_of h (S d).
Proof.
  intros Ht Hdepth (ls & Hnodup & Hlen & Hls).
  exists (l :: ls). split; [|split].
  - constructor; [|exact Hnodup]. intros Hin.
    destruct (Hls l Hin) as (_ & t' & Ht' & Hd).
    rewrite <- (denotes_functional h _ _ Ht _ Ht') in Hd. lia.
  - cbn. now rewrite Hlen.
  - intros l' Hin. apply elem_of_cons in Hin as [->|Hin].
    + split; [|exists t; split; [exact Ht|lia]].
      inversion Ht; subst; eapply lookup_lt_Some; eauto.
    + destruct (Hls l' Hin) as (Hlt & t' & Ht' & Hd).
      split; [exact Hlt|]. exists t'. split; [exact Ht'|lia].
Qed.

Lemma denotes_chain (h : store) (v : hval) (t : jsval) :
  denotes h v t -> chain_of h (depth t).
Proof.
  assert (Hzero : chain_of h 0).
  { exists []. split; [constructor|]. split; [reflexivity|].
    intros l Hl. now apply elem_of_nil in Hl. }
  revert v t.
  apply (denotes_min h
           (fun v t => chain_of h (depth t))
           (fun xs ts => chain_of h (deepest_item ts))
           (fun xs ts => chain_of h (deepest_prop ts)));
    try (intros; exact Hzero).
  - intros l items trees Hl Hall IH.
    apply (chain_of_root h l (VArr trees)); [|reflexivity|exact IH].
    now apply denotes_arr with items.
  - intros l props trees Hl Hall IH.
    apply (chain_of_root h l (VObj trees)); [|reflexivity|exact IH].
    now apply denotes_obj with props.
  - intros x t xs ts _ IHx _ IHxs. now apply chain_of_max.
  - intros k x t xs ts _ IHx _ IHxs. now apply chain_of_max.
Qed.

(** A tree laid out in a store is no deeper than the store has objects. *)
Lemma denotes_depth (h : store) (v : hval) (t : jsval) :
  denotes h v t -> (depth t <= length h)%nat.
Proof.
  intros Ht. destruct (denotes_chain h v t Ht) as (ls & Hnodup & Hlen & Hls).
  rewrite <- Hlen, <- (length_seq (length h) 0).
  apply submseteq_length, NoDup_submseteq; [exact Hnodup|].
  intros l Hl. apply elem_of_seq. destruct (Hls l Hl) as [Hlt _]. lia.
Qed.

Lemma denotes_all_mono (h h' : store) (xs : list hval) (ts : list jsval) :
  (forall l c, h !! l = Some c -> h' !! l = Some c) ->
  denotes_all h xs ts -> denotes_all h' xs ts.
Proof.
  intros Hsub. induction 1; constructor; eauto using denotes_mono.
Qed.

Lemma denotes_props_mono (h h' : store) (xs : list (string * hval))
    (ts : list (string * jsval)) :
  (forall l c, h !! l = Some c -> h' !! l = Some c) ->
  denotes_props h xs ts -> denotes_props h' xs ts.
Proof.
  intros Hsub. induction 1; constructor; eauto using denotes_mono.
Qed.

Lemma lookup_extend (h more : store) (l : loc) (c : cell) :
  h !! l = Some c -> (h ++ more)%list !! l = Some c.
Proof. apply lookup_app_l_Some. Qed.

Lemma lookup_new (h : store) (c : cell) :
  (h ++ [c])%list !! length h = Some c.
Proof. now rewrite list_lookup_middle. Qed.

(** [reify] with enough fuel reads the tree a value denotes. *)
Lemma reify_denotes (h : store) (v : hval) (t : jsval) :
  denotes h v t ->
  forall fuel, (depth t <= fuel)%nat -> reify fuel h v = t.
Proof.
  revert v t.
  apply (denotes_min h
           (fun v t => forall fuel, (depth t <= fuel)%nat -> reify fuel h v = t)
           (fun xs ts => forall fuel, (deepest_item ts <= fuel)%nat ->
              List.map (reify fuel h) xs = ts)
           (fun xs ts => forall fuel, (deepest_prop ts <= fuel)%nat ->
              List.map (fun '(k, x) => (k, reify fuel h x)) xs = ts));
    try (intros; destruct fuel; reflexivity).
  - intros l items trees Hl _ IH fuel Hfuel.
    change (depth (VArr trees)) with (S (deepest_item trees)) in Hfuel.
    destruct fuel as [|fuel]; [lia|]. cbn [reify]. unfold cell_at.
    rewrite Hl. cbn [default from_option id]. f_equal. apply IH. lia.
  - intros l props trees Hl _ IH fuel Hfuel.
    change (depth (VObj trees)) with (S (deepest_prop trees)) in Hfuel.
    destruct fuel as [|fuel]; [lia|]. cbn [reify]. unfold cell_at.
    rewrite Hl. cbn [default from_option id]. f_equal. apply IH. lia.
  - intros x t xs ts _ IHx _ IHxs fuel Hfuel.
    change (deepest_item (t :: ts))
      with (Nat.max (depth t) (deepest_item ts)) in Hfuel.
    cbn [List.map]. f_equal; [apply IHx|apply IHxs]; lia.
  - intros k x t xs ts _ IHx _ IHxs fuel Hfuel.
    change (deepest_prop ((k, t) :: ts))
      with (Nat.max (depth t) (deepest_prop ts)) in Hfuel.
    cbn [List.map]. f_equal; [f_equal; apply IHx|apply IHxs]; lia.
Qed.

(** The tree a method reads is the tree its input denotes. *)
Lemma reify_now_denotes (h : store) (v : hval) (t : jsval) :
  denotes h v t -> reify_now v h = (Ok t, h).
Proof.
  intros Ht. unfold reify_now. rewrite (reify_denotes h v t Ht); [reflexivity|].
  pose proof (denotes_depth h v t Ht). lia.
Qed.

Lemma holds_extend (h h' more : store) :
  holds h h' -> holds h (h' ++ more)%list.
Proof. intros Hsub l c Hl. apply lookup_extend, Hsub, Hl. Qed.

(** [clone] with enough fuel copies the whole tree: the copy denotes the
    tree of the original. *)
Lemma clone_denotes (h : store) (v : hval) (t : jsval) :
  denotes h v t ->
  forall fuel, (depth t <= fuel)%nat ->
  forall h', holds h h' ->
  exists more,
    (clone fuel v h').2 = (h' ++ more)%list /\
    denotes (h' ++ more)%list (clone fuel v h').1 t.
Proof.
  revert v t.
  apply (denotes_min h
           (fun v t => forall fuel, (depth t <= fuel)%nat ->
              forall h', holds h h' ->
              exists more,
                (clone fuel v h').2 = (h' ++ more)%list /\
                denotes (h' ++ more)%list (clone fuel v h').1 t)
           (fun xs ts => forall fuel, (deepest_item ts <= fuel)%nat ->
              forall h', holds h h' ->
              exists more,
                (thread (clone fuel) xs h').2 = (h' ++ more)%list /\
                denotes_all (h' ++ more)%list (thread (clone fuel) xs h').1 ts)
           (fun xs ts => forall fuel, (deepest_prop ts <= fuel)%nat ->
              forall h', holds h h' ->
              exists more,
                (thread (fun '(k, x) h =>
                           let '(y, h1) := clone fuel x h in ((k, y), h1))
                        xs h').2 = (h' ++ more)%list /\
                denotes_props (h' ++ more)%list
                  (thread (fun '(k, x) h =>
                             let '(y, h1) := clone fuel x h in ((k, y), h1))
                          xs h').1 ts));
    try (intros; exists []; rewrite app_nil_r; destruct fuel; cbn;
         (split; [reflexivity|constructor])).
  - intros l items trees Hl _ IH fuel Hfuel h' Hsub.
    change (depth (VArr trees)) with (S (deepest_item trees)) in Hfuel.
    destruct fuel as [|fuel]; [lia|]. cbn [clone]. unfold cell_at.
    rewrite (Hsub l _ Hl). cbn [default from_option id].
    destruct (IH fuel ltac:(lia) h' Hsub) as (more & Hstore & Hall).
    destruct (thread (clone fuel) items h') as [copies h1].
    cbn [fst snd] in *. subst h1. exists (more ++ [CArr copies])%list.
    rewrite app_assoc. split; [reflexivity|].
    apply denotes_arr with copies; [apply lookup_new|].
    eapply denotes_all_mono; [|exact Hall]. intros ? ?. apply lookup_extend.
  - intros l props trees Hl _ IH fuel Hfuel h' Hsub.
    change (depth (VObj trees)) with (S (deepest_prop trees)) in Hfuel.
    destruct fuel as [|fuel]; [lia|]. cbn [clone]. unfold cell_at.
    rewrite (Hsub l _ Hl). cbn [default from_option id].
    destruct (IH fuel ltac:(lia) h' Hsub) as (more & Hstore & Hall).
    destruct (thread _ props h') as [copies h1].
    cbn [fst snd] in *. subst h1. exists (more ++ [CObj copies])%list.
    rewrite app_assoc. split; [reflexivity|].
    apply denotes_obj with copies; [apply lookup_new|].
    eapply denotes_props_mono; [|exact Hall]. intros ? ?. apply lookup_extend.
  - intros x t xs ts _ IHx _ IHxs fuel Hfuel h' Hsub.
    change (deepest_item (t :: ts))
      with (Nat.max (depth t) (deepest_item ts)) in Hfuel.
    cbn [thread].
    destruct (IHx fuel ltac:(lia) h' Hsub) as (more1 & Hstore1 & Hx).
    destruct (clone fuel x h') as [y h1]. cbn [fst snd] in *. subst h1.
    destruct (IHxs fuel ltac:(lia) (h' ++ more1)%list
                (holds_extend _ _ _ Hsub)) as (more2 & Hstore2 & Hxs).
    destruct (thread (clone fuel) xs (h' ++ more1)%list) as [ys h2].
    cbn [fst snd] in *. subst h2. exists (more1 ++ more2)%list.
    rewrite app_assoc. split; [reflexivity|]. constructor; [|exact Hxs].
    eapply denotes_mono; [|exact Hx]. intros ? ?. apply lookup_extend.
  - intros k x t xs ts _ IHx _ IHxs fuel Hfuel h' Hsub.
    change (deepest_prop ((k, t) :: ts))
      with (Nat.max (depth t) (deepest_prop ts)) in Hfuel.
    cbn [thread].
    destruct (IHx fuel ltac:(lia) h' Hsub) as (more1 & Hstore1 & Hx).
    destruct (clone fuel x h') as [y h1]. cbn [fst snd] in *. subst h1.
    destruct (IHxs fuel ltac:(lia) (h' ++ more1)%list
                (holds_extend _ _ _ Hsub)) as (more2 & Hstore2 & Hxs).
    destruct (thread _ xs (h' ++ more1)%list) as [ys h2].
    cbn [fst snd] in *. subst h2. exists (more1 ++ more2)%list.
    rewrite app_assoc. split; [reflexivity|]. constructor; [|exact Hxs].
    eapply denotes_mono; [|exact Hx]. intros ? ?. apply lookup_extend.
Qed.

(** [_.cloneDeep] of a value that denotes a tree returns a copy that denotes
    the same tree, in objects appended to the store. *)
Lemma cloneDeep_denotes (h : store) (v : hval) (t : jsval) :
  denotes h v t ->
  exists copy more,
    cloneDeep v h = (Ok copy, (h ++ more)%list) /\
    denotes (h ++ more)%list copy t.
Proof.
  intros Ht. pose proof (denotes_depth h v t Ht) as Hdepth.
  destruct (clone_denotes h v t Ht (S (length h)) ltac:(lia) h
              (fun l c Hl => Hl)) as (more & Hstore & Hcopy).
  unfold cloneDeep. destruct (clone (S (length h)) v h) as [copy h1].
  cbn [fst snd] in *. subst h1. now exists copy, more.
Qed.

(** A tree laid out in the store denotes itself. *)
Lemma inject_denotes (t : jsval) :
  forall h, exists more,
    (inject t h).2 = (h ++ more)%list /\
    denotes (h ++ more)%list (inject t h).1 t.
Proof.
  induction t as [| | | | |items IH|props IH] using JsProps.jsval_induction;
    try (intros h; exists []; rewrite app_nil_r; cbn;
         split; [reflexivity|constructor]).
  - assert (Hall : forall h, exists more,
               (thread inject items h).2 = (h ++ more)%list /\
               denotes_all (h ++ more)%list (thread inject items h).1 items).
    { induction IH as [|x rest Hx _ IHrest]; intros h.
      - exists []. rewrite app_nil_r. cbn. split; [reflexivity|constructor].
      - cbn [thread]. destruct (Hx h) as (more1 & Hstore1 & Hden).
        destruct (inject x h) as [y h1]. cbn [fst snd] in *. subst h1.
        destruct (IHrest (h ++ more1)%list) as (more2 & Hstore2 & Hrest).
        destruct (thread inject rest (h ++ more1)%list) as [ys h2].
        cbn [fst snd] in *. subst h2. exists (more1 ++ more2)%list.
        rewrite app_assoc. split; [reflexivity|]. constructor; [|exact Hrest].
        eapply denotes_mono; [|exact Hden]. intros ? ?. apply lookup_extend. }
    intros h. cbn [inject]. destruct (Hall h) as (more & Hstore & Hden).
    destruct (thread inject items h) as [xs h1]. cbn [fst snd] in *. subst h1.
    exists (more ++ [CArr xs])%list. rewrite app_assoc.
    split; [reflexivity|]. apply denotes_arr with xs; [apply lookup_new|].
    eapply denotes_all_mono; [|exact Hden]. intros ? ?. apply lookup_extend.
  - assert (Hall : forall h, exists more,
               (thread (fun '(k, t) h =>
                          let '(x, h1) := inject t h in ((k, x), h1))
                       props h).2 = (h ++ more)%list /\
               denotes_props (h ++ more)%list
                 (thread (fun '(k, t) h =>
                            let '(x, h1) := inject t h in ((k, x), h1))
                         props h).1 props).
    { induction IH as [|[k x] rest Hx _ IHrest]; intros h.
      - exists []. rewrite app_nil_r. cbn. split; [reflexivity|constructor].
      - cbn [thread]. destruct (Hx h) as (more1 & Hstore1 & Hden).
        cbn [fst snd] in *.
        destruct (inject x h) as [y h1]. cbn [fst snd] in *. subst h1.
        destruct (IHrest (h ++ more1)%list) as (more2 & Hstore2 & Hrest).
        destruct (thread _ rest (h ++ more1)%list) as [ys h2].
        cbn [fst snd] in *. subst h2. exists (more1 ++ more2)%list.
        rewrite app_assoc. split; [reflexivity|]. constructor; [|exact Hrest].
        eapply denotes_mono; [|exact Hden]. intros ? ?. apply lookup_extend. }
    intros h. cbn [inject]. destruct (Hall h) as (more & Hstore & Hden).
    destruct (thread _ props h) as [xs h1]. cbn [fst snd] in *. subst h1.
    exists (more ++ [CObj xs])%list. rewrite app_assoc.
    split; [reflexivity|]. apply denotes_obj with xs; [apply lookup_new|].
    eapply denotes_props_mono; [|exact Hden]. intros ? ?. apply lookup_extend.
Qed.

(** C10.  [transform] leaves every object of the caller's store as it was:
    whatever the template and the input, each location of the store reads
    after the call what it read before, so the tree that the input denotes
    is the same before and after.  The evaluator works on the deep copy:
    the objects it writes to ([output[key] = ...] in [_object],
    [output.push(...)] in [_map]) are ones it has allocated, and no object
    within reach of the result is an object of the caller. *)
Theorem transform_keeps_input (E : Transformation.Externals)
    (template : jsval) (value : hval) (h : store) :
  let out := (transform E template value h).1 in
  let h' := (transform E template value h).2 in
  (forall l c, h !! l = Some c -> h' !! l = Some c) /\
  (forall tree, denotes h value tree -> denotes h' value tree) /\
  (forall v l, out = Ok v -> reachable h' v l -> (length h <= l)%nat).
Proof.
  intros out h'.
  assert (Hempty : closed (length h) h).
  { intros l c Hl Hc. apply lookup_lt_Some in Hc. lia. }
  destruct (keeps_transform_bounded E (length h) (S (size template))
              template value (Nat.lt_succ_diag_r _) h (Nat.le_refl _) Hempty)
    as (Hlen & Htake & Hclosed & Hout).
  fold h' in Hlen, Htake, Hclosed. fold out in Hout.
  assert (Hkept : forall l c, h !! l = Some c -> h' !! l = Some c).
  { intros l c Hl. rewrite firstn_all in Htake.
    rewrite <- Htake in Hl. rewrite lookup_take_Some in Hl. tauto. }
  split; [exact Hkept|]. split.
  - intros tree. now apply denotes_mono.
  - intros v l Hv. apply reachable_beyond; [exact Hclosed|now apply Hout].
Qed.

Lemma transform_keeps_input_witness :
  let h' := (transform Transformation.example_externals example_template
               (HRef 1%nat) example_store).2 in
  h' !! 1%nat = Some (CObj [("title", HStr "Foo"); ("tags", HRef 0%nat)]) /\
  denotes h' (HRef 1%nat)
    (VObj [("title", VStr "Foo"); ("tags", VArr [VStr "a"; VNull; VStr "b"])]) /\
  (forall l, reachable h' (HRef 4%nat) l -> (2 <= l)%nat).
Proof.
  intros h'.
  destruct (transform_keeps_input Transformation.example_externals
              example_template (HRef 1%nat) example_store)
    as (Hcells & Htree & Hreach).
  split; [|split].
  - apply Hcells. reflexivity.
  - apply Htree.
    eapply denotes_obj; [reflexivity|].
    repeat constructor.
    eapply denotes_arr; [reflexivity|]. repeat constructor.
  - intros l Hl. apply (Hreach (HRef 4%nat) l); [reflexivity|exact Hl].
Defined.

(** The run of the witness: the result is a new object, written to after
    its allocation, whose parts are copies; the two objects of the caller
    are the first two of the store that is left; and the tree that the
    result denotes is the value of the evaluator on trees. *)
Example transform_on_example_store :
  let '(out, h') := transform Transformation.example_externals
                      example_template (HRef 1%nat) example_store in
  out = Ok (HRef 4%nat) /\
  h' !! 4%nat = Some (CObj [("name", HStr "Foo"); ("tags", HRef 9%nat)]) /\
  h' !! 9%nat = Some (CArr [HStr "a"; HStr "b"]) /\
  take 2%nat h' = example_store /\
  Transformation.transform Transformation.example_externals example_template
    (VObj [("title", VStr "Foo"); ("tags", VArr [VStr "a"; VNull; VStr "b"])])
  = Ok (reify 3%nat h' (HRef 4%nat)).
Proof. vm_compute. repeat split; reflexivity. Qed.

End StoreProps.

(** ** Properties of the script engine *)

Module ScriptProps.
Import Js Script.









Section Engine.
Context (E : Transformation.Externals) {context : Type}.
Context (query_capability : jsval -> option context -> jsval -> result jsval).
Context (request_capability : jsval -> result jsval).

Local Abbreviation loop := (loop E query_capability request_capability).
Local Abbreviation unbounded :=
  (unbounded E query_capability request_capability).
Local Abbreviation execute :=
  (execute E query_capability request_capability).

Lemma compare_1_2 (operator : string) :
  compare operator (VNum 1) (VNum 2) = holds_of_1_and_2 operator.
Proof.
  unfold compare, holds_of_1_and_2, hold_of_1_and_2. cbn [existsb].
  repeat match goal with
         | |- context [String.eqb operator ?name] =>
             destruct (String.eqb_spec operator name) as [->|?];
             [reflexivity|]
         end.
  reflexivity.
Qed.

(** The loop with its budget, against the loop without: it rejects with
    the step budget error exactly when the program is not through after
    the turns that the budget allows. *)
Lemma loop_unbounded (p : program) (ctx : option context) (fuel : nat)
    (s : state) :
  (stepsExecuted s + S fuel = S (maxSteps p))%nat ->
  loop p ctx (S fuel) s =
  Some (match unbounded p ctx (S fuel) s with
        | Some o => o
        | None => Rejected StepBudget
        end).
Proof.
  revert s. induction fuel as [|fuel IH]; intros s Hsteps; cbn [Script.loop Script.unbounded].
  - destruct (steps p !! pc s) as [st|]; [|reflexivity].
    destruct (exec_step E query_capability request_capability p ctx st
                (document s) (pc s)) as [[doc next]|e]; [|reflexivity].
    destruct (Nat.ltb_spec (maxSteps p) (S (stepsExecuted s))); [reflexivity|lia].
  - destruct (steps p !! pc s) as [st|]; [|reflexivity].
    destruct (exec_step E query_capability request_capability p ctx st
                (document s) (pc s)) as [[doc next]|e]; [|reflexivity].
    destruct (Nat.ltb_spec (maxSteps p) (S (stepsExecuted s))); [lia|].
    apply IH. cbn. lia.
Qed.

Lemma execute_unbounded (p : program) (ctx : option context)
    (input : option jsval) :
  execute p ctx input =
  Some (match unbounded p ctx (S (maxSteps p)) (initial input) with
        | Some o => o
        | None => Rejected StepBudget
        end).
Proof. apply loop_unbounded. cbn. lia. Qed.

Lemma unbounded_count (p : program) (ctx : option context) (turns : nat)
    (s final : state) :
  unbounded p ctx turns s = Some (Resolved final) ->
  (stepsExecuted final < stepsExecuted s + turns)%nat.
Proof.
  revert s. induction turns as [|turns IH]; intros s; cbn [Script.unbounded];
    [discriminate|].
  destruct (steps p !! pc s) as [st|].
  - destruct (exec_step E query_capability request_capability p ctx st
                (document s) (pc s)) as [[doc next]|e]; [|discriminate].
    intros Hrun. apply IH in Hrun. cbn in Hrun. lia.
  - intros [= <-]. lia.
Qed.

(** C1, as the tests of the repository have it.  For a jump with the
    operands 1 and 2 the comparison holds for [!=], [!==], [<] and [<=],
    and for no other operator, recognized or not: the jump then sets the
    program counter to the index of its label, and otherwise moves it to
    the next step. *)
Theorem jump_on_1_and_2 (p : program) (doc : jsval) (pc : nat)
    (operator target : string) :
  let j := {| to := target; left := Literal (VNum 1);
              right := Literal (VNum 2); operator := operator |} in
  (compare operator (VNum 1) (VNum 2) = true <-> In operator hold_of_1_and_2) /\
  run_jump E p j doc pc =
  if holds_of_1_and_2 operator then resolve p target else Ok (S pc).
Proof.
  intros j. split.
  - rewrite compare_1_2. unfold holds_of_1_and_2.
    rewrite existsb_exists. split.
    + intros (name & Hin & Heq). apply String.eqb_eq in Heq. now subst.
    + intros Hin. exists operator. split; [exact Hin|apply String.eqb_refl].
  - unfold run_jump. cbn. now rewrite compare_1_2.
Qed.

(** C2.  A run always settles, and the step budget decides how: the
    outcome is that of the loop without a budget when the program is
    through within [maxSteps] steps, and the step budget error when it
    would process more; a run that resolves has processed at most
    [maxSteps] steps. *)
Theorem run_settles_within_budget (p : program) (ctx : option context)
    (input : option jsval) :
  execute p ctx input =
  Some (match unbounded p ctx (S (maxSteps p)) (initial input) with
        | Some o => o
        | None => Rejected StepBudget
        end) /\
  forall final,
    execute p ctx input = Some (Resolved final) ->
    (stepsExecuted final <= maxSteps p)%nat /\
    forall budget, (maxSteps p <= budget)%nat ->
      Script.execute E query_capability request_capability
        {| steps := steps p; labels := labels p; maxSteps := budget |}
        ctx input
      = Some (Resolved final).
Proof.
  assert (Hrun : forall q : program,
             execute q ctx input =
             Some (match unbounded q ctx (S (maxSteps q)) (initial input) with
                   | Some o => o
                   | None => Rejected StepBudget
                   end))
    by (intros q; apply execute_unbounded).
  split; [apply Hrun|].
  intros final Hfinal. rewrite Hrun in Hfinal.
  destruct (unbounded p ctx (S (maxSteps p)) (initial input)) as [o|] eqn:Hfree;
    [|discriminate].
  injection Hfinal as ->.
  split.
  - apply unbounded_count in Hfree. cbn in Hfree. lia.
  - intros budget Hbudget. rewrite Hrun. cbn [maxSteps].
    assert (Hmore : forall k m s o,
               unbounded p ctx k s = Some o -> (k <= m)%nat ->
               Script.unbounded E query_capability request_capability
                 {| steps := steps p; labels := labels p; maxSteps := budget |}
                 ctx m s = Some o).
    { clear. induction k as [|k IH]; intros m s o; cbn [Script.unbounded];
        [discriminate|].
      intros Hk Hm. destruct m as [|m]; [lia|]. cbn [Script.unbounded steps].
      destruct (steps p !! pc s) as [st|]; [|exact Hk].
      unfold exec_step, run_jump, resolve in *. cbn [steps labels] in *.
      destruct st as [name|op]; cbn in *.
      - apply IH; [exact Hk|lia].
      - destruct (bind _ _) as [[doc next]|e]; [|exact Hk].
        apply IH; [exact Hk|lia]. }
    now rewrite (Hmore _ (S budget) _ _ Hfree) by lia.
Qed.

Lemma loop_turn (p : program) (ctx : option context) (fuel : nat) (s : state) :
  loop p ctx (S fuel) s =
  match turn E query_capability request_capability p ctx s with
  | inl next => loop p ctx fuel next
  | inr o => Some o
  end.
Proof.
  cbn [Script.loop]. unfold turn.
  destruct (steps p !! pc s) as [st|]; [|reflexivity].
  destruct (exec_step E query_capability request_capability p ctx st
              (document s) (pc s)) as [[doc next]|e]; [|reflexivity].
  now destruct (maxSteps p <? S (stepsExecuted s))%nat.
Qed.

Lemma loop_more (p : program) (ctx : option context) (fuel more : nat)
    (s : state) (o : outcome) :
  loop p ctx fuel s = Some o -> (fuel <= more)%nat ->
  loop p ctx more s = Some o.
Proof.
  revert more s. induction fuel as [|fuel IH]; intros more s; [discriminate|].
  intros Hloop Hmore. destruct more as [|more]; [lia|].
  rewrite loop_turn in *.
  destruct (turn E query_capability request_capability p ctx s) as [next|o'];
    [|exact Hloop].
  apply IH; [exact Hloop|lia].
Qed.

(** While a run is in flight the calls are refused and change nothing:
    the run goes through the turns as the loop on its own does, and the
    flag is down again when, and only when, it has settled. *)
Lemma until_settled_in_flight (i : instance) (events : list event) (s : state) :
  busy i = true ->
  let '(o, answers, final) :=
    until_settled E query_capability request_capability
      {| inst := i; in_flight := Some s |} events in
  o = loop (compiled i) (ctx_of i) (turns events) s /\
  Forall (fun a => a = Refused) answers /\
  (o = None -> (List.length answers + turns events = List.length events)%nat) /\
  match o with
  | Some _ => final = idle (set_busy false i)
  | None => inst final = i /\ exists s', in_flight final = Some s'
  end.
Proof.
  intros Hbusy. revert s.
  induction events as [|e events IH]; intros s; cbn [until_settled].
  - repeat split; [constructor|now exists s].
  - destruct e as [input|]; cbn [react inst in_flight].
    + unfold start. rewrite Hbusy.
      specialize (IH s).
      destruct (until_settled E query_capability request_capability
                  {| inst := i; in_flight := Some s |} events)
        as [[o answers] final].
      destruct IH as (Ho & Hrefused & Hcount & Hfinal).
      split; [exact Ho|]. split; [now constructor|].
      split; [|exact Hfinal].
      intros Hnone. specialize (Hcount Hnone). cbn [List.length].
      unfold turns in *. cbn [List.filter]. lia.
    + change (turns (Turn :: events)) with (S (turns events)).
      rewrite loop_turn.
      destruct (turn E query_capability request_capability (compiled i)
                  (ctx_of i) s) as [next|o].
      * specialize (IH next).
        destruct (until_settled E query_capability request_capability
                    {| inst := i; in_flight := Some next |} events)
          as [[o answers] final].
        destruct IH as (Ho & Hrefused & Hcount & Hfinal).
        split; [exact Ho|]. split; [exact Hrefused|].
        split; [|exact Hfinal].
        intros Hnone. specialize (Hcount Hnone). cbn [List.length]. lia.
      * split; [reflexivity|]. split; [constructor|].
        split; [discriminate|reflexivity].
Qed.

(** C3.  The guard of [run()], over a run in flight.  On a busy Program a
    call throws at once and changes nothing, whatever is in flight.  On an
    idle one the call is taken and sets the flag; then, whatever calls the
    host makes between the turns of the run, each is refused and the run
    goes on as if they had not been made; after at most [maxSteps + 1]
    turns it has settled, with the outcome of [run()] on its own; the flag
    is up as long as the run is in flight and down once it has settled,
    however it has (the script through, a step that throws, the step
    budget), and then the next call is taken. *)
Theorem run_guards_reentrancy (i : instance) (input : option jsval)
    (events : list event) :
  (busy i = true ->
     (forall pending,
        react E query_capability request_capability
          {| inst := i; in_flight := pending |} (Call input)
        = ({| inst := i; in_flight := pending |}, Refused)) /\
     run E query_capability request_capability i input
     = (i, Some (Rejected Reentrancy))) /\
  (busy i = false ->
     let entered :=
       {| inst := set_busy true i; in_flight := Some (initial input) |} in
     react E query_capability request_capability (idle i) (Call input)
     = (entered, Started) /\
     let '(o, answers, final) :=
       until_settled E query_capability request_capability entered events in
     o = loop (compiled i) (ctx_of i) (turns events) (initial input) /\
     Forall (fun a => a = Refused) answers /\
     (o = None ->
      (List.length answers + turns events = List.length events)%nat) /\
     ((maxSteps (compiled i) < turns events)%nat ->
      exists settled,
        o = Some settled /\
        run E query_capability request_capability i input
        = (inst final, Some settled)) /\
     match o with
     | Some _ =>
         busy (inst final) = false /\ in_flight final = None /\
         forall next,
           react E query_capability request_capability final (Call next)
           = ({| inst := set_busy true (inst final);
                 in_flight := Some (initial next) |}, Started)
     | None =>
         busy (inst final) = true /\
         forall next,
           react E query_capability request_capability final (Call next)
           = (final, Refused)
     end).
Proof.
  split; intros Hbusy.
  - split.
    + intros pending. cbn [react inst]. unfold start. now rewrite Hbusy.
    + unfold run, start. now rewrite Hbusy.
  - intros entered.
    split; [cbn [react idle inst]; unfold start; now rewrite Hbusy|].
    pose proof (until_settled_in_flight (set_busy true i) events
                  (initial input) eq_refl) as Hflight.
    fold entered in Hflight.
    destruct (until_settled E query_capability request_capability entered
                events) as [[o answers] final].
    cbn [set_busy compiled ctx_of] in Hflight.
    destruct Hflight as (Ho & Hrefused & Hcount & Hfinal).
    split; [exact Ho|]. split; [exact Hrefused|]. split; [exact Hcount|].
    split.
    + intros Hturns.
      pose proof (execute_unbounded (compiled i) (ctx_of i) input) as Hexec.
      unfold Script.execute in Hexec.
      pose proof (loop_more _ _ _ (turns events) _ _ Hexec ltac:(lia)) as Hrun.
      rewrite Hrun in Ho. subst o. subst final.
      eexists. split; [reflexivity|].
      unfold run, start. rewrite Hbusy. unfold settle, Script.execute.
      cbn [idle inst set_busy compiled ctx_of]. now rewrite Hexec.
    + destruct o as [settled|].
      * subst final. cbn [idle inst in_flight set_busy busy].
        split; [reflexivity|]. split; [reflexivity|].
        intros next. reflexivity.
      * destruct Hfinal as (Hinst & s' & Hs').
        rewrite Hinst. split; [reflexivity|].
        intros next. cbn [react]. rewrite Hinst. reflexivity.
Qed.


End Engine.


(** C1, as the claim words it, fails for [<=]: 1 <= 2 holds, the jump is
    taken, and the script of the test leaves [foo] at [null]. *)
Lemma jump_taken_on_less_or_equal :
  compare "<=" (VNum 1) (VNum 2) = true /\
  output_of (example_run (conditional_jump "<=") None (Some (VObj [])))
  = Some (VObj [("foo", VNull); ("bar", VStr "baz")]).
Proof. split; vm_compute; reflexivity. Qed.

(** The table of the test, operator by operator: [foo] stays [null] when
    the jump is taken and becomes ['bar'] when it is not. *)
Example conditional_jump_table :
  List.map
    (fun operator =>
       output_of (example_run (conditional_jump operator) None (Some (VObj []))))
    ["==="; "=="; "!="; "!=="; "<"; ">"; "<="; ">="; "in"; "unknown"]
  = List.map
      (fun taken : bool =>
         Some (VObj [("foo", if taken then VNull else VStr "bar");
                     ("bar", VStr "baz")]))
      [false; false; true; true; true; false; true; false; false; false].
Proof. vm_compute. reflexivity. Qed.

(** The tests of the step budget: the endless loop fails on the default
    budget of 1000 steps; the counting loop to 500 processes 2004 steps,
    which the budget of 4001 allows and the default one does not. *)
Example step_budget_tests :
  example_run endless_loop None (Some (VObj [("n", VNum 10000)]))
  = Some (Rejected StepBudget) /\
  example_run counting_loop (Some 4001%nat) (Some (VObj [("n", VNum 500)]))
  = Some (Resolved counted) /\
  example_run counting_loop None (Some (VObj [("n", VNum 500)]))
  = Some (Rejected StepBudget).
Proof. repeat split; vm_compute; reflexivity. Qed.

(** The counting loop resolves on the budget of 4001 steps, within it, and
    so it does on a budget raised to 5000. *)
Lemma run_settles_within_budget_witness :
  (stepsExecuted counted <= 4001)%nat /\
  execute Transformation.example_externals example_query example_request
    {| steps := steps (counting_program 4001);
       labels := labels (counting_program 4001);
       maxSteps := 5000 |}
    None (Some (VObj [("n", VNum 500)]))
  = Some (Resolved counted).
Proof.
  assert (Hcount : execute Transformation.example_externals example_query
                     example_request (counting_program 4001) None
                     (Some (VObj [("n", VNum 500)]))
                   = Some (Resolved counted))
    by (vm_compute; reflexivity).
  destruct (proj2 (run_settles_within_budget Transformation.example_externals
                     example_query example_request (counting_program 4001)
                     None (Some (VObj [("n", VNum 500)]))) counted Hcount)
    as [Hwithin Hmore].
  split; [exact Hwithin|].
  apply (Hmore 5000%nat). apply Nat.leb_le. vm_compute. reflexivity.
Defined.

(** The test of the concurrent run: the calls made while the first run is
    in flight are refused, the run settles as it does on its own, and the
    flag is down after it. *)
Lemma run_guards_reentrancy_witness :
  let i := example_instance [transform_step (VObj [("object", VObj [])])] in
  let '(o, answers, final) :=
    until_settled Transformation.example_externals example_query
      example_request
      {| inst := set_busy true i; in_flight := Some (initial None) |}
      [Call None; Turn; Call None; Turn] in
  o = Some (Resolved {| document := VObj []; pc := 1; stepsExecuted := 1 |}) /\
  answers = [Refused; Refused] /\
  busy (inst final) = false.
Proof.
  intros i.
  pose proof (proj2 (run_guards_reentrancy Transformation.example_externals
                       example_query example_request i None
                       [Call None; Turn; Call None; Turn]) eq_refl)
    as [_ Hflight].
  revert Hflight.
  destruct (until_settled Transformation.example_externals example_query
              example_request
              {| inst := set_busy true i; in_flight := Some (initial None) |}
              [Call None; Turn; Call None; Turn])
    as [[o answers] final] eqn:Hsettled.
  intros (Ho & Hrefused & _ & _ & Hflag).
  split; [rewrite Ho; reflexivity|].
  split; [now injection Hsettled as _ <- _|].
  rewrite Ho in Hflag. exact (proj1 Hflag).
Defined.

Example busy_cleared_on_every_exit :
  let ends := example_instance [transform_step (VObj [("object", VObj [])])] in
  let throws := example_instance [transform_step (VObj [("shout", VObj [])])] in
  let loops := example_instance endless_loop in
  let run := run Transformation.example_externals example_query example_request in
  run ends None
  = (ends, Some (Resolved {| document := VObj []; pc := 1; stepsExecuted := 1 |})) /\
  run throws None
  = (throws, Some (Rejected (Raised (Error "Unknown function shout")))) /\
  (run loops None).1 = loops /\
  (run loops None).2 = Some (Rejected StepBudget) /\
  run (set_busy true ends) None
  = (set_busy true ends, Some (Rejected Reentrancy)).
Proof. vm_compute. repeat split; reflexivity. Qed.

End ScriptProps.

(** ** Properties of the difference of two objects *)

Module DiffProps.
Import Js Diff.

Section Diff.
Context {V : Type} `{EqDecision V} (null : V).

(** Applying the difference of [left] and [right] to [left] gives, under
    every key, what [right] has there, a missing key reading as [null]. *)
Lemma change_changed_at_key (left right : gmap string V) (key : string) :
  at_key null (change null left (changed null left right)) key
  = at_key null right key.
Proof.
  unfold at_key, change, changed. rewrite !lookup_merge.
  destruct (left !! key) as [l|], (right !! key) as [r|]; cbn;
    unfold changed_at; cbn;
    repeat (case_decide; cbn); congruence.
Qed.

End Diff.

(** C7, as the model of the two tests has it.  For objects [left] and
    [right] none of whose keys holds [null], applying [changed] of the two
    to [left] gives [right]. *)
Theorem change_inverts_changed {V : Type} `{EqDecision V} (null : V)
    (left right : gmap string V) :
  no_null null left -> no_null null right ->
  change null left (changed null left right) = right.
Proof.
  intros Hleft Hright. apply map_eq. intros key.
  pose proof (change_changed_at_key null left right key) as Hkey.
  unfold at_key in Hkey.
  assert (Hresult : change null left (changed null left right) !! key
                    <> Some null).
  { unfold change, changed. rewrite !lookup_merge.
    destruct (left !! key) as [l|] eqn:Hl, (right !! key) as [r|] eqn:Hr; cbn;
      unfold changed_at; cbn; repeat (case_decide; cbn); congruence. }
  specialize (Hright key).
  destruct (change null left (changed null left right) !! key) as [x|],
    (right !! key) as [r|]; cbn in Hkey; congruence.
Qed.

(** The objects of the test of [change]. *)
Lemma change_inverts_changed_witness :
  change VNull test_left (changed VNull test_left test_right) = test_right.
Proof.
  apply (change_inverts_changed VNull test_left test_right).
  - intros key. unfold test_left, obj. cbn [list_to_map foldr uncurry fst snd].
    rewrite !lookup_insert. repeat (case_decide; [discriminate|]).
    rewrite lookup_empty. discriminate.
  - intros key. unfold test_right, obj. cbn [list_to_map foldr uncurry fst snd].
    rewrite !lookup_insert. repeat (case_decide; [discriminate|]).
    rewrite lookup_empty. discriminate.
Defined.

(** C7, as the claim words it, fails on objects that hold [null]: a key
    with [null] that [right] no longer has stays, and a key that [right]
    gains with [null] is not put in. *)
Lemma change_changed_with_null :
  change VNull (obj [("f", VNull)]) (changed VNull (obj [("f", VNull)]) (obj []))
  = obj [("f", VNull)] /\
  obj [("f", VNull)] <> obj [] /\
  change VNull (obj []) (changed VNull (obj []) (obj [("g", VNull)])) = obj [] /\
  obj [] <> obj [("g", VNull)].
Proof.
  repeat split; try (vm_compute; reflexivity).
  - intros Heq. apply (f_equal (fun m => m !! "f")) in Heq. discriminate Heq.
  - intros Heq. apply (f_equal (fun m => m !! "g")) in Heq. discriminate Heq.
Qed.

(** The two tests, on the model. *)
Example changed_of_test :
  changed VNull (<["f" := VNull]> test_left) (<["g" := VNull]> test_right)
  = test_changes /\
  change VNull test_left test_changes = test_right.
Proof. split; vm_compute; reflexivity. Qed.

End DiffProps.

(** ** The methods of the evaluator, one by one *)

Module MethodProps.
Import Js Transformation.

Lemma get_prop_throws (o : jsval) (k : string) (e : error) :
  get_prop o k = Throw e -> nullish o = true.
Proof.
  destruct o; cbn [get_prop]; try reflexivity; try discriminate;
    repeat case_match; discriminate.
Qed.

Lemma clamp_span (len : nat) (a n : Z) :
  Z.of_nat (Nat.max (clamp len a) (clamp len (a + n))
            - Nat.min (clamp len a) (clamp len (a + n))) <= Z.abs n.
Proof.
  unfold clamp.
  destruct (Z.ltb_spec a 0), (Z.ltb_spec (a + n) 0); lia.
Qed.



Lemma substring_prefix (s : string) (m : nat) :
  exists post, s = (String.substring 0 m s ++ post)%string.
Proof.
  revert m. induction s as [|c s IH]; intros m.
  - exists "". now destruct m.
  - destruct m as [|m]; [now exists (String c s)|].
    destruct (IH m) as (post & Hs). exists post. cbn [String.substring].
    change (String c s = String c (String.substring 0 m s ++ post)).
    now f_equal.
Qed.

Lemma substring_part (s : string) (n m : nat) :
  exists pre post, s = (pre ++ String.substring n m s ++ post)%string.
Proof.
  revert n. induction s as [|c s IH]; intros n.
  - exists "", "". now destruct n, m.
  - destruct n as [|n].
    + destruct (substring_prefix (String c s) m) as (post & Hs).
      now exists "", post.
    + destruct (IH n) as (pre & post & Hs). cbn [String.substring].
      exists (String c pre), post.
      change (String c s = String c (pre ++ String.substring n m s ++ post)).
      now f_equal.
Qed.

Lemma substring_length_le (s : string) (n m : nat) :
  (String.length (String.substring n m s) <= m)%nat.
Proof.
  revert n m. induction s as [|c s IH]; intros n m.
  - destruct n, m; cbn; lia.
  - destruct n as [|n].
    + destruct m as [|m]; cbn; [lia|]. specialize (IH 0%nat m). lia.
    + cbn. apply IH.
Qed.

Lemma substring_whole (s : string) :
  String.substring 0 (String.length s) s = s.
Proof.
  induction s as [|c s IH]; [reflexivity|]. cbn. now f_equal.
Qed.

Section Chain.
Context (E : Externals).

Lemma chain_never_undefined (props : list (string * jsval)) (output r : jsval) :
  nullish output = false ->
  chain E props output = Ok r -> r = VNull \/ nullish r = false.
Proof.
  revert output.
  induction props as [|[key options] rest IH]; intros output Hout; cbn [chain].
  - intros [= <-]. now right.
  - destruct (apply_key E (transform E) key output options) as [out|e];
      [|discriminate].
    destruct (nullish out) eqn:Hnull.
    + intros [= <-]. now left.
    + now apply IH.
Qed.

Lemma mapM_Forall2 {A B} (f : A -> result B) (l : list A) (outs : list B) :
  mapM f l = Ok outs -> Forall2 (fun x y => f x = Ok y) l outs.
Proof.
  revert outs. induction l as [|x rest IH]; intros outs; cbn [mapM].
  - intros [= <-]. constructor.
  - destruct (f x) as [y|e] eqn:Hx; [|discriminate]. cbn [bind].
    destruct (mapM f rest) as [ys|e]; [|discriminate]. cbn [bind].
    intros [= <-]. constructor; [exact Hx|now apply IH].
Qed.

Lemma mapM_Throw {A B} (f : A -> result B) (l : list A) (e : error) :
  mapM f l = Throw e ->
  exists before x after,
    l = (before ++ x :: after)%list /\ f x = Throw e /\
    Forall (fun y => exists out, f y = Ok out) before.
Proof.
  induction l as [|x rest IH]; cbn [mapM]; [discriminate|].
  destruct (f x) as [y|e'] eqn:Hx; cbn [bind].
  - destruct (mapM f rest) as [ys|e'']; cbn [bind]; [discriminate|].
    intros [= ->]. destruct (IH eq_refl) as (before & z & after & -> & Hz & Hok).
    exists (x :: before), z, after. split; [reflexivity|]. split; [exact Hz|].
    constructor; [now exists y|exact Hok].
  - intros [= ->]. exists [], x, rest. split; [reflexivity|].
    split; [exact Hx|constructor].
Qed.

Lemma sub_transform_of_nullish (template value : jsval) :
  nullish value = true ->
  sub_transform E (transform E) template value = Ok VNull.
Proof.
  intros Hvalue. destruct template;
    cbn [sub_transform transform]; unfold transform_shorthand;
    now rewrite Hvalue.
Qed.

End Chain.

(** The keys of a template are run in sequence: the template with the keys
    of [before] followed by those of [after] does what [before] does,
    followed by [after] on its result.  The template without keys returns
    an input that is there as it is. *)
Theorem transform_in_sequence (E : Externals)
    (before after : list (string * jsval)) (value : jsval) :
  transform E (VObj (before ++ after)) value
  = (r <- transform E (VObj before) value ;; transform E (VObj after) r) /\
  transform E (VObj []) value = (if nullish value then Ok VNull else Ok value).
Proof.
  split; [|now rewrite TransformationProps.transform_object].
  rewrite !TransformationProps.transform_object.
  destruct (nullish value) eqn:Hvalue.
  - cbn [bind]. now rewrite TransformationProps.transform_object.
  - unfold cloneDeep. rewrite TransformationProps.chain_app by exact Hvalue.
    destruct (chain E before value) as [v|e]; [|reflexivity]. cbn [bind].
    now rewrite TransformationProps.transform_object.
Qed.

Lemma transform_result_is_defined (E : Externals) (template value : jsval) :
  transform E template value <> Ok VUndefined.
Proof.
  intros Hr.
  assert (Hvalue : nullish value = false).
  { destruct (nullish value) eqn:Hvalue; [|reflexivity].
    destruct template; cbn [transform] in Hr; rewrite Hvalue in Hr;
      discriminate. }
  destruct template as [| | | |s|items|props]; cbn [transform] in Hr;
    rewrite ?Hvalue in Hr; unfold cloneDeep in Hr; try discriminate.
  - injection Hr as ->. discriminate.
  - injection Hr as ->. discriminate.
  - destruct (String.eqb s ""); [|discriminate]. injection Hr as ->.
    discriminate.
  - destruct items; [|discriminate]. injection Hr as ->. discriminate.
  - pose proof (TransformationProps.transform_object E props value) as Hobj.
    rewrite Hvalue in Hobj. unfold cloneDeep in Hobj.
    cbn [transform] in Hobj. rewrite Hvalue in Hobj. unfold cloneDeep in Hobj.
    rewrite Hobj in Hr.
    destruct (chain_never_undefined E props value VUndefined Hvalue Hr);
      discriminate.
Qed.

(** [transform] never returns [undefined]: a result that is not there is
    [null]. *)
Theorem transform_never_undefined (E : Externals) (template value : jsval) :
  transform E template value <> Ok VUndefined.
Proof. apply transform_result_is_defined. Qed.

(** [static] starts the chain afresh: when the keys before it leave a
    value, whatever it is, the template does what the keys after [static]
    do on the constant.  On an input that is not there the constant is not
    returned: the result is [null]. *)
Theorem static_restarts_chain (E : Externals)
    (before after : list (string * jsval)) (constant value r : jsval) :
  transform E (VObj before) value = Ok r ->
  nullish r = false ->
  transform E (VObj (before ++ ("static", constant) :: after)) value
  = transform E (VObj after) constant /\
  transform E (VObj (("static", constant) :: after)) VNull = Ok VNull.
Proof.
  intros Hbefore Hr. split; [|reflexivity].
  rewrite TransformationProps.transform_object in Hbefore.
  rewrite !TransformationProps.transform_object.
  destruct (nullish value) eqn:Hvalue.
  { injection Hbefore as <-. discriminate. }
  unfold cloneDeep in *.
  rewrite TransformationProps.chain_app by exact Hvalue.
  rewrite Hbefore, Hr. reflexivity.
Qed.

Lemma static_restarts_chain_witness :
  transform example_externals
    (VObj [("get", VStr "/title"); ("static", VStr "bar"); ("length", VObj [])])
    (VObj [("title", VStr "Foo")])
  = transform example_externals (VObj [("length", VObj [])]) (VStr "bar").
Proof.
  apply (static_restarts_chain example_externals [("get", VStr "/title")]
           [("length", VObj [])] (VStr "bar") (VObj [("title", VStr "Foo")])
           (VStr "Foo")); reflexivity.
Defined.

(** [map] keeps the positions: on an array it returns an array with, at
    every position, what the template gives on the item there, [null] for
    an item that is not there; it fails only with the error of the first
    item that fails.  On a value that is not an array it returns [null]. *)
Theorem map_keeps_positions (E : Externals) (value options : jsval) :
  match value with
  | VArr items =>
      match _map E (transform E) value options with
      | Ok r =>
          exists outs,
            r = VArr outs /\ List.length outs = List.length items /\
            Forall2 (fun item out =>
                       sub_transform E (transform E) options item = Ok out /\
                       (nullish item = true -> out = VNull)) items outs
      | Throw e =>
          exists before item after,
            items = (before ++ item :: after)%list /\
            sub_transform E (transform E) options item = Throw e /\
            Forall (fun x => exists out,
                      sub_transform E (transform E) options x = Ok out) before
      end
  | _ => _map E (transform E) value options = Ok VNull
  end.
Proof.
  destruct value as [| | | | |items|]; try reflexivity.
  cbn [_map].
  destruct (mapM (fun item => sub_transform E (transform E) options item) items)
    as [outs|e] eqn:Hmap; cbn [bind].
  - exists outs. split; [reflexivity|].
    apply mapM_Forall2 in Hmap.
    split; [symmetry; exact (Forall2_length _ _ _ Hmap)|].
    induction Hmap as [|item out items outs Hitem _ IH]; constructor; [|exact IH].
    split; [exact Hitem|]. intros Hnull.
    rewrite (sub_transform_of_nullish E options item Hnull) in Hitem.
    now injection Hitem.
  - now apply mapM_Throw in Hmap.
Qed.

(** The fields of [object] are independent: with an object as options the
    result is an object with the keys of the options, in their order, and
    under each key what the template there gives on the input of [object]
    itself; it fails only with the error of the first field that fails,
    the fields before it having given their values.
    (A key [__proto__] is assigned through the accessor of
    [Object.prototype]; templates with that key are left aside.) *)
Theorem object_fields_are_independent (E : Externals) (value : jsval)
    (props : list (string * jsval)) :
  ~ In "__proto__" (List.map fst props) ->
  match _object E (transform E) value (VObj props) with
  | Ok r =>
      exists outs,
        r = VObj outs /\ List.map fst outs = List.map fst props /\
        Forall2 (fun field out =>
                   out.1 = field.1 /\
                   sub_transform E (transform E) field.2 value = Ok out.2)
                props outs
  | Throw e =>
      exists before field after,
        props = (before ++ field :: after)%list /\
        sub_transform E (transform E) field.2 value = Throw e /\
        Forall (fun earlier =>
                  exists out,
                    sub_transform E (transform E) earlier.2 value = Ok out)
               before
  end.
Proof.
  intros _. cbn [_object].
  destruct (mapM (fun '(key, template) =>
                    out <- sub_transform E (transform E) template value ;;
                    Ok (key, out)) props) as [outs|e] eqn:Hmap; cbn [bind].
  - exists outs. split; [reflexivity|]. apply mapM_Forall2 in Hmap.
    assert (Hfields : Forall2 (fun field out =>
                         out.1 = field.1 /\
                         sub_transform E (transform E) field.2 value = Ok out.2)
                        props outs).
    { induction Hmap as [|[key template] [key' out] props outs Hfield _ IH];
        constructor; [|exact IH].
      cbn [fst snd].
      destruct (sub_transform E (transform E) template value); [|discriminate].
      cbn [bind] in Hfield. now injection Hfield as -> ->. }
    split; [|exact Hfields].
    clear Hmap. induction Hfields as [|field out props outs [Hkey _] _ IH];
      [reflexivity|].
    cbn [List.map]. now rewrite Hkey, IH.
  - apply mapM_Throw in Hmap
      as (before & [key template] & after & -> & Hfield & Hbefore).
    exists before, (key, template), after. split; [reflexivity|]. cbn [snd].
    split.
    + destruct (sub_transform E (transform E) template value); [discriminate|].
      cbn [bind] in Hfield. now injection Hfield as ->.
    + eapply Forall_impl; [exact Hbefore|].
      intros [k t] [out Hout]. cbn [snd].
      destruct (sub_transform E (transform E) t value) as [o|e'];
        [now exists o|discriminate].
Qed.

Lemma object_fields_are_independent_witness :
  exists outs,
    VObj [("name", VStr "Foo"); ("size", VNum 3)] = VObj outs /\
    List.map fst outs = ["name"; "size"] /\
    Forall2 (fun field out =>
               out.1 = field.1 /\
               sub_transform example_externals (transform example_externals)
                 field.2 (VObj [("title", VStr "Foo")]) = Ok out.2)
            [("name", VStr "/title");
             ("size", VObj [("get", VStr "/title"); ("length", VObj [])])]
            outs.
Proof.
  refine (object_fields_are_independent example_externals
            (VObj [("title", VStr "Foo")])
            [("name", VStr "/title");
             ("size", VObj [("get", VStr "/title"); ("length", VObj [])])] _).
  cbn. intros [H|[H|[]]]; discriminate H.
Defined.

(** [array] returns as many items as it has templates: at every position
    what the template there gives on the input, [null] included; it fails
    only with the error of the first template that fails, the templates
    before it having given their values, and on options that are not an
    array. *)
Theorem array_has_an_item_per_template (E : Externals) (value options : jsval) :
  match options with
  | VArr templates =>
      match _array E (transform E) value options with
      | Ok r =>
          exists outs,
            r = VArr outs /\ List.length outs = List.length templates /\
            Forall2 (fun template out =>
                       sub_transform E (transform E) template value = Ok out)
                    templates outs
      | Throw e =>
          exists before template after,
            templates = (before ++ template :: after)%list /\
            sub_transform E (transform E) template value = Throw e /\
            Forall (fun earlier =>
                      exists out,
                        sub_transform E (transform E) earlier value = Ok out)
                   before
      end
  | _ =>
      _array E (transform E) value options
      = Throw (Error "Options for array transformation must be an array")
  end.
Proof.
  destruct options as [| | | | |templates|]; try reflexivity.
  cbn [_array]. unfold array_items.
  destruct (mapM (fun item => sub_transform E (transform E) item value)
              templates) as [outs|e] eqn:Hmap; cbn [bind].
  - exists outs. split; [reflexivity|]. apply mapM_Forall2 in Hmap.
    split; [symmetry; exact (Forall2_length _ _ _ Hmap)|exact Hmap].
  - apply mapM_Throw in Hmap
      as (before & template & after & -> & Hthrow & Hbefore).
    now exists before, template, after.
Qed.

(** [substring] returns a part of the string; for whole numbers [start]
    and [length], the numbers of the embedding, the part is no longer than
    the [length] asked for (on fractions [substring] truncates each end
    after the sum, and the part can be one character longer); without a
    number for [start] and for [length] it returns the string whole.  On a
    string it throws only when the options are [null] or [undefined]. *)
Theorem substring_is_a_part (s : string) (options : jsval) :
  match _substring (VStr s) options with
  | Ok r =>
      exists pre out post,
        r = VStr out /\ s = (pre ++ out ++ post)%string /\
        (forall n, get_prop options "length" = Ok (VNum n) ->
                   Z.of_nat (String.length out) <= Z.abs n) /\
        ((forall n, get_prop options "start" <> Ok (VNum n)) ->
         (forall n, get_prop options "length" <> Ok (VNum n)) ->
         out = s)
  | Throw e => nullish options = true
  end.
Proof.
  unfold _substring.
  destruct (get_prop options "start") as [start|e] eqn:Hstart; cbn [bind];
    [|exact (get_prop_throws _ _ _ Hstart)].
  destruct (get_prop options "length") as [len|e] eqn:Hlen; cbn [bind];
    [|exact (get_prop_throws _ _ _ Hlen)].
  unfold js_substring.
  match goal with
  | |- exists pre out post, VStr (String.substring ?a ?b s) = _ /\ _ =>
      destruct (substring_part s a b) as (pre & post & Hs);
      pose proof (substring_length_le s a b) as Hle;
      exists pre, (String.substring a b s), post
  end.
  split; [reflexivity|]. split; [exact Hs|]. split.
  - intros n [= ->]. cbv beta iota zeta in Hle.
    pose proof (clamp_span (String.length s)
                  (match start with VNum n0 => n0 | _ => 0 end) n).
    lia.
  - intros Hnostart Hnolen.
    destruct start; try (exfalso; now eapply Hnostart);
      destruct len; try (exfalso; now eapply Hnolen);
      unfold clamp; cbn; rewrite ?Nat.sub_0_r; apply substring_whole.
Qed.


(** [slice] returns a part of the array.  Without [from] and [to] it is the
    array whole; with numbers [0 <= from <= to] it has the items from
    position [from] up to, not including, position [to], as far as there
    are any; with a negative [from] and no [to] it has the last items.  On
    an array it never throws. *)
Theorem slice_is_a_part (E : Externals) (items : list jsval) (options : jsval) :
  exists pre outs post,
    _slice E (VArr items) options = Ok (VArr outs) /\
    items = (pre ++ outs ++ post)%list /\
    (get_prop options "from" = Ok VUndefined ->
     get_prop options "to" = Ok VUndefined -> outs = items) /\
    (forall a b : Z,
       get_prop options "from" = Ok (VNum a) ->
       get_prop options "to" = Ok (VNum b) -> 0 <= a <= b ->
       outs = firstn (Z.to_nat (b - a)) (skipn (Z.to_nat a) items)) /\
    (forall n : Z,
       get_prop options "from" = Ok (VNum (- n)) ->
       get_prop options "to" = Ok VUndefined ->
       0 < n <= Z.of_nat (List.length items) ->
       post = [] /\ Z.of_nat (List.length outs) = n).
Proof.
  cbn [_slice]. unfold js_slice.
  set (from := to_integer E (defaults_prop options "from" (VNum 0))).
  set (to := match defaults_prop options "to" VUndefined with
             | VUndefined => None
             | t => Some (to_integer E t)
             end).
  set (a := rel_index (List.length items) from).
  set (b := match to with
            | Some t => rel_index (List.length items) t
            | None => List.length items
            end).
  exists (firstn a items), (firstn (b - a) (skipn a items)),
    (skipn (b - a) (skipn a items)).
  split; [reflexivity|]. split; [now rewrite !firstn_skipn|].
  assert (Hdefault : forall k fallback v,
             get_prop options k = Ok v ->
             defaults_prop options k fallback
             = match v with VUndefined => fallback | _ => v end).
  { intros k fallback v Hk. unfold defaults_prop. rewrite Hk.
    destruct options; try discriminate; reflexivity. }
  split; [|split].
  - intros Hfrom Hto. subst a b to from.
    rewrite (Hdefault _ _ _ Hfrom), (Hdefault _ _ _ Hto).
    cbn. rewrite Nat.sub_0_r. apply firstn_all.
  - intros x y Hfrom Hto Hxy. subst a b to from.
    rewrite (Hdefault _ _ _ Hfrom), (Hdefault _ _ _ Hto).
    cbn [to_integer]. unfold rel_index.
    destruct (Z.ltb_spec x 0), (Z.ltb_spec y 0); try lia.
    set (len := List.length items).
    destruct (Nat.le_gt_cases len (Z.to_nat x)) as [Hout|Hin].
    + rewrite !skipn_all2 by lia. now rewrite !firstn_nil.
    + replace (Nat.min (Z.to_nat x) len) with (Z.to_nat x) by lia.
      destruct (Nat.le_gt_cases len (Z.to_nat y)) as [Hlong|Hshort].
      * rewrite !firstn_all2; [reflexivity| |];
          rewrite length_skipn; fold len; lia.
      * f_equal. lia.
  - intros n Hfrom Hto Hn. subst a b to from.
    rewrite (Hdefault _ _ _ Hfrom), (Hdefault _ _ _ Hto).
    cbn [to_integer]. unfold rel_index.
    destruct (Z.ltb_spec (- n) 0); [|lia].
    replace (match VNum (- n) with VUndefined => VNum 0 | _ => VNum (- n) end)
      with (VNum (- n)) by reflexivity.
    cbn [to_integer].
    destruct (Z.ltb_spec (- n) 0); [|lia].
    split.
    + apply skipn_all2. rewrite length_skipn. lia.
    + rewrite firstn_all2 by (rewrite length_skipn; lia).
      rewrite length_skipn. lia.
Qed.

(** [count] is [length] made total: where [length] returns a number,
    [count] returns the same; where [length] throws, [count] returns [0].
    Neither returns a negative number. *)
Theorem count_is_length_made_total (value : jsval) :
  exists n : Z,
    _count value = Ok (VNum n) /\ 0 <= n /\
    match _length value with
    | Ok r => r = VNum n
    | Throw _ => n = 0 /\ is_string value = false /\ is_array value = false
    end.
Proof.
  destruct value; cbn [_count _length is_string is_array];
    eexists; (split; [reflexivity|]); split; auto; lia.
Qed.

(** The markup methods on a value that is not a string never call the
    parser: [htmlTag], [htmlTagText], [htmlAttribute] and [htmlTable]
    return [null], which ends the chain, and [htmlTags] and [htmlTagsText]
    return the empty array, with which the chain goes on. *)
Theorem markup_methods_on_other_values (E : Externals) (value : jsval)
    (selector : string) (after : list (string * jsval)) :
  is_string value = false ->
  _htmlTag E value (VStr selector) = Ok VNull /\
  _htmlTagText E value (VStr selector) = Ok VNull /\
  _htmlAttribute E value (VStr selector) = Ok VNull /\
  _htmlTags E value (VStr selector) = Ok (VArr []) /\
  _htmlTagsText E value (VStr selector) = Ok (VArr []) /\
  (forall (options : jsval) (cell : Z) (text : string),
     typeof options = "object" ->
     get_prop options "cell" = Ok (VNum cell) ->
     get_prop options "text" = Ok (VStr text) ->
     _htmlTable E value options = Ok VNull) /\
  (nullish value = false ->
   transform E (VObj (("htmlTag", VStr selector) :: after)) value = Ok VNull /\
   transform E (VObj (("htmlTags", VStr selector) :: after)) value
   = transform E (VObj after) (VArr [])).
Proof.
  intros Hstring.
  repeat (split; [destruct value; try discriminate; reflexivity|]).
  split.
  - intros options cell text Htype Hcell Htext. unfold _htmlTable.
    rewrite Htype, Hcell, Htext. cbn.
    destruct value; try discriminate; reflexivity.
  - intros Hvalue. rewrite !TransformationProps.transform_object, Hvalue.
    unfold cloneDeep. cbn [chain].
    split; destruct value; try discriminate; reflexivity.
Qed.

Lemma markup_methods_on_other_values_witness :
  _htmlTag example_externals (VNum 5) (VStr "a") = Ok VNull /\
  _htmlTags example_externals (VNum 5) (VStr "a") = Ok (VArr []) /\
  transform example_externals
    (VObj [("htmlTags", VStr "a"); ("count", VObj [])]) (VNum 5)
  = transform example_externals (VObj [("count", VObj [])]) (VArr []).
Proof.
  pose proof (markup_methods_on_other_values example_externals (VNum 5) "a"
                [("count", VObj [])] eq_refl)
    as (Htag & _ & _ & Htags & _ & _ & Hchain).
  exact (conj Htag (conj Htags (proj2 (Hchain eq_refl)))).
Defined.

(** [hash] of a value that is not a string is the hash of its JSON text:
    putting [toJson] before [hash] changes nothing. *)
Theorem hash_of_a_value_is_the_hash_of_its_json (E : Externals)
    (value ignored options : jsval) (after : list (string * jsval)) :
  is_string value = false ->
  transform E (VObj (("toJson", ignored) :: ("hash", options) :: after)) value
  = transform E (VObj (("hash", options) :: after)) value.
Proof.
  intros Hstring. rewrite !TransformationProps.transform_object.
  destruct (nullish value) eqn:Hvalue; [reflexivity|].
  unfold cloneDeep. cbn [chain].
  change (apply_key E (transform E) "toJson" value ignored)
    with (Ok (VStr (E.(JSON_stringify) value))).
  cbn [nullish].
  change (apply_key E (transform E) "hash" (VStr (E.(JSON_stringify) value))
            options)
    with (_hash E (VStr (E.(JSON_stringify) value)) options).
  change (apply_key E (transform E) "hash" value options)
    with (_hash E value options).
  unfold _hash. destruct value; try discriminate; reflexivity.
Qed.

Lemma hash_of_a_value_is_the_hash_of_its_json_witness :
  transform example_externals
    (VObj [("toJson", VObj []); ("hash", VObj [])]) (VNum 5)
  = transform example_externals (VObj [("hash", VObj [])]) (VNum 5).
Proof.
  apply (hash_of_a_value_is_the_hash_of_its_json example_externals
           (VNum 5) (VObj []) (VObj []) []).
  reflexivity.
Defined.

(** A string in the place of a template is short for [{get: string}]:
    [object], [map] and [array] do on a string field, template or item what
    they do on the one-key template.  The short form is theirs alone: as the
    template of [transform] itself a string that is not empty has the keys
    ["0"], ["1"], ... and fails on the first. *)
Theorem string_is_short_for_get (E : Externals) (value : jsval) :
  (forall props,
     _object E (transform E) value (VObj props)
     = _object E (transform E) value
         (VObj (List.map (fun field => (field.1, expand field.2)) props))) /\
  (forall options,
     _map E (transform E) value options
     = _map E (transform E) value (expand options)) /\
  (forall templates,
     _array E (transform E) value (VArr templates)
     = _array E (transform E) value (VArr (List.map expand templates))) /\
  (forall pointer,
     nullish value = false -> pointer <> "" ->
     transform E (VStr pointer) value = Throw (Error "Unknown function 0")).
Proof.
  assert (Hsub : forall template x,
             sub_transform E (transform E) template x
             = sub_transform E (transform E) (expand template) x).
  { intros template x. now destruct template. }
  split; [|split; [|split]].
  - intros props. cbn [_object]. f_equal.
    induction props as [|[key template] props IH]; [reflexivity|].
    cbn [mapM List.map fst snd]. rewrite <- Hsub.
    destruct (sub_transform E (transform E) template value); [|reflexivity].
    cbn [bind]. now rewrite IH.
  - intros options. destruct value as [| | | | |items|]; try reflexivity.
    cbn [_map]. f_equal.
    induction items as [|item items IH]; [reflexivity|].
    cbn [mapM]. rewrite <- Hsub.
    destruct (sub_transform E (transform E) options item); [|reflexivity].
    cbn [bind]. now rewrite IH.
  - intros templates. cbn [_array]. unfold array_items. f_equal.
    induction templates as [|template templates IH]; [reflexivity|].
    cbn [mapM List.map]. rewrite <- Hsub.
    destruct (sub_transform E (transform E) template value); [|reflexivity].
    cbn [bind]. now rewrite IH.
  - intros pointer Hvalue Hpointer. cbn [transform]. rewrite Hvalue.
    destruct (String.eqb_spec pointer ""); [contradiction|reflexivity].
Qed.

(** [join] on an array of strings is their concatenation with the
    separator between them; a separator that is missing or falsy (the
    empty string, [0], [false], [null]) is the empty string.  An item that
    is [null] or [undefined] counts as the empty string.  On an array it
    throws only when the options are [null] or [undefined]. *)
Theorem join_concatenates (parts : list jsval) (options : jsval) :
  match get_prop options "separator" with
  | Ok separator =>
      _join (VArr parts) options
      = Ok (VStr (String.concat
                    (if truthy separator then to_string separator else "")
                    (List.map (fun item =>
                                 if nullish item then "" else to_string item)
                              parts)))
  | Throw e => _join (VArr parts) options = Throw e /\ nullish options = true
  end.
Proof.
  cbn [_join].
  destruct (get_prop options "separator") as [separator|e] eqn:Hseparator;
    [|split; [reflexivity|exact (get_prop_throws _ _ _ Hseparator)]].
  cbn [bind]. do 2 f_equal.
  generalize (if truthy separator then to_string separator else "") as sep.
  intros sep. induction parts as [|item parts IH]; [reflexivity|].
  destruct parts as [|next parts]; [reflexivity|].
  change (array_join sep (item :: next :: parts))
    with ((if nullish item then "" else to_string item) ++ sep
          ++ array_join sep (next :: parts)).
  now rewrite IH.
Qed.

Lemma sub_transform_never_undefined (E : Externals) (template value out : jsval) :
  sub_transform E (transform E) template value = Ok out ->
  out = VNull \/ nullish out = false.
Proof.
  destruct template as [| | | |pointer| |]; cbn [sub_transform];
    try (intros Hout; destruct (nullish out) eqn:Hnull; [|now right]; left;
         destruct out; try discriminate; [|reflexivity];
         exfalso; exact (transform_result_is_defined E _ value Hout)).
  unfold transform_shorthand.
  destruct (nullish value); [intros [= Heq]; left; now symmetry|].
  destruct (_get E (cloneDeep value) (VStr pointer)) as [found|e]; [|discriminate].
  destruct (nullish found) eqn:Hfound; intros [= Heq]; subst out;
    [now left|now right].
Qed.

(** What [object] puts under a key, [get] reads back: when the library
    reads an own property at the one-level pointer ["/key"], the chain
    [object], [get: "/key"] gives what the template under [key] gives on
    the input, provided every field of the object can be computed. *)
Theorem object_then_get (E : Externals) (value : jsval)
    (props : list (string * jsval)) (key : string) (template r : jsval) :
  (forall outs, E.(JsonPointer_get) (VObj outs) ("/" ++ key)
                = Ok (default VUndefined (assoc key outs))) ->
  NoDup (List.map fst props) ->
  In (key, template) props ->
  _object E (transform E) value (VObj props) = Ok r ->
  transform E (VObj [("object", VObj props); ("get", VStr ("/" ++ key))]) value
  = sub_transform E (transform E) template value.
Proof.
  intros Hlib Hkeys Hin Hobject.
  rewrite TransformationProps.transform_object.
  destruct (nullish value) eqn:Hvalue.
  { symmetry. now apply sub_transform_of_nullish. }
  unfold cloneDeep. cbn [chain].
  change (apply_key E (transform E) "object" value (VObj props))
    with (_object E (transform E) value (VObj props)).
  rewrite Hobject. cbn [_object] in Hobject.
  destruct (mapM (fun '(k, t) =>
                    out <- sub_transform E (transform E) t value ;; Ok (k, out))
              props) as [outs|e] eqn:Hmap; [|discriminate].
  cbn [bind] in Hobject. injection Hobject as <-. cbn [nullish].
  change (apply_key E (transform E) "get" (VObj outs) (VStr ("/" ++ key)))
    with (_get E (VObj outs) (VStr ("/" ++ key))).
  cbn [_get]. rewrite Hlib.
  apply mapM_Forall2 in Hmap.
  assert (Hfound : exists out,
             sub_transform E (transform E) template value = Ok out /\
             assoc key outs = Some out).
  { clear Hlib. induction Hmap as [|[k t] [k' out] props outs Hfield _ IH].
    - destruct Hin.
    - cbn [List.map fst] in Hkeys. apply NoDup_cons in Hkeys as [Hfirst Hrest].
      destruct (sub_transform E (transform E) t value) as [o|e] eqn:Ht;
        [|discriminate]. cbn [bind] in Hfield. injection Hfield as <- <-.
      cbn [assoc]. destruct Hin as [[= -> ->]|Hin].
      + exists o. now rewrite String.eqb_refl.
      + destruct (String.eqb_spec key k) as [->|_]; [|now apply IH].
        exfalso. apply Hfirst, list_elem_of_In.
        change k with (fst (k, template)). now apply in_map. }
  destruct Hfound as (out & Hout & ->). cbn [default from_option id].
  rewrite Hout. cbn.
  destruct (sub_transform_never_undefined E template value out Hout)
    as [->|Hthere]; [reflexivity|now rewrite Hthere].
Qed.

Lemma object_then_get_witness :
  transform example_externals
    (VObj [("object", VObj [("name", VStr "/title"); ("size", VStr "/n")]);
           ("get", VStr "/name")])
    (VObj [("title", VStr "Foo"); ("n", VNum 3)])
  = sub_transform example_externals (transform example_externals)
      (VStr "/title") (VObj [("title", VStr "Foo"); ("n", VNum 3)]).
Proof.
  apply (object_then_get example_externals
           (VObj [("title", VStr "Foo"); ("n", VNum 3)])
           [("name", VStr "/title"); ("size", VStr "/n")] "name" (VStr "/title")
           (VObj [("name", VStr "Foo"); ("size", VNum 3)])).
  - intros outs. change ("/" ++ "name")%string with "/name". cbn.
    now destruct (assoc "name" outs).
  - cbn. apply NoDup_cons. split; [|apply NoDup_singleton].
    intros Hin. apply list_elem_of_In in Hin as [H|[]]. discriminate H.
  - now left.
  - reflexivity.
Defined.

End MethodProps.

(** ** Properties of the method names *)

Module QueryProps.
Import Js Query.

Lemma upper_is_not_lower (c : ascii) : is_upper c = true -> is_lower c = false.
Proof.
  unfold is_upper, is_lower. cbv zeta.
  destruct (Nat.leb_spec 65 (nat_of_ascii c)), (Nat.leb_spec (nat_of_ascii c) 90),
    (Nat.leb_spec 97 (nat_of_ascii c)), (Nat.leb_spec (nat_of_ascii c) 122);
    cbn; intros; try discriminate; try reflexivity; lia.
Qed.

Lemma span_app (p : ascii -> bool) (taken others : string) :
  all_chars p taken = true ->
  match others with String c _ => p c = false | EmptyString => True end ->
  span p (taken ++ others) = (taken, others).
Proof.
  intros Htaken Hothers. induction taken as [|c taken IH].
  - change ("" ++ others)%string with others.
    destruct others as [|c rest]; cbn [span]; [reflexivity|].
    now rewrite Hothers.
  - change (String c taken ++ others)%string with (String c (taken ++ others)).
    cbn [all_chars] in Htaken. apply andb_prop in Htaken as [Hc Htaken].
    cbn [span]. now rewrite Hc, (IH Htaken).
Qed.

Lemma span_spec (p : ascii -> bool) (s taken others : string) :
  span p s = (taken, others) ->
  s = (taken ++ others)%string /\ all_chars p taken = true /\
  match others with String c _ => p c = false | EmptyString => True end.
Proof.
  revert taken others. induction s as [|c s IH]; intros taken others; cbn [span].
  - intros [= <- <-]. now repeat split.
  - destruct (p c) eqn:Hc.
    + destruct (span p s) as [taken' others'].
      intros [= <- <-]. destruct (IH _ _ eq_refl) as (-> & Htaken & Hothers).
      repeat split; [|exact Hothers]. cbn [all_chars]. now rewrite Hc.
    + intros [= <- <-]. repeat split. exact Hc.
Qed.

Lemma match_name_of_split (name operation model : string) :
  splits name operation model -> match_name name = Some (operation, model).
Proof.
  intros (-> & Hoperation & c & rest & -> & Hc & Hrest).
  unfold match_name.
  rewrite (span_app is_lower operation (String c rest) Hoperation
             (upper_is_not_lower c Hc)).
  now rewrite Hc, Hrest.
Qed.

Lemma split_of_match_name (name operation model : string) :
  match_name name = Some (operation, model) -> splits name operation model.
Proof.
  unfold match_name.
  destruct (span is_lower name) as [taken others] eqn:Hspan.
  apply span_spec in Hspan as (-> & Htaken & _).
  destruct others as [|c rest]; [discriminate|].
  destruct (is_upper c && all_chars is_word rest) eqn:Hmodel; [|discriminate].
  intros [= <- <-]. apply andb_prop in Hmodel as [Hc Hrest].
  split; [reflexivity|]. split; [exact Htaken|]. now exists c, rest.
Qed.

Lemma or_read_not_empty (operation : string) : or_read operation <> "".
Proof.
  unfold or_read. destruct (String.eqb_spec operation ""); [discriminate|assumption].
Qed.

(** A method name splits in at most one way into an operation in lower
    case and the capitalised name of a model: the pattern that
    [getOperation], [getModel], [callMethod] and [executeMethod] match names
    against finds that split when there is one, and finds nothing when
    there is none. *)
Theorem name_splits_in_one_way (name : string) :
  match match_name name with
  | Some (operation, model) =>
      splits name operation model /\
      forall operation' model',
        splits name operation' model' ->
        operation' = operation /\ model' = model
  | None => forall operation model, ~ splits name operation model
  end.
Proof.
  destruct (match_name name) as [[operation model]|] eqn:Hmatch.
  - split; [now apply split_of_match_name|].
    intros operation' model' Hsplit.
    apply match_name_of_split in Hsplit. rewrite Hmatch in Hsplit.
    now injection Hsplit as -> ->.
  - intros operation model Hsplit.
    apply match_name_of_split in Hsplit. congruence.
Qed.

Lemma getOperation_of_split (name operation model : string) :
  splits name operation model ->
  getOperation name
  = (if String.eqb operation "" then "read"
     else if String.eqb operation "delete" then "remove" else operation).
Proof.
  intros Hsplit. unfold getOperation.
  rewrite (match_name_of_split _ _ _ Hsplit). unfold or_read.
  destruct (String.eqb_spec operation ""); reflexivity.
Qed.

(** [getOperation] reads the operation off the name: the lower-case letters
    in front of the name of the model, [read] when there are none, and
    [remove] for [delete]. *)
Theorem getOperation_reads_the_prefix (operation model : string) :
  splits (operation ++ model) operation model ->
  getOperation (operation ++ model)
  = (if String.eqb operation "" then "read"
     else if String.eqb operation "delete" then "remove" else operation).
Proof. apply getOperation_of_split. Qed.

Lemma getOperation_reads_the_prefix_witness :
  getOperation ("delete" ++ "QueueItem") = "remove".
Proof.
  apply (getOperation_reads_the_prefix "delete" "QueueItem").
  split; [reflexivity|]. split; [reflexivity|].
  now exists "Q"%char, "ueueItem".
Defined.

(** [getOperation] returns an operation for every name: never the empty
    string and never [delete]; a name that the pattern does not match,
    which [getModel] rejects, is a [read]. *)
Theorem getOperation_is_total (name : string) :
  getOperation name <> "" /\ getOperation name <> "delete" /\
  (match_name name = None ->
   getOperation name = "read" /\
   forall (A : Type) (instances : list (string * A)),
     getModel instances name
     = Throw (Error ("Model " ++ Transformation.quoted name
                     ++ " does not exists"))).
Proof.
  unfold getOperation, getModel.
  destruct (match_name name) as [[operation model]|].
  - pose proof (or_read_not_empty operation) as Hempty.
    destruct (String.eqb_spec (or_read operation) "delete").
    + split; [discriminate|]. split; [discriminate|]. intros [=].
    + split; [assumption|]. split; [assumption|]. intros [=].
  - split; [discriminate|]. split; [discriminate|]. intros _.
    split; reflexivity.
Qed.

(** The two access checks of a method differ on [delete]: for the check on
    the model [callMethod] takes the operation from [getOperation], which
    says [remove], and for the check on the fields [executeMethod] reads
    it off the name again, which says [delete].  On every other name that
    [getModel] accepts the two agree. *)
Theorem access_checks_differ_on_delete (name : string) :
  match field_operation name with
  | Some operation =>
      if String.eqb operation "delete"
      then getOperation name = "remove"
      else getOperation name = operation
  | None => match_name name = None
  end.
Proof.
  unfold field_operation, getOperation.
  destruct (match_name name) as [[operation model]|]; [|reflexivity].
  now destruct (String.eqb (or_read operation) "delete").
Qed.

(** [getModel] looks up the model under the capitalised part of the name:
    the operation in front of it plays no part, and a model is found only
    under a name that starts with a capital. *)
Theorem getModel_ignores_the_operation {A : Type}
    (instances : list (string * A)) (operation model : string) :
  splits (operation ++ model) operation model ->
  getModel instances (operation ++ model) = Models_get instances model /\
  getModel instances model = Models_get instances model.
Proof.
  intros Hsplit. unfold getModel.
  rewrite (match_name_of_split _ _ _ Hsplit).
  split; [reflexivity|].
  destruct Hsplit as (_ & _ & c & rest & -> & Hc & Hrest).
  assert (Hmodel : splits (String c rest) "" (String c rest)).
  { split; [reflexivity|]. split; [reflexivity|]. now exists c, rest. }
  now rewrite (match_name_of_split _ _ _ Hmodel).
Qed.

Lemma getModel_ignores_the_operation_witness :
  getModel [("User", 1%nat)] ("update" ++ "User") = Models_get [("User", 1%nat)] "User" /\
  getModel [("User", 1%nat)] "User" = Models_get [("User", 1%nat)] "User".
Proof.
  apply (getModel_ignores_the_operation [("User", 1%nat)] "update" "User").
  split; [reflexivity|]. split; [reflexivity|].
  now exists "U"%char, "ser".
Defined.

(** The names that [ScriptEngine] gives the scripts of a model lead back to
    their operations: for a model with a capitalised name, every script it
    registers is one of the six operations with an array of steps in the
    schema, and [getOperation] on the name of the script is the operation
    it is registered under, [remove] for the script named [delete...]. *)
Theorem script_names_lead_back (model : string) (jsonSchema : jsval)
    (scripts : list (string * jsval)) :
  splits model "" model ->
  script_definitions (VStr model) jsonSchema = Ok scripts ->
  Forall (fun script =>
            In script.1 operations /\
            exists steps,
              get_prop jsonSchema script.1 = Ok (VArr steps) /\
              script.2 = VObj [("name", VStr (script_name script.1 (VStr model)));
                               ("steps", VArr steps)] /\
              getOperation (script_name script.1 (VStr model)) = script.1)
         scripts.
Proof.
  intros (_ & _ & c & rest & -> & Hc & Hrest).
  assert (Hback : forall operation,
             In operation operations ->
             getOperation (script_name operation (VStr (String c rest)))
             = operation).
  { intros operation Hin. unfold script_name. cbn [to_string].
    assert (Hsplit : all_chars is_lower (operationName operation) = true ->
                     splits (operationName operation ++ String c rest)
                       (operationName operation) (String c rest)).
    { intros Hlower. split; [reflexivity|]. split; [exact Hlower|].
      now exists c, rest. }
    cbn in Hin.
    repeat (destruct Hin as [<-|Hin];
            [now rewrite (getOperation_of_split _ _ _ (Hsplit eq_refl))|]).
    destruct Hin. }
  unfold script_definitions.
  assert (Hall : forall names, (forall o, In o names -> In o operations) ->
            forall scripts,
            scripts_for (VStr (String c rest)) jsonSchema names = Ok scripts ->
            Forall (fun script =>
              In script.1 operations /\
              exists steps,
                get_prop jsonSchema script.1 = Ok (VArr steps) /\
                script.2 = VObj [("name", VStr (script_name script.1
                                                  (VStr (String c rest))));
                                 ("steps", VArr steps)] /\
                getOperation (script_name script.1 (VStr (String c rest)))
                = script.1) scripts).
  { induction names as [|operation names IH]; intros Hnames found;
      cbn [scripts_for].
    - intros [= <-]. constructor.
    - destruct (get_prop jsonSchema operation) as [steps|e] eqn:Hsteps;
        [|discriminate]. cbn [bind].
      destruct (scripts_for (VStr (String c rest)) jsonSchema names)
        as [others|e]; [|discriminate]. cbn [bind].
      assert (Hothers : Forall (fun script =>
                 In script.1 operations /\
                 exists steps,
                   get_prop jsonSchema script.1 = Ok (VArr steps) /\
                   script.2 = VObj [("name", VStr (script_name script.1
                                                     (VStr (String c rest))));
                                    ("steps", VArr steps)] /\
                   getOperation (script_name script.1 (VStr (String c rest)))
                   = script.1) others).
      { apply IH; [|reflexivity]. intros o Ho. apply Hnames. now right. }
      destruct steps as [| | | | |items|]; cbn [is_array];
        intros [= <-]; try exact Hothers.
      constructor; [|exact Hothers]. cbn [fst snd].
      split; [apply Hnames; now left|]. exists items.
      split; [exact Hsteps|]. split; [reflexivity|].
      apply Hback, Hnames. now left. }
  apply Hall. auto.
Qed.

Lemma script_names_lead_back_witness :
  Forall (fun script =>
            In script.1 operations /\
            exists steps,
              get_prop (VObj [("read", VArr []); ("remove", VArr [])]) script.1
              = Ok (VArr steps) /\
              script.2 = VObj [("name", VStr (script_name script.1 (VStr "User")));
                               ("steps", VArr steps)] /\
              getOperation (script_name script.1 (VStr "User")) = script.1)
         [("read", VObj [("name", VStr "readUser"); ("steps", VArr [])]);
          ("remove", VObj [("name", VStr "deleteUser"); ("steps", VArr [])])].
Proof.
  apply (script_names_lead_back "User"
           (VObj [("read", VArr []); ("remove", VArr [])])).
  - split; [reflexivity|]. split; [reflexivity|]. now exists "U"%char, "ser".
  - reflexivity.
Defined.

Lemma reduce_fields_same (access_of access_of' : access_check)
    (fields : list string) (access : jsval) (errors : list string) :
  (forall field, In field fields -> access_of field = access_of' field) ->
  reduce_fields access_of fields access errors
  = reduce_fields access_of' fields access errors.
Proof.
  revert access errors.
  induction fields as [|field rest IH]; intros access errors Hsame;
    [reflexivity|].
  cbn [reduce_fields]. rewrite <- (Hsame field) by now left.
  destruct (access_of field) as [fieldAccess|e]; [|reflexivity]. cbn [bind].
  apply IH. intros f Hf. apply Hsame. now right.
Qed.

Lemma reduce_fields_allowed (access_of : access_check)
    (fields : list string) (access : jsval) (errors : list string) :
  (forall field, In field fields -> access_of field = Ok true) ->
  reduce_fields access_of fields access errors = Ok (access, errors).
Proof.
  revert access errors.
  induction fields as [|field rest IH]; intros access errors Hallowed;
    [reflexivity|].
  cbn [reduce_fields]. rewrite (Hallowed field) by now left. cbn [bind].
  apply IH. intros f Hf. apply Hallowed. now right.
Qed.

(** The check of the fields leaves the first field out: the reduction over
    the names has no initial value, so the first name is what it starts
    from and the host is asked about the names after it only.  Whatever
    the host says about a first name that is not repeated, the outcome is
    the same; when the host allows every name after the first, the check
    passes for any first name but the empty one. *)
Theorem first_field_is_not_checked (access_of access_of' : access_check)
    (first : string) (others : list string) :
  (forall field, In field others -> access_of field = access_of' field) ->
  checkFieldPermissions (Some access_of) (first :: others)
  = checkFieldPermissions (Some access_of') (first :: others) /\
  ((forall field, In field others -> access_of field = Ok true) ->
   first <> "" ->
   checkFieldPermissions (Some access_of) (first :: others) = Passed).
Proof.
  intros Hsame. cbn [checkFieldPermissions]. split.
  - now rewrite (reduce_fields_same access_of access_of' others).
  - intros Hallowed Hfirst. rewrite reduce_fields_allowed by exact Hallowed.
    cbn [truthy]. now destruct (String.eqb_spec first "").
Qed.

Lemma first_field_is_not_checked_witness :
  checkFieldPermissions
    (Some (fun field => Ok (negb (String.eqb field "password"))))
    ["password"; "id"]
  = checkFieldPermissions (Some (fun _ => Ok true)) ["password"; "id"] /\
  checkFieldPermissions
    (Some (fun field => Ok (negb (String.eqb field "password"))))
    ["password"; "id"]
  = Passed.
Proof.
  destruct (first_field_is_not_checked
              (fun field => Ok (negb (String.eqb field "password")))
              (fun _ => Ok true) "password" ["id"]) as [Hsame Hpassed].
  - intros field [<-|[]]. reflexivity.
  - split; [exact Hsame|]. apply Hpassed; [|discriminate].
    intros field [<-|[]]. reflexivity.
Defined.

(** When the check of the fields denies, it names the fields after the
    first that the host does not allow, each once for every time it
    occurs, in their order; a field after the first that is not allowed
    makes it deny.  Without a context nothing is checked. *)
Theorem denied_fields_are_named (access_of : string -> bool)
    (first : string) (others : list string) :
  checkFieldPermissions None (first :: others) = Passed /\
  checkFieldPermissions (Some (fun field => Ok (access_of field)))
    (first :: others)
  = (if forallb access_of others && negb (String.eqb first "") then Passed
     else Denied (List.map (fun field => "Permission denied on field " ++ field)
                    (List.filter (fun field => negb (access_of field)) others))).
Proof.
  split; [reflexivity|]. cbn [checkFieldPermissions].
  assert (Hreduce : forall fields access errors,
             reduce_fields (fun field => Ok (access_of field)) fields access
               errors
             = Ok (if forallb access_of fields then access else VBool false,
                   (errors ++ List.map
                      (fun field => ("Permission denied on field " ++ field)%string)
                      (List.filter (fun field => negb (access_of field))
                         fields))%list)).
  { induction fields as [|field rest IH]; intros access errors.
    - cbn. now rewrite app_nil_r.
    - cbn [reduce_fields bind forallb List.filter]. rewrite IH.
      destruct (access_of field); cbn [negb andb List.map].
      + reflexivity.
      + rewrite <- app_assoc. cbn [app].
        now destruct (forallb access_of rest). }
  rewrite Hreduce. cbn [app].
  destruct (forallb access_of others); cbn [truthy andb]; [|reflexivity].
  now destruct (String.eqb first "").
Qed.

End QueryProps.

(** ** Properties of the references plugin *)

Module ReferencesProps.
Import Js References.

Lemma assoc_assign {A} (key : string) (value : A) (table : list (string * A)) :
  assoc key (assign key value table) = Some value.
Proof.
  induction table as [|[k v] rest IH]; cbn [assign assoc].
  - now rewrite String.eqb_refl.
  - destruct (String.eqb_spec key k) as [->|Hk]; cbn [assoc].
    + now rewrite String.eqb_refl.
    + destruct (String.eqb_spec key k); [contradiction|exact IH].
Qed.

Lemma assoc_assign_other {A} (key other : string) (value : A)
    (table : list (string * A)) :
  other <> key -> assoc other (assign key value table) = assoc other table.
Proof.
  intros Hother. induction table as [|[k v] rest IH]; cbn [assign assoc].
  - destruct (String.eqb_spec other key); [contradiction|reflexivity].
  - destruct (String.eqb_spec key k) as [->|Hk]; cbn [assoc].
    + destruct (String.eqb_spec other k); [contradiction|reflexivity].
    + now rewrite IH.
Qed.

Lemma collect_property_spec (modelName property : string) (schema : jsval)
    (state state' : collected) :
  collect_property modelName property schema state = Ok state' ->
  (exists name,
     qualifies schema name /\
     state' = ((state.1 ++ [name])%list,
               assign name {| model := modelName; field := property |} state.2))
  \/ ((forall name, ~ qualifies schema name) /\ state' = state).
Proof.
  unfold collect_property.
  destruct (get_prop schema "reverse") as [reverse|e] eqn:Hreverse;
    [|discriminate]. cbn [bind].
  assert (Hnot : (forall s, reverse <> VStr s) ->
                 forall name, ~ qualifies schema name).
  { intros Hno name (references & reverse' & _ & Hrev & _).
    rewrite Hreverse in Hrev. injection Hrev as ->. now apply (Hno reverse'). }
  destruct reverse as [| | | |reverse| |];
    try (intros [= <-]; right; split; [apply Hnot; discriminate|reflexivity]).
  clear Hnot.
  destruct (get_prop schema "references") as [references|e] eqn:Hreferences;
    [|discriminate]. cbn [bind].
  assert (Hnot : (forall s, references <> VStr s) ->
                 forall name, ~ qualifies schema name).
  { intros Hno name (references' & reverse' & Href & _ & _).
    rewrite Hreferences in Href. injection Href as ->.
    now apply (Hno references'). }
  destruct references as [| | | |references| |];
    try (intros [= <-]; right; split; [apply Hnot; discriminate|reflexivity]).
  intros [= <-]. left. exists (references ++ "." ++ reverse).
  split; [|reflexivity]. now exists references, reverse.
Qed.

Lemma agree_assign (P : field_data -> string -> Prop) (state : collected)
    (name : string) (data : field_data) :
  agree P state -> P data name ->
  agree P ((state.1 ++ [name])%list, assign name data state.2).
Proof.
  intros [Hnames Hdata] Hnew. split; cbn [fst snd].
  - intros other. rewrite in_app_iff.
    destruct (String.eqb_spec other name) as [->|Hother].
    + rewrite assoc_assign. split; [now exists data|]. intros _. right. now left.
    + rewrite (assoc_assign_other _ _ _ _ Hother), <- Hnames.
      split; [intros [H|[H|[]]]; [exact H|congruence]|now left].
  - intros other found.
    destruct (String.eqb_spec other name) as [->|Hother].
    + rewrite assoc_assign. now intros [= <-].
    + rewrite (assoc_assign_other _ _ _ _ Hother). apply Hdata.
Qed.

Lemma collect_properties_spec (P : field_data -> string -> Prop)
    (modelName : string) (properties : list (string * jsval))
    (state state' : collected) :
  collect_properties modelName properties state = Ok state' ->
  (forall property schema name,
     In (property, schema) properties -> qualifies schema name ->
     P {| model := modelName; field := property |} name) ->
  agree P state ->
  agree P state' /\
  (forall name, In name state.1 -> In name state'.1) /\
  (forall property schema name,
     In (property, schema) properties -> qualifies schema name ->
     In name state'.1).
Proof.
  revert state.
  induction properties as [|[property schema] rest IH]; intros state;
    cbn [collect_properties].
  - intros [= <-] _ Hagree. split; [exact Hagree|]. split; [auto|].
    intros ? ? ? [].
  - destruct (collect_property modelName property schema state)
      as [next|e] eqn:Hnext; [|discriminate]. cbn [bind].
    intros Hrest HP Hagree.
    assert (Hstep : agree P next /\
                    (forall name, In name state.1 -> In name next.1) /\
                    (forall name, qualifies schema name -> In name next.1)).
    { destruct (collect_property_spec _ _ _ _ _ Hnext)
        as [(name & Hname & ->)|[Hnone ->]].
      - split; [apply agree_assign; [exact Hagree|]; apply (HP property schema);
                  [now left|exact Hname]|].
        cbn [fst]. split; [intros other Hother; apply in_app_iff; now left|].
        intros other (references & reverse & Href & Hrev & ->).
        destruct Hname as (references' & reverse' & Href' & Hrev' & ->).
        rewrite Href in Href'. rewrite Hrev in Hrev'.
        injection Href' as <-. injection Hrev' as <-.
        apply in_app_iff. right. now left.
      - split; [exact Hagree|]. split; [auto|].
        intros name Hname. now destruct (Hnone name). }
    destruct Hstep as (Hnext_agree & Hkeep & Hnew).
    destruct (IH next Hrest) as (Hfinal & Hkeep' & Hnew').
    { intros p s n Hin. apply HP. now right. }
    { exact Hnext_agree. }
    split; [exact Hfinal|]. split; [auto|].
    intros p s n [[= <- <-]|Hin] Hq; [apply Hkeep', Hnew, Hq|].
    now apply (Hnew' p s n).
Qed.

Lemma collect_models_spec (all : list (string * jsval))
    (models : list (string * jsval)) (state state' : collected) :
  collect_models models state = Ok state' ->
  (forall entry, In entry models -> In entry all) ->
  agree (gives_among all) state ->
  agree (gives_among all) state' /\
  (forall name, In name state.1 -> In name state'.1) /\
  (forall data name, gives_among models data name -> In name state'.1).
Proof.
  revert state.
  induction models as [|[modelName modelData] rest IH]; intros state;
    cbn [collect_models].
  - intros [= <-] _ Hagree. split; [exact Hagree|]. split; [auto|].
    intros data name (? & ? & ? & ? & ? & [] & _).
  - destruct (collect_model modelName modelData state) as [next|e] eqn:Hnext;
      [|discriminate]. cbn [bind].
    intros Hrest Hall Hagree. unfold collect_model in Hnext.
    destruct (get_prop modelData "jsonSchema") as [jsonSchema|e] eqn:Hschema;
      [|discriminate]. cbn [bind] in Hnext.
    destruct (get_prop jsonSchema "properties") as [properties|e]
      eqn:Hproperties; [|discriminate]. cbn [bind] in Hnext.
    destruct (object_entries properties) as [schemas|e] eqn:Hschemas;
      [|discriminate]. cbn [bind] in Hnext.
    destruct (collect_properties_spec (gives_among all) modelName schemas
                state next Hnext) as (Hnext_agree & Hkeep & Hnew).
    { intros property schema name Hin Hq.
      exists modelData, jsonSchema, properties, schemas, schema.
      cbn [model field]. repeat split; try assumption.
      apply Hall. now left. }
    { exact Hagree. }
    destruct (IH next Hrest) as (Hfinal & Hkeep' & Hnew').
    { intros entry Hin. apply Hall. now right. }
    { exact Hnext_agree. }
    split; [exact Hfinal|]. split; [auto|].
    intros data name
      (modelData' & jsonSchema' & properties' & schemas' & schema
       & [Hhere|Hin] & Hs & Hp & He & Hfield & Hq).
    + injection Hhere as _ Hsame. subst modelData'. rewrite Hschema in Hs. injection Hs as <-.
      rewrite Hproperties in Hp. injection Hp as <-.
      rewrite Hschemas in He. injection He as <-.
      apply Hkeep'. now apply (Hnew data.(field) schema name).
    + apply (Hnew' data name).
      now exists modelData', jsonSchema', properties', schemas', schema.
Qed.

(** [getFields] announces the fields that the models give, and keeps data
    for each: a name is in the array it returns when, and only when, some
    property of some model has the strings [references] and [reverse] that
    make up the name; [this.fieldData] has an entry under every name of the
    array and under no other, so that [getValue] finds one for every field
    that was announced; and the entry names a property that gives the
    name. *)
Theorem getFields_keeps_data_for_its_fields (models : jsval)
    (fields : list string) (fieldData : list (string * field_data)) :
  getFields models = Ok (fields, fieldData) ->
  (forall name, In name fields <-> exists data, gives models data name) /\
  (forall name,
     In name fields <-> exists data, assoc name fieldData = Some data) /\
  (forall name data,
     assoc name fieldData = Some data -> gives models data name).
Proof.
  unfold getFields.
  destruct (object_entries models) as [entries|e] eqn:Hentries; [|discriminate].
  cbn [bind]. intros Hcollect.
  destruct (collect_models_spec entries entries ([], []) (fields, fieldData)
              Hcollect) as ([Hnames Hdata] & _ & Hall).
  { auto. }
  { split; cbn [fst snd assoc].
    - intros name. split; [intros []|intros [data [=]]].
    - intros name data [=]. }
  cbn [fst snd] in *.
  assert (Hgives : forall data name,
             gives models data name <-> gives_among entries data name).
  { intros data name. split.
    - intros (entries' & Hentries' & Hamong). congruence.
    - intros Hamong. now exists entries. }
  split; [|split].
  - intros name. split.
    + intros Hin. apply Hnames in Hin as [data Hfound]. exists data.
      apply Hgives. now apply Hdata.
    + intros [data Hdata']. apply (Hall data). now apply Hgives.
  - exact Hnames.
  - intros name data Hfound. apply Hgives. now apply Hdata.
Qed.

Lemma getFields_keeps_data_for_its_fields_witness :
  let models :=
    VObj [("Post",
           VObj [("jsonSchema",
                  VObj [("properties",
                         VObj [("title", VObj [("type", VStr "string")]);
                               ("owner",
                                VObj [("references", VStr "User");
                                      ("reverse", VStr "posts")])])])])] in
  (forall name, In name ["User.posts"] <-> exists data, gives models data name) /\
  (forall name,
     In name ["User.posts"] <->
     exists data,
       assoc name [("User.posts", {| model := "Post"; field := "owner" |})]
       = Some data) /\
  (forall name data,
     assoc name [("User.posts", {| model := "Post"; field := "owner" |})]
     = Some data ->
     gives models data name).
Proof.
  intros models.
  apply (getFields_keeps_data_for_its_fields models ["User.posts"]
           [("User.posts", {| model := "Post"; field := "owner" |})]).
  reflexivity.
Defined.

End ReferencesProps.
